(** * Game.py: payoff propagation and policy improvement on the game tree

    A shallow embedding of [src/Game.py] (and of the index bookkeeping of
    [src/Helpers/lbfgsOptimizer.py]).

    Modelling conventions.
    - Python objects live in a store ([heap]) and are named by references;
      every method that mutates an object returns the new store.
    - Numbers: Python floats and TensorFlow float tensors are idealised as
      exact rationals ([Qc]); rounding, [inf] and [nan] are outside the
      model.  Where TensorFlow would produce [inf]/[nan] (a tensor divided by
      zero) the embedding stops with [NonFinite].
    - Exceptions are results [Err e]; the tag names the Python exception
      class where the source fixes it.
    - Random draws are arguments: [sample] takes the index the random source
      returned. *)

From Stdlib Require Import QArith Qcanon ZArith List Lia.
From stdpp Require Import base option list gmap.

Local Open Scope Z_scope.

(** ** Exceptions and the result type *)

Inductive error : Type :=
| AssertionError      (* a failed [assert] *)
| TypeError           (* arithmetic on [None], subscripting [None] *)
| NotSubscriptable    (* subscripting a number (float or rank-0 tensor) *)
| IndexError          (* list or tensor index out of range *)
| ValueError          (* unpacking a sequence of the wrong length *)
| ZeroDivisionError   (* Python number divided by zero *)
| AttributeError      (* method looked up on an object that lacks it *)
| ShapeError          (* tensor shapes that do not broadcast *)
| NonFinite           (* tensor division by zero: inf or nan *)
| RecursionError.     (* recursion deeper than the available fuel *)

Inductive result (A : Type) : Type :=
| Ok (a : A)
| Err (e : error).
Arguments Ok {A} a.
Arguments Err {A} e.

Definition rbind {A B} (r : result A) (k : A -> result B) : result B :=
  match r with
  | Ok a => k a
  | Err e => Err e
  end.

Notation "'let*' x ':=' r 'in' k" := (rbind r (fun x => k))
  (at level 10, x pattern, r at level 100, k at level 200).

(** ** Python sequence indexing

    [l[i]] and [l[i] = x] accept [-len <= i < len]; negative indices count
    from the end; anything else raises. *)

Definition py_pos {A} (l : list A) (i : Z) : option nat :=
  let n := Z.of_nat (length l) in
  if (0 <=? i) && (i <? n) then Some (Z.to_nat i)
  else if (- n <=? i) && (i <? 0) then Some (Z.to_nat (n + i))
  else None.

Definition py_index {A} (l : list A) (i : Z) : result A :=
  match py_pos l i with
  | Some k => match l !! k with Some x => Ok x | None => Err IndexError end
  | None => Err IndexError
  end.

Definition py_setitem {A} (l : list A) (i : Z) (x : A) : result (list A) :=
  match py_pos l i with
  | Some k => Ok (<[k := x]> l)
  | None => Err IndexError
  end.

(** ** Payoff values

    What a payoff expression can evaluate to: [None], a number (a Python
    float or a rank-0 tensor) or a rank-1 tensor. *)

Inductive val : Type :=
| VNone
| VNum (q : Qc)
| VVec (v : list Qc).

Definition is_none (v : val) : bool :=
  match v with VNone => true | _ => false end.

(** Element-wise binary operation with NumPy/TensorFlow broadcasting of
    rank-0 and rank-1 operands. *)
Definition vbin (f : Qc -> Qc -> Qc) (a b : val) : result val :=
  match a, b with
  | VNone, _ | _, VNone => Err TypeError
  | VNum x, VNum y => Ok (VNum (f x y))
  | VNum x, VVec v => Ok (VVec (fmap (f x) v))
  | VVec u, VNum y => Ok (VVec (fmap (fun x => f x y) u))
  | VVec u, VVec v =>
      if Nat.eqb (length u) (length v) then Ok (VVec (zip_with f u v))
      else match u, v with
           | [x], _ => Ok (VVec (fmap (f x) v))
           | _, [y] => Ok (VVec (fmap (fun x => f x y) u))
           | _, _ => Err ShapeError
           end
  end.

Definition vadd : val -> val -> result val := vbin Qcplus.
Definition vmul : val -> val -> result val := vbin Qcmult.
Definition vsub : val -> val -> result val := vbin Qcminus.

Arguments vadd : simpl never.
Arguments vmul : simpl never.
Arguments vsub : simpl never.

Definition Qc_of_nat (n : nat) : Qc := Qc_of_Z (Z.of_nat n).

(** [value / sum_visits] with an [int] divisor. *)
Definition vdiv_int (a : val) (n : nat) : result val :=
  match n with
  | O => Err ZeroDivisionError
  | _ => match a with
         | VNone => Err TypeError
         | VNum x => Ok (VNum (x / Qc_of_nat n)%Qc)
         | VVec v => Ok (VVec (fmap (fun x => (x / Qc_of_nat n)%Qc) v))
         end
  end.

(** [a / b] for the probabilities of [sample]: both operands are entries of
    a probability tensor. *)
Definition vdiv (a b : val) : result val :=
  match a, b with
  | VNone, _ | _, VNone => Err TypeError
  | VNum x, VNum y =>
      if decide (y = 0%Qc) then Err NonFinite else Ok (VNum (x / y)%Qc)
  | _, _ => Err ShapeError
  end.

(** [v[i]]. *)
Definition vindex (v : val) (i : Z) : result Qc :=
  match v with
  | VNone => Err TypeError
  | VNum _ => Err NotSubscriptable
  | VVec l => py_index l i
  end.

Example vadd_broadcast :
  vadd (VVec [Q2Qc 1; Q2Qc 2]) (VNum (Q2Qc 3)) = Ok (VVec [Q2Qc 4; Q2Qc 5]).
Proof. vm_compute. reflexivity. Qed.

(** ** Distributions *)

Definition Qc_max (a b : Qc) : Qc := if Qclt_le_dec a b then b else a.
Definition Qc_min (a b : Qc) : Qc := if Qclt_le_dec a b then a else b.

(** [tf.reduce_sum] of a rank-1 tensor. *)
Definition reduce_sum (l : list Qc) : Qc := foldr Qcplus 0%Qc l.

Module DiscreteDistribution.

(** [self.probs] is a rank-1 tensor. *)
Record t : Type := { probs : list Qc }.

(** [tf.constant(1 / size, shape=(size,))]: [1 / 0] raises in Python, a
    negative dimension is refused by TensorFlow. *)
Definition __init__ (size : Z) : result t :=
  if size =? 0 then Err ZeroDivisionError
  else if size <? 0 then Err ValueError
  else Ok {| probs := replicate (Z.to_nat size) (1 / Qc_of_Z size)%Qc |}.

Definition assign (self : t) (probs : list Qc) : t := {| probs := probs |}.

(** [sample_id] is the index returned by [tf.random.categorical]. *)
Definition sample (self : t) (sample_id : Z) : result (val * Z) :=
  let* probability := py_index (probs self) sample_id in
  Ok (VNum probability, sample_id).

Definition get_probability (self : t) (value : Z) : result val :=
  let* p := py_index (probs self) value in
  Ok (VNum p).

Definition get_parameters (self : t) : list Qc := probs self.

Definition set_parameters (self : t) (paramters : list Qc) : t :=
  assign self paramters.

(** [for v, p in zip(values, probabilities): probs[v] = p] *)
Fixpoint optimize_loop (probs : list Qc) (vps : list (Z * Qc))
  : result (list Qc) :=
  match vps with
  | [] => Ok probs
  | (v, p) :: rest =>
      let* probs' := py_setitem probs v p in
      optimize_loop probs' rest
  end.

Definition optimize (self : t) (values : list Z) (probabilities : list Qc)
  : result t :=
  let probs0 := replicate (length (probs self)) 0%Qc in
  let* probs1 := optimize_loop probs0 (zip values probabilities) in
  Ok (assign self probs1).

End DiscreteDistribution.

Module ContinuesDistribution.

Record t : Type := { min : Qc; max : Qc; loc : Qc; scale : Qc }.

Definition __init__ (min max : Qc) : t :=
  {| min := min; max := max;
     loc := ((max - min) / Q2Qc 2)%Qc; scale := Q2Qc 1 |}.

Definition assign (self : t) (loc scale : Qc) : t :=
  {| min := min self; max := max self; loc := loc; scale := scale |}.

(** [tf.clip_by_value(t, lo, hi)] is [maximum(minimum(t, hi), lo)]. *)
Definition clip_by_value (x lo hi : Qc) : Qc := Qc_max (Qc_min x hi) lo.

(** [normal_draw] is the number returned by [tf.random.normal]. *)
Definition sample (self : t) (normal_draw : Qc) : val * Qc :=
  let sample_value := clip_by_value normal_draw (min self) (max self) in
  (VNum 0%Qc, sample_value).

End ContinuesDistribution.

(** ** Nodes and the object store *)

Definition ref : Type := nat.

(** One entry of [ChanceNode.children]:
    [[probability, importance, visits, direkt_reward, node]]. *)
Record ChildEntry : Type := {
  probability : val;
  importance : val;
  visits : nat;
  direkt_reward : val;
  node : ref
}.

(** The items of the entry's Python list, for sequence unpacking. *)
Inductive item : Type :=
| IVal (v : val)
| IInt (n : nat)
| INode (r : ref).

Definition entry_items (e : ChildEntry) : list item :=
  [IVal (probability e); IVal (importance e); IInt (visits e);
   IVal (direkt_reward e); INode (node e)].

(** [a, b, c = items] *)
Definition unpack3 (items : list item) : result (item * item * item) :=
  match items with
  | [a; b; c] => Ok (a, b, c)
  | _ => Err ValueError
  end.

(** [a, b, c, d, e = items] *)
Definition unpack5 (items : list item)
  : result (item * item * item * item * item) :=
  match items with
  | [a; b; c; d; e] => Ok (a, b, c, d, e)
  | _ => Err ValueError
  end.

(** A ChanceNode whose distributions are [DiscreteDistribution]s, the only
    class of [Game.py] that implements [get_probability] and [optimize].
    [children] is a Python [dict]: keys are unique and kept in insertion
    order. *)
Record ChanceNode : Type := {
  on_policy_distribution : DiscreteDistribution.t;
  off_policy_distribution : option DiscreteDistribution.t;
  children : list (Z * ChildEntry);
  payoff_estimate : val;
  computed_payoff_estimate : val;
  intermediate_action_schema_node : bool
}.

Record ActionSchema : Type := {
  root_node_index : Z;
  chance_nodes : list ref;
  leafs : list ref
}.

(** Of a StateNode only [action_schema] is read by [Game.py]; the state and
    the info set belong to the game. *)
Record StateNode : Type := {
  action_schema : option ref
}.

Inductive obj : Type :=
| LeafObj
| ChanceNodeObj (c : ChanceNode)
| ActionSchemaObj (a : ActionSchema)
| StateNodeObj (s : StateNode).

Abbreviation heap := (gmap ref obj).

(** *** Field assignment *)

Definition set_computed_payoff_estimate (v : val) (c : ChanceNode) : ChanceNode :=
  {| on_policy_distribution := on_policy_distribution c;
     off_policy_distribution := off_policy_distribution c;
     children := children c;
     payoff_estimate := payoff_estimate c;
     computed_payoff_estimate := v;
     intermediate_action_schema_node := intermediate_action_schema_node c |}.

Definition set_children (d : list (Z * ChildEntry)) (c : ChanceNode) : ChanceNode :=
  {| on_policy_distribution := on_policy_distribution c;
     off_policy_distribution := off_policy_distribution c;
     children := d;
     payoff_estimate := payoff_estimate c;
     computed_payoff_estimate := computed_payoff_estimate c;
     intermediate_action_schema_node := intermediate_action_schema_node c |}.

Definition set_on_policy_distribution (d : DiscreteDistribution.t) (c : ChanceNode)
  : ChanceNode :=
  {| on_policy_distribution := d;
     off_policy_distribution := off_policy_distribution c;
     children := children c;
     payoff_estimate := payoff_estimate c;
     computed_payoff_estimate := computed_payoff_estimate c;
     intermediate_action_schema_node := intermediate_action_schema_node c |}.

Definition set_intermediate_action_schema_node (b : bool) (c : ChanceNode)
  : ChanceNode :=
  {| on_policy_distribution := on_policy_distribution c;
     off_policy_distribution := off_policy_distribution c;
     children := children c;
     payoff_estimate := payoff_estimate c;
     computed_payoff_estimate := computed_payoff_estimate c;
     intermediate_action_schema_node := b |}.

Definition set_visits (n : nat) (e : ChildEntry) : ChildEntry :=
  {| probability := probability e; importance := importance e; visits := n;
     direkt_reward := direkt_reward e; node := node e |}.

(** Reading a ChanceNode through a reference; any other object has none of
    its attributes. *)
Definition get_chance_node (h : heap) (r : ref) : result ChanceNode :=
  match h !! r with
  | Some (ChanceNodeObj c) => Ok c
  | _ => Err AttributeError
  end.

(** Assigning to an attribute of the ChanceNode at [r]. *)
Definition update_chance_node (f : ChanceNode -> ChanceNode) (r : ref) (h : heap)
  : result heap :=
  let* c := get_chance_node h r in
  Ok (<[r := ChanceNodeObj (f c)]> h).

(** *** Python dict on insertion-ordered association lists *)

Fixpoint dict_get {V} (k : Z) (d : list (Z * V)) : option V :=
  match d with
  | [] => None
  | (k', v) :: rest => if k =? k' then Some v else dict_get k rest
  end.

(** [d[k] = v]: an existing key keeps its position. *)
Fixpoint dict_set {V} (k : Z) (v : V) (d : list (Z * V)) : list (Z * V) :=
  match d with
  | [] => [(k, v)]
  | (k', v') :: rest =>
      if k =? k' then (k, v) :: rest else (k', v') :: dict_set k v rest
  end.

Definition dict_keys {V} (d : list (Z * V)) : list Z := fmap fst d.
Definition dict_values {V} (d : list (Z * V)) : list V := fmap snd d.

(** ** Leaf *)

Definition Leaf_compute_payoff (discount : Qc) (h : heap) : result (val * heap) :=
  Ok (VNum 0%Qc, h).

(** ** ChanceNode *)

(** The random draw [sample_id] is what the sampled distribution's
    [tf.random.categorical] returned. *)
Definition ChanceNode_sample (self : ref) (sample_id : Z) (h : heap)
  : result (val * val * Z * option ref * heap) :=
  let* h := update_chance_node (set_computed_payoff_estimate VNone) self h in
  let* c := get_chance_node h self in
  let* (probability, importance, value) :=
    match off_policy_distribution c with
    | Some off =>
        let* (probability, value) := DiscreteDistribution.sample off sample_id in
        let* on_policy_probability :=
          DiscreteDistribution.get_probability (on_policy_distribution c) value in
        let* importance := vdiv on_policy_probability probability in
        Ok (probability, importance, value)
    | None =>
        let* (probability, value) :=
          DiscreteDistribution.sample (on_policy_distribution c) sample_id in
        Ok (probability, VNum 1%Qc, value)
    end in
  match dict_get value (children c) with
  | Some e =>
      let* h :=
        update_chance_node
          (set_children (dict_set value (set_visits (visits e + 1) e) (children c)))
          self h in
      Ok (probability, importance, value, Some (node e), h)
  | None => Ok (probability, importance, value, None, h)
  end.

Definition ChanceNode_add (self : ref) (probability importance : val) (value : Z)
  (direkt_reward : val) (node : ref) (h : heap) : result heap :=
  let* c := get_chance_node h self in
  let e := {| probability := probability; importance := importance; visits := 1;
              direkt_reward := direkt_reward; node := node |} in
  update_chance_node (set_children (dict_set value e (children c))) self h.

Section Dispatch.

(** [node.compute_payoff(discount)] on whatever object [node] names. *)
Variable compute_payoff : ref -> Qc -> heap -> result (val * heap).

(** The loop of [ChanceNode.compute_payoff] over [children.values()],
    carrying [value] and [sum_visits]. *)
Fixpoint ChanceNode_compute_payoff_loop (discount : Qc)
  (entries : list ChildEntry) (value : val) (sum_visits : nat) (h : heap)
  : result (val * nat * heap) :=
  match entries with
  | [] => Ok (value, sum_visits, h)
  | e :: rest =>
      let* (upstream_payoff, h) := compute_payoff (node e) discount h in
      let* discounted := vmul (VNum discount) upstream_payoff in
      let* action_value := vadd (direkt_reward e) discounted in
      let* weight := vmul (VNum (Qc_of_nat (visits e))) (importance e) in
      let* weighted := vmul weight action_value in
      let* value := vadd value weighted in
      ChanceNode_compute_payoff_loop discount rest value
        (sum_visits + visits e)%nat h
  end.

Definition ChanceNode_compute_payoff (self : ref) (discount : Qc) (h : heap)
  : result (val * heap) :=
  let* c := get_chance_node h self in
  if negb (is_none (computed_payoff_estimate c)) then
    Ok (computed_payoff_estimate c, h)
  else if Nat.eqb (length (children c)) 0 then
    let* h := update_chance_node
                (set_computed_payoff_estimate (payoff_estimate c)) self h in
    Ok (payoff_estimate c, h)
  else
    let discount :=
      if intermediate_action_schema_node c then 1%Qc else discount in
    let* (value, sum_visits, h) :=
      ChanceNode_compute_payoff_loop discount (dict_values (children c))
        (VNum 0%Qc) 0%nat h in
    let* payoff :=
      if Nat.eqb sum_visits 0 then Ok (VVec [0%Qc])
      else vdiv_int value sum_visits in
    let* h := update_chance_node (set_computed_payoff_estimate payoff) self h in
    Ok (payoff, h).

(** The loop of [ChanceNode.optimize] filling [advantages]; the entries
    are visited in key order, [index] running along. *)
Fixpoint ChanceNode_optimize_loop (current_player : Z) (discount : Qc)
  (current_player_node_value : Qc) (entries : list ChildEntry) (h : heap)
  : result (list Qc * heap) :=
  match entries with
  | [] => Ok ([], h)
  | e :: rest =>
      let dr := direkt_reward e in
      let nn := node e in
      if negb (bool_decide (is_Some (h !! nn))) then Err AssertionError else
      let* (upstream_payoff, h) := compute_payoff nn discount h in
      let* discounted := vmul (VNum discount) upstream_payoff in
      let* action_value := vadd dr discounted in
      let* current_player_action_value := vindex action_value current_player in
      let advantage :=
        (current_player_action_value - current_player_node_value)%Qc in
      let* (advantages, h) :=
        ChanceNode_optimize_loop current_player discount
          current_player_node_value rest h in
      Ok (advantage :: advantages, h)
  end.

(** [tf.maximum(advantages, 0.0)] and the normalisation that follows. *)
Definition target_policy (advantages : list Qc) : list Qc :=
  let positive_advantages := fmap (fun a => Qc_max a 0%Qc) advantages in
  let positive_advantages_sum := reduce_sum positive_advantages in
  if decide (positive_advantages_sum = 0%Qc) then
    replicate (length positive_advantages)
              (1 / Qc_of_nat (length positive_advantages))%Qc
  else fmap (fun a => (a / positive_advantages_sum)%Qc) positive_advantages.

Definition ChanceNode_optimize (self : ref) (current_player : Z)
  (discount : Qc) (h : heap) : result heap :=
  let* c := get_chance_node h self in
  if is_none (computed_payoff_estimate c) then Err AssertionError else
  let discount :=
    if intermediate_action_schema_node c then 1%Qc else discount in
  let node_value := payoff_estimate c in
  let* current_player_node_value := vindex node_value current_player in
  let* (advantages, h) :=
    ChanceNode_optimize_loop current_player discount
      current_player_node_value (dict_values (children c)) h in
  if (0 <? length advantages)%nat then
    let* c := get_chance_node h self in
    let* d := DiscreteDistribution.optimize (on_policy_distribution c)
                (dict_keys (children c)) (target_policy advantages) in
    update_chance_node (set_on_policy_distribution d) self h
  else Ok h.

End Dispatch.

(** ** ActionSchema *)

Definition get_action_schema (h : heap) (r : ref) : result ActionSchema :=
  match h !! r with
  | Some (ActionSchemaObj a) => Ok a
  | _ => Err AttributeError
  end.

(** [nn in self.chance_nodes]: only a node can be found in a list of nodes. *)
Definition item_in_nodes (nn : item) (nodes : list ref) : bool :=
  match nn with
  | INode r => bool_decide (r ∈ nodes)
  | _ => false
  end.

(** The inner loop of [find_leaf_nodes]: [for _, _, nn in cn.children.values()]
    unpacks every entry into three names; the result is [is_leaf]. *)
Fixpoint find_leaf_nodes_inner (chance_nodes : list ref)
  (entries : list ChildEntry) : result bool :=
  match entries with
  | [] => Ok true
  | e :: rest =>
      let* (_, _, nn) := unpack3 (entry_items e) in
      if item_in_nodes nn chance_nodes then Ok false
      else find_leaf_nodes_inner chance_nodes rest
  end.

(** [self.leafs.append(cn)] *)
Definition leafs_append (self cn : ref) (h : heap) : result heap :=
  let* a := get_action_schema h self in
  Ok (<[self := ActionSchemaObj
                  {| root_node_index := root_node_index a;
                     chance_nodes := chance_nodes a;
                     leafs := leafs a ++ [cn] |}]> h).

Fixpoint find_leaf_nodes_loop (self : ref) (chance_nodes todo : list ref)
  (h : heap) : result heap :=
  match todo with
  | [] => Ok h
  | cn :: rest =>
      let* c := get_chance_node h cn in
      let* is_leaf := find_leaf_nodes_inner chance_nodes (dict_values (children c)) in
      let* h :=
        if is_leaf then leafs_append self cn h
        else update_chance_node (set_intermediate_action_schema_node true) cn h in
      find_leaf_nodes_loop self chance_nodes rest h
  end.

Definition ActionSchema_find_leaf_nodes (self : ref) (h : heap) : result heap :=
  let* a := get_action_schema h self in
  find_leaf_nodes_loop self (chance_nodes a) (chance_nodes a) h.

(** [ActionSchema(chance_nodes, root_node_index)]; [self] is the reference
    of the object being constructed. *)
Definition ActionSchema__init__ (self : ref) (chance_nodes : list ref)
  (root_node_index : Z) (h : heap) : result heap :=
  let h := <[self := ActionSchemaObj
                       {| root_node_index := root_node_index;
                          chance_nodes := chance_nodes;
                          leafs := [] |}]> h in
  ActionSchema_find_leaf_nodes self h.

Definition ActionSchema_root_node (a : ActionSchema) : result ref :=
  py_index (chance_nodes a) (root_node_index a).

Fixpoint clear_computed_payoff_estimates (cns : list ref) (h : heap)
  : result heap :=
  match cns with
  | [] => Ok h
  | cn :: rest =>
      let* h := update_chance_node (set_computed_payoff_estimate VNone) cn h in
      clear_computed_payoff_estimates rest h
  end.

(** [sample_internal] is left to the game; in [Game.py] its body is [pass]. *)
Definition ActionSchema_sample (self : ref) (h : heap) : result heap :=
  let* a := get_action_schema h self in
  clear_computed_payoff_estimates (chance_nodes a) h.

Section SchemaDispatch.

Variable compute_payoff : ref -> Qc -> heap -> result (val * heap).

(** [for cn in nodes: cn.compute_payoff(discount)] *)
Fixpoint compute_payoff_each (nodes : list ref) (discount : Qc) (h : heap)
  : result heap :=
  match nodes with
  | [] => Ok h
  | cn :: rest =>
      let* (_, h) := compute_payoff cn discount h in
      compute_payoff_each rest discount h
  end.

Definition ActionSchema_compute_payoff (self : ref) (discount : Qc) (h : heap)
  : result (val * heap) :=
  let* a := get_action_schema h self in
  let* h := compute_payoff_each (leafs a) discount h in
  let* h := compute_payoff_each (chance_nodes a) 1%Qc h in
  let* root := ActionSchema_root_node a in
  compute_payoff root 1%Qc h.

(** ** StateNode *)

Definition StateNode_compute_payoff (self : ref) (discount : Qc) (h : heap)
  : result (val * heap) :=
  match h !! self with
  | Some (StateNodeObj s) =>
      match action_schema s with
      | Some a => compute_payoff a discount h
      | None => Err AttributeError
      end
  | _ => Err AttributeError
  end.

End SchemaDispatch.

(** ** Dynamic dispatch of [compute_payoff]

    [fuel] bounds the depth of the Python call stack. *)
Fixpoint compute_payoff (fuel : nat) (self : ref) (discount : Qc) (h : heap)
  {struct fuel} : result (val * heap) :=
  match fuel with
  | O => Err RecursionError
  | S fuel =>
      match h !! self with
      | None => Err AttributeError
      | Some LeafObj => Leaf_compute_payoff discount h
      | Some (ChanceNodeObj _) =>
          ChanceNode_compute_payoff (compute_payoff fuel) self discount h
      | Some (ActionSchemaObj _) =>
          ActionSchema_compute_payoff (compute_payoff fuel) self discount h
      | Some (StateNodeObj _) =>
          StateNode_compute_payoff (compute_payoff fuel) self discount h
      end
  end.

Fixpoint optimize_each (fuel : nat) (nodes : list ref) (current_player : Z)
  (discount : Qc) (h : heap) : result heap :=
  match nodes with
  | [] => Ok h
  | cn :: rest =>
      let* h := ChanceNode_optimize (compute_payoff fuel) cn current_player
                  discount h in
      optimize_each fuel rest current_player discount h
  end.

Definition ActionSchema_optimize (fuel : nat) (self : ref) (current_player : Z)
  (discount : Qc) (h : heap) : result heap :=
  let* (_, h) := compute_payoff fuel self discount h in
  let* a := get_action_schema h self in
  optimize_each fuel (chance_nodes a) current_player discount h.

(** ** Concrete stores used as witnesses *)

Definition q (n : Z) : Qc := Q2Qc (inject_Z n).
Definition half : Qc := Q2Qc (1 # 2).

Definition mk_entry (imp : Qc) (n : nat) (r : list Qc) (child : ref) : ChildEntry :=
  {| probability := VNum 1%Qc; importance := VNum imp; visits := n;
     direkt_reward := VVec r; node := child |}.

Definition mk_chance (cs : list (Z * ChildEntry)) (est : val) (flag : bool)
  : ChanceNode :=
  {| on_policy_distribution := {| DiscreteDistribution.probs := [half; half] |};
     off_policy_distribution := None;
     children := cs; payoff_estimate := est;
     computed_payoff_estimate := VNone;
     intermediate_action_schema_node := flag |}.

(** A schema (object 0) whose intermediate root (1) feeds its leaf (2); the
    leaf's child (3) lies outside the schema and carries the estimate [8]. *)
Definition chain_heap : heap :=
  <[0%nat := ActionSchemaObj {| root_node_index := 0; chance_nodes := [1%nat; 2%nat];
                             leafs := [2%nat] |}]>
  (<[1%nat := ChanceNodeObj (mk_chance [(0, mk_entry 1%Qc 1 [q 1] 2%nat)] VNone true)]>
  (<[2%nat := ChanceNodeObj (mk_chance [(0, mk_entry 1%Qc 1 [q 2] 3%nat)] VNone false)]>
  (<[3%nat := ChanceNodeObj (mk_chance [] (VVec [q 8]) false)]> ∅))).

(** ** The payoff loop, taken apart

    The loop of [ChanceNode.compute_payoff] interleaves the recursive calls
    with the arithmetic; the two are separated here to state what it
    computes. *)

Section ChildPayoffs.

Variable compute_payoff : ref -> Qc -> heap -> result (val * heap).

(** The payoffs of the children, obtained in order. *)
Fixpoint child_payoffs (discount : Qc) (entries : list ChildEntry) (h : heap)
  : result (list val * heap) :=
  match entries with
  | [] => Ok ([], h)
  | e :: rest =>
      let* (upstream_payoff, h) := compute_payoff (node e) discount h in
      let* (payoffs, h) := child_payoffs discount rest h in
      Ok (upstream_payoff :: payoffs, h)
  end.

End ChildPayoffs.

(** [visits * importance * (direkt_reward + discount * upstream_payoff)] *)
Definition weighted_action_value (discount : Qc) (e : ChildEntry)
  (upstream_payoff : val) : result val :=
  let* discounted := vmul (VNum discount) upstream_payoff in
  let* action_value := vadd (direkt_reward e) discounted in
  let* weight := vmul (VNum (Qc_of_nat (visits e))) (importance e) in
  vmul weight action_value.

(** [value += ...] over the entries and their children's payoffs. *)
Fixpoint accumulate (discount : Qc) (entries : list ChildEntry)
  (payoffs : list val) (value : val) : result val :=
  match entries, payoffs with
  | e :: entries, p :: payoffs =>
      let* weighted := weighted_action_value discount e p in
      let* value := vadd value weighted in
      accumulate discount entries payoffs value
  | _, _ => Ok value
  end.

Definition total_visits (entries : list ChildEntry) : nat :=
  sum_list (fmap visits entries).

(** The discount a ChanceNode works with. *)
Definition effective_discount (c : ChanceNode) (discount : Qc) : Qc :=
  if intermediate_action_schema_node c then 1%Qc else discount.

(** A node (1) whose only entry has visit count 0 and leads to a node (2)
    without children and without a prior estimate. *)
Definition unexplored_heap : heap :=
  <[1%nat := ChanceNodeObj (mk_chance [(0, mk_entry 1%Qc 0 [q 1] 2%nat)] VNone false)]>
  (<[2%nat := ChanceNodeObj (mk_chance [] VNone false)]> ∅).

(** A node (1) whose only entry has visit count 0 and leads to a Leaf (2). *)
Definition zero_visit_heap : heap :=
  <[1%nat := ChanceNodeObj (mk_chance [(0, mk_entry 1%Qc 0 [q 1; q 0] 2%nat)] VNone false)]>
  (<[2%nat := LeafObj]> ∅).

(** ** The weighted average, per player

    The formula of the payoff in terms of plain vectors of width [k]: what
    a payoff value stands for once broadcast to that width. *)

Definition broadcast_to (k : nat) (v : val) : option (list Qc) :=
  match v with
  | VNone => None
  | VNum x => Some (replicate k x)
  | VVec l =>
      if Nat.eqb (length l) k then Some l
      else match l with
           | [x] => Some (replicate k x)
           | _ => None
           end
  end.

(** One visited value: visit count, importance, immediate reward and the
    child's payoff. *)
Record row : Type := {
  row_visits : nat;
  row_importance : Qc;
  row_reward : list Qc;
  row_payoff : list Qc
}.

Definition row_of (k : nat) (e : ChildEntry) (p : val) : option row :=
  match importance e with
  | VNum imp =>
      r ← broadcast_to k (direkt_reward e);
      pv ← broadcast_to k p;
      Some {| row_visits := visits e; row_importance := imp;
              row_reward := r; row_payoff := pv |}
  | _ => None
  end.

Fixpoint rows_of (k : nat) (entries : list ChildEntry) (payoffs : list val)
  : option (list row) :=
  match entries, payoffs with
  | [], [] => Some []
  | e :: entries, p :: payoffs =>
      r ← row_of k e p;
      rs ← rows_of k entries payoffs;
      Some (r :: rs)
  | _, _ => None
  end.

(** [immediate_reward + discount * child_payoff] *)
Definition row_action_value (discount : Qc) (r : row) : list Qc :=
  zip_with Qcplus (row_reward r) (fmap (Qcmult discount) (row_payoff r)).

(** [visits * importance * action_value] *)
Definition row_term (discount : Qc) (r : row) : list Qc :=
  fmap (Qcmult (Qc_of_nat (row_visits r) * row_importance r)%Qc)
       (row_action_value discount r).

(** The sum over the visited values. *)
Fixpoint weighted_sum (k : nat) (discount : Qc) (rows : list row) : list Qc :=
  match rows with
  | [] => replicate k 0%Qc
  | r :: rows => zip_with Qcplus (row_term discount r) (weighted_sum k discount rows)
  end.

(** The sum divided by the total visits; the zero vector without visits. *)
Definition weighted_average (k : nat) (discount : Qc) (rows : list row) : list Qc :=
  let total := sum_list (fmap row_visits rows) in
  if Nat.eqb total 0 then replicate k 0%Qc
  else fmap (fun x => (x / Qc_of_nat total)%Qc) (weighted_sum k discount rows).

(** A two-player node (1) with two visited values, the second visited three
    times; both lead to the Leaf (2). *)
Definition two_value_node : ChanceNode :=
  mk_chance [(0, mk_entry 1%Qc 1 [q 1; q 0] 2%nat);
             (1, mk_entry 1%Qc 3 [q 0; q 1] 2%nat)] VNone false.

Definition two_value_heap : heap :=
  <[1%nat := ChanceNodeObj two_value_node]> (<[2%nat := LeafObj]> ∅).

Definition two_value_rows : list row :=
  [ {| row_visits := 1; row_importance := 1%Qc;
       row_reward := [q 1; q 0]; row_payoff := [0%Qc; 0%Qc] |};
    {| row_visits := 3; row_importance := 1%Qc;
       row_reward := [q 0; q 1]; row_payoff := [0%Qc; 0%Qc] |} ].

(** ** The advantages, taken apart *)

Section ActionValues.

Variable compute_payoff : ref -> Qc -> heap -> result (val * heap).

(** The current player's action value of every visited value, in key
    order: [(dr + discount * nn.compute_payoff(discount))[current_player]]. *)
Fixpoint action_values (current_player : Z) (discount : Qc)
  (entries : list ChildEntry) (h : heap) : result (list Qc * heap) :=
  match entries with
  | [] => Ok ([], h)
  | e :: rest =>
      if negb (bool_decide (is_Some (h !! node e))) then Err AssertionError else
      let* (upstream_payoff, h) := compute_payoff (node e) discount h in
      let* discounted := vmul (VNum discount) upstream_payoff in
      let* action_value := vadd (direkt_reward e) discounted in
      let* current_player_action_value := vindex action_value current_player in
      let* (values, h) := action_values current_player discount rest h in
      Ok (current_player_action_value :: values, h)
  end.

End ActionValues.

(** Advantages clipped at zero. *)
Definition clipped_advantages (action_values : list Qc) (baseline : Qc) : list Qc :=
  (fun a => Qc_max (a - baseline)%Qc 0%Qc) <$> action_values.

(** The target policy in the words of the specification: uniform when every
    clipped advantage is zero, otherwise each clipped advantage divided by
    their sum. *)
Definition normalized_advantages (action_values : list Qc) (baseline : Qc)
  : list Qc :=
  let clipped := clipped_advantages action_values baseline in
  if bool_decide (Forall (fun a => a = 0%Qc) clipped) then
    replicate (length clipped) (1 / Qc_of_nat (length clipped))%Qc
  else (fun a => (a / reduce_sum clipped)%Qc) <$> clipped.

(** A node (1) with three visited values whose rewards for player 0 are 2,
    5 and 3, all leading to the Leaf (2); its payoff has been computed (memo
    and stored baseline [3]) and its distribution has three values. *)
Definition advantage_node : ChanceNode :=
  {| on_policy_distribution :=
       {| DiscreteDistribution.probs := [0%Qc; 0%Qc; 1%Qc] |};
     off_policy_distribution := None;
     children := [(0, mk_entry 1%Qc 1 [q 2] 2%nat);
                  (1, mk_entry 1%Qc 1 [q 5] 2%nat);
                  (2, mk_entry 1%Qc 1 [q 3] 2%nat)];
     payoff_estimate := VVec [q 3];
     computed_payoff_estimate := VVec [q 3];
     intermediate_action_schema_node := false |}.

Definition advantage_heap : heap :=
  <[1%nat := ChanceNodeObj advantage_node]> (<[2%nat := LeafObj]> ∅).

(** Every entry of [children] has been visited at least once. *)
Definition visits_positive (c : ChanceNode) : Prop :=
  Forall (fun e => (1 <= visits e)%nat) (dict_values (children c)).

(** A node (1) whose only child is itself. *)
Definition self_loop_heap : heap :=
  <[1%nat := ChanceNodeObj (mk_chance [(0, mk_entry 1%Qc 1 [q 1] 1%nat)] VNone false)]> ∅.

(** A StateNode (5) bound to the schema (0) of [chain_heap], and one (6)
    without a schema. *)
Definition state_heap : heap :=
  <[5%nat := StateNodeObj {| action_schema := Some 0%nat |}]>
  (<[6%nat := StateNodeObj {| action_schema := None |}]> chain_heap).

(** The schema of [chain_heap] with every number left open: the
    intermediate root (1) reaches the leaf node (2) with reward [r1],
    importance [i1] and [n1] visits; the leaf reaches a node outside the
    schema (3), whose payoff is [x], with reward [r2], importance [i2] and
    [n2] visits. *)
Definition chain_entry (imp : Qc) (n : nat) (r : Qc) (child : ref) : ChildEntry :=
  {| probability := VNum 1%Qc; importance := VNum imp; visits := n;
     direkt_reward := VVec [r]; node := child |}.

Definition chain_heap_of (r1 r2 x i1 i2 : Qc) (n1 n2 : nat) : heap :=
  <[0%nat := ActionSchemaObj {| root_node_index := 0; chance_nodes := [1%nat; 2%nat];
                             leafs := [2%nat] |}]>
  (<[1%nat := ChanceNodeObj (mk_chance [(0, chain_entry i1 n1 r1 2%nat)] VNone true)]>
  (<[2%nat := ChanceNodeObj (mk_chance [(0, chain_entry i2 n2 r2 3%nat)] VNone false)]>
  (<[3%nat := ChanceNodeObj (mk_chance [] (VVec [x]) false)]> ∅))).

(** ** lbfgsOptimizer.py: the index bookkeeping of [function_factory]

    The loop that prepares the indices for [tf.dynamic_stitch] and the
    partitions for [tf.dynamic_partition].  A shape is the list of its
    dimensions; an entry of [idx] is kept flat, [tf.reshape] only arranges
    it. *)

Module lbfgsOptimizer.

(** [np.product(shape)] *)
Definition product (shape : list nat) : nat := foldr Nat.mul 1%nat shape.

(** [for i, shape in enumerate(shapes)]: [idx.append(range(count, count + n))],
    [part.extend([i] * n)], [count += n]. *)
Fixpoint index_loop (i : nat) (shapes : list (list nat)) (count : nat)
  (idx : list (list nat)) (part : list nat) : nat * list (list nat) * list nat :=
  match shapes with
  | [] => (count, idx, part)
  | shape :: rest =>
      let n := product shape in
      index_loop (S i) rest (count + n)%nat (idx ++ [seq count n])
        (part ++ replicate n i)
  end.

Definition function_factory_indices (shapes : list (list nat))
  : nat * list (list nat) * list nat :=
  index_loop 0 shapes 0 [] [].

End lbfgsOptimizer.

(** ** Stores, predicates and invariants used in the statements *)

(** A node (7) sampled off-policy: the behaviour policy draws the two
    values with probabilities 1/4 and 3/4, the on-policy distribution is
    uniform. *)
Definition off_policy_node : ChanceNode :=
  {| on_policy_distribution := {| DiscreteDistribution.probs := [half; half] |};
     off_policy_distribution :=
       Some {| DiscreteDistribution.probs := [Q2Qc (1 # 4); Q2Qc (3 # 4)] |};
     children := []; payoff_estimate := VNone;
     computed_payoff_estimate := VNone;
     intermediate_action_schema_node := false |}.

Definition off_policy_heap : heap := <[7%nat := ChanceNodeObj off_policy_node]> ∅.

(** The width of a payoff: only a rank-1 tensor has one. *)
Definition payoff_width (v : val) : option nat :=
  match v with
  | VVec l => Some (length l)
  | _ => None
  end.

(** A two-player node (1) above a Leaf (2). *)
Definition leaf_heap : heap :=
  <[1%nat := ChanceNodeObj (mk_chance [(0, mk_entry 1%Qc 1 [q 1; q 0] 2%nat)] VNone false)]>
  (<[2%nat := LeafObj]> ∅).

(** [ChanceNode(DiscreteDistribution(2))], as its constructor leaves it. *)
Definition fresh_chance_node : ChanceNode :=
  {| on_policy_distribution := {| DiscreteDistribution.probs := [half; half] |};
     off_policy_distribution := None;
     children := []; payoff_estimate := VNone;
     computed_payoff_estimate := VNone;
     intermediate_action_schema_node := false |}.

(** One freshly created ChanceNode (1) and a Leaf (2). *)
Definition fresh_heap : heap :=
  <[1%nat := ChanceNodeObj fresh_chance_node]> (<[2%nat := LeafObj]> ∅).

(** A sequence of [optimize(values, probabilities)] calls. *)
Fixpoint optimize_calls (d : DiscreteDistribution.t)
  (calls : list (list Z * list Qc)) : result DiscreteDistribution.t :=
  match calls with
  | [] => Ok d
  | (values, probabilities) :: rest =>
      let* d := DiscreteDistribution.optimize d values probabilities in
      optimize_calls d rest
  end.

(** Non-negative entries that sum to one. *)
Definition is_distribution (l : list Qc) : Prop :=
  Forall (fun x => (0 <= x)%Qc) l /\ reduce_sum l = 1%Qc.

(** A call whose values are distinct indices of the support and whose
    probabilities form a distribution. *)
Definition valid_call (n : nat) (call : list Z * list Qc) : Prop :=
  NoDup call.1
  /\ Forall (fun v => 0 <= v < Z.of_nat n) call.1
  /\ length call.1 = length call.2
  /\ is_distribution call.2.

(** [o'] is [o] up to the memoised payoff of a ChanceNode, and a memo
    that was set in [o] is still the same in [o']. *)
Definition obj_ext (o o' : obj) : Prop :=
  match o with
  | ChanceNodeObj c =>
      exists m, o' = ChanceNodeObj (set_computed_payoff_estimate m c)
                /\ (computed_payoff_estimate c <> VNone ->
                    m = computed_payoff_estimate c)
  | _ => o' = o
  end.

(** The same objects under the same references, each up to [obj_ext]. *)
Definition heap_ext (h h' : heap) : Prop :=
  forall r : ref,
    match h !! r with
    | Some o => exists o', h' !! r = Some o' /\ obj_ext o o'
    | None => h' !! r = None
    end.

(** [part] and [idx] describe the same split of [0 .. count - 1]. *)
Definition indices_consistent (count : nat) (idx : list (list nat))
  (part : list nat) : Prop :=
  length part = count
  /\ concat idx = seq 0 count
  /\ forall j m, part !! j = Some m <-> exists js, idx !! m = Some js /\ j ∈ js.

(** A ChanceNode that answers [compute_payoff] without computing: its memo
    is set, or it has neither children nor a prior estimate (and answers
    [None]). *)
Definition settled (c : ChanceNode) : Prop :=
  computed_payoff_estimate c <> VNone
  \/ (children c = [] /\ payoff_estimate c = VNone).

(** A ChanceNode whose answer does not depend on the discount it is
    called with. *)
Definition discount_free (c : ChanceNode) : Prop :=
  settled c \/ intermediate_action_schema_node c = true.

(** Some child of the node is a member of the schema. *)
Definition has_member_child (members : list ref) (c : ChanceNode) : bool :=
  existsb (fun e => bool_decide (node e ∈ members)) (dict_values (children c)).

(** The partition of the members the constructor is meant to produce: the
    leaves are the members without a child among the members, and exactly
    the other members are flagged intermediate. *)
Definition correctly_partitioned (h : heap) (a : ActionSchema) : Prop :=
  (forall l, l ∈ leafs a -> l ∈ chance_nodes a)
  /\ forall m, m ∈ chance_nodes a ->
       exists c,
         h !! m = Some (ChanceNodeObj c)
         /\ (m ∈ leafs a <-> has_member_child (chance_nodes a) c = false)
         /\ intermediate_action_schema_node c
            = has_member_child (chance_nodes a) c.

(** The schema of [chain_heap_of] whose intermediate root (1) has a second
    entry, with reward [r3], importance [i3] and [n3] visits, that leads
    straight to a node outside the schema (4) with payoff [y]. *)
Definition mixed_heap_of (r1 r2 r3 x y i1 i2 i3 : Qc) (n1 n2 n3 : nat) : heap :=
  <[0%nat := ActionSchemaObj {| root_node_index := 0; chance_nodes := [1%nat; 2%nat];
                             leafs := [2%nat] |}]>
  (<[1%nat := ChanceNodeObj (mk_chance [(0, chain_entry i1 n1 r1 2%nat);
                                       (1, chain_entry i3 n3 r3 4%nat)] VNone true)]>
  (<[2%nat := ChanceNodeObj (mk_chance [(0, chain_entry i2 n2 r2 3%nat)] VNone false)]>
  (<[3%nat := ChanceNodeObj (mk_chance [] (VVec [x]) false)]>
  (<[4%nat := ChanceNodeObj (mk_chance [] (VVec [y]) false)]> ∅)))).

Definition chain_schema : ActionSchema :=
  {| root_node_index := 0; chance_nodes := [1%nat; 2%nat]; leafs := [2%nat] |}.

(** All rewards zero, all importances and visit counts one, payoff [0]
    behind the leaf node and payoff [8] behind the root's own outside
    child. *)
Definition mixed_example_heap : heap :=
  mixed_heap_of 0%Qc 0%Qc 0%Qc 0%Qc (q 8) 1%Qc 1%Qc 1%Qc 1 1 1.

(** * Properties *)

(** ** Reasoning about results *)

Lemma rbind_Ok {A B} (r : result A) (k : A -> result B) (b : B) :
  rbind r k = Ok b <-> exists a, r = Ok a /\ k a = Ok b.
Proof.
  destruct r as [a|e]; simpl; split.
  - intros H. exists a. auto.
  - intros (a' & Ha & Hk). congruence.
  - discriminate.
  - intros (a' & Ha & _). discriminate.
Qed.

Tactic Notation "bind_inv" hyp(H) "as" simple_intropattern(a) ident(Ha) :=
  apply rbind_Ok in H; destruct H as (a & Ha & H).

Lemma get_chance_node_Ok h r c :
  get_chance_node h r = Ok c <-> h !! r = Some (ChanceNodeObj c).
Proof.
  unfold get_chance_node. destruct (h !! r) as [[| c' | |]|]; split; intros H;
    try discriminate; congruence.
Qed.

Lemma update_chance_node_Ok f r h h' :
  update_chance_node f r h = Ok h' <->
  exists c, h !! r = Some (ChanceNodeObj c) /\ h' = <[r := ChanceNodeObj (f c)]> h.
Proof.
  unfold update_chance_node. rewrite rbind_Ok. split.
  - intros (c & Hc & Hk). apply get_chance_node_Ok in Hc. exists c. split; congruence.
  - intros (c & Hc & ->). exists c. split; [by apply get_chance_node_Ok | done].
Qed.

Lemma set_computed_payoff_estimate_id c :
  set_computed_payoff_estimate (computed_payoff_estimate c) c = c.
Proof. by destruct c. Qed.

Lemma set_computed_payoff_estimate_twice v w c :
  set_computed_payoff_estimate v (set_computed_payoff_estimate w c)
  = set_computed_payoff_estimate v c.
Proof. by destruct c. Qed.

Lemma vdiv_int_not_none a n v : vdiv_int a n = Ok v -> v <> VNone.
Proof.
  unfold vdiv_int. destruct n; [discriminate|].
  destruct a; intros H; inversion H; discriminate.
Qed.

(** ** Memoisation *)

Lemma is_none_false v : is_none v = false <-> v <> VNone.
Proof. destruct v; simpl; split; intros H; try done. Qed.

Lemma is_none_true v : is_none v = true <-> v = VNone.
Proof. destruct v; simpl; split; intros H; try done. Qed.

(** A ChanceNode whose memo is set answers from it, whatever the discount,
    and leaves the store alone. *)
Lemma compute_payoff_memo_hit fuel self c d h :
  h !! self = Some (ChanceNodeObj c) ->
  computed_payoff_estimate c <> VNone ->
  compute_payoff (S fuel) self d h = Ok (computed_payoff_estimate c, h).
Proof.
  intros Hc Hm. simpl. rewrite Hc. unfold ChanceNode_compute_payoff.
  apply get_chance_node_Ok in Hc. rewrite Hc. simpl.
  apply is_none_false in Hm. by rewrite Hm.
Qed.

(** What a successful call on a ChanceNode leaves behind: the node's memo
    holds the returned payoff. *)
Lemma compute_payoff_sets_memo fuel self c d h v h1 :
  h !! self = Some (ChanceNodeObj c) ->
  compute_payoff fuel self d h = Ok (v, h1) ->
  exists c1, h1 !! self = Some (ChanceNodeObj c1)
             /\ computed_payoff_estimate c1 = v
             /\ (v = VNone -> children c1 = [] /\ payoff_estimate c1 = VNone).
Proof.
  intros Hc Hrun. destruct fuel as [|n]; [discriminate|].
  simpl in Hrun. rewrite Hc in Hrun. unfold ChanceNode_compute_payoff in Hrun.
  bind_inv Hrun as c' Hc'. apply get_chance_node_Ok in Hc'. rewrite Hc in Hc'.
  injection Hc' as <-.
  destruct (is_none (computed_payoff_estimate c)) eqn:Hm; simpl in Hrun.
  - destruct (Nat.eqb (length (children c)) 0) eqn:Hlen.
    + bind_inv Hrun as h2 Hupd. injection Hrun as <- <-.
      apply update_chance_node_Ok in Hupd as (c0 & Hc0 & ->).
      rewrite Hc in Hc0. injection Hc0 as <-.
      eexists. rewrite lookup_insert_eq. split; [done|]. split; [done|].
      simpl. intros Hv. split; [|done].
      apply Nat.eqb_eq in Hlen. by destruct (children c).
    + bind_inv Hrun as [[value sum_visits] h2] Hloop.
      bind_inv Hrun as payoff Hpay. bind_inv Hrun as h3 Hupd.
      injection Hrun as <- <-.
      apply update_chance_node_Ok in Hupd as (c2 & Hc2 & ->).
      eexists. rewrite lookup_insert_eq. split; [done|]. split; [done|].
      intros ->. exfalso.
      destruct (Nat.eqb sum_visits 0); [discriminate|].
      by apply vdiv_int_not_none in Hpay.
  - injection Hrun as <- <-. exists c. split; [done|]. split; [done|].
    intros Hv. apply is_none_false in Hm. done.
Qed.

(** ** C9 and C10 *)

(** C9: [ChanceNode.optimize] on a node whose memoised payoff is cleared
    stops at its first statement with an [AssertionError]; nothing is
    computed and nothing is written. *)
Theorem ChanceNode_optimize_requires_computed_payoff
  (fuel : nat) (h : heap) (self : ref) (c : ChanceNode)
  (current_player : Z) (discount : Qc) :
  h !! self = Some (ChanceNodeObj c) ->
  computed_payoff_estimate c = VNone ->
  ChanceNode_optimize (compute_payoff fuel) self current_player discount h
  = Err AssertionError.
Proof.
  intros Hc Hm. unfold ChanceNode_optimize.
  apply get_chance_node_Ok in Hc. rewrite Hc. simpl. by rewrite Hm.
Qed.

Lemma ChanceNode_optimize_requires_computed_payoff_witness :
  chain_heap !! 2%nat
    = Some (ChanceNodeObj (mk_chance [(0, mk_entry 1%Qc 1 [q 2] 3%nat)] VNone false))
  /\ ChanceNode_optimize (compute_payoff 4) 2%nat 0 half chain_heap
     = Err AssertionError.
Proof.
  split; [reflexivity|].
  apply (ChanceNode_optimize_requires_computed_payoff 4 chain_heap 2%nat
           (mk_chance [(0, mk_entry 1%Qc 1 [q 2] 3%nat)] VNone false) 0 half);
    reflexivity.
Defined.

(** C10: once [compute_payoff(d)] has returned on a ChanceNode, calling it
    again (no [sample] in between) returns the same payoff and changes
    nothing: the second call is answered from the memo, or, when the node has
    no children and no prior estimate, recomputes the same [None]. *)
Theorem ChanceNode_compute_payoff_idempotent
  (fuel fuel' : nat) (self : ref) (c : ChanceNode) (d : Qc) (h h1 : heap)
  (v : val) :
  h !! self = Some (ChanceNodeObj c) ->
  compute_payoff fuel self d h = Ok (v, h1) ->
  compute_payoff (S fuel') self d h1 = Ok (v, h1).
Proof.
  intros Hc Hrun.
  destruct (compute_payoff_sets_memo _ _ _ _ _ _ _ Hc Hrun) as (c1 & Hc1 & Hv & Hnone).
  destruct (is_none v) eqn:Hnv.
  - apply is_none_true in Hnv. rewrite Hnv in *.
    destruct Hnone as [Hch Hpe]; [done|].
    simpl. rewrite Hc1. unfold ChanceNode_compute_payoff.
    pose proof Hc1 as Hg. apply get_chance_node_Ok in Hg. rewrite Hg. simpl.
    rewrite Hv. simpl. rewrite Hch. simpl.
    unfold update_chance_node. rewrite Hg. simpl. rewrite Hpe.
    rewrite <- Hv. rewrite set_computed_payoff_estimate_id.
    by rewrite insert_id.
  - apply is_none_false in Hnv.
    rewrite <- Hv. apply compute_payoff_memo_hit; [done|]. by rewrite Hv.
Qed.

Lemma ChanceNode_compute_payoff_idempotent_witness :
  exists h1,
    compute_payoff 3 2%nat half chain_heap = Ok (VVec [q 6], h1)
    /\ compute_payoff 1 2%nat half h1 = Ok (VVec [q 6], h1).
Proof.
  eexists. split; [vm_compute; reflexivity|].
  eapply (ChanceNode_compute_payoff_idempotent 3 0 2%nat _ half chain_heap);
    [reflexivity | vm_compute; reflexivity].
Defined.

(** ** C4: importance weights of [ChanceNode.sample] *)

(** C4: with an off-policy distribution, a draw of [v] whose off-policy
    probability is [p] (not zero) and whose on-policy probability is [q]
    returns probability [p] and importance [q / p]; without one, the draw
    comes from the on-policy distribution and the importance is [1]. *)
Theorem ChanceNode_sample_importance
  (h : heap) (self : ref) (c : ChanceNode) (v : Z) :
  h !! self = Some (ChanceNodeObj c) ->
  (forall off p q',
      off_policy_distribution c = Some off ->
      py_index (DiscreteDistribution.probs off) v = Ok p ->
      p <> 0%Qc ->
      py_index (DiscreteDistribution.probs (on_policy_distribution c)) v = Ok q' ->
      exists next_node h',
        ChanceNode_sample self v h
        = Ok (VNum p, VNum (q' / p)%Qc, v, next_node, h'))
  /\ (forall p,
         off_policy_distribution c = None ->
         py_index (DiscreteDistribution.probs (on_policy_distribution c)) v = Ok p ->
         exists next_node h',
           ChanceNode_sample self v h = Ok (VNum p, VNum 1%Qc, v, next_node, h')).
Proof.
  intros Hc.
  assert (Hupd : update_chance_node (set_computed_payoff_estimate VNone) self h
                 = Ok (<[self := ChanceNodeObj (set_computed_payoff_estimate VNone c)]> h)).
  { apply update_chance_node_Ok. eauto. }
  assert (Hget : get_chance_node
                   (<[self := ChanceNodeObj (set_computed_payoff_estimate VNone c)]> h) self
                 = Ok (set_computed_payoff_estimate VNone c)).
  { apply get_chance_node_Ok. apply lookup_insert_eq. }
  split.
  - intros off p q' Hoff Hp Hp0 Hq.
    unfold ChanceNode_sample. rewrite Hupd. simpl. rewrite Hget. simpl.
    rewrite Hoff. unfold DiscreteDistribution.sample,
      DiscreteDistribution.get_probability.
    rewrite Hp. simpl. rewrite Hq. simpl.
    destruct (decide (p = 0%Qc)) as [|_]; [done|]. simpl.
    destruct (dict_get v (children c)) as [e|]; [|eauto].
    unfold update_chance_node. rewrite Hget. simpl. eauto.
  - intros p Hoff Hp.
    unfold ChanceNode_sample. rewrite Hupd. simpl. rewrite Hget. simpl.
    rewrite Hoff. unfold DiscreteDistribution.sample.
    rewrite Hp. simpl.
    destruct (dict_get v (children c)) as [e|]; [|eauto].
    unfold update_chance_node. rewrite Hget. simpl. eauto.
Qed.

Lemma ChanceNode_sample_importance_witness :
  (exists next_node h',
      ChanceNode_sample 7%nat 1 off_policy_heap
      = Ok (VNum (Q2Qc (3 # 4)), VNum (half / Q2Qc (3 # 4))%Qc, 1, next_node, h'))
  /\ (exists next_node h',
         ChanceNode_sample 2%nat 0 chain_heap
         = Ok (VNum half, VNum 1%Qc, 0, next_node, h')).
Proof.
  split.
  - refine (proj1 (ChanceNode_sample_importance off_policy_heap 7%nat
                     off_policy_node 1 _) _ (Q2Qc (3 # 4)) half _ _ _ _);
      try reflexivity.
    intros H. discriminate H.
  - refine (proj2 (ChanceNode_sample_importance chain_heap 2%nat
                     (mk_chance [(0, mk_entry 1%Qc 1 [q 2] 3%nat)] VNone false)
                     0 _) half _ _);
      reflexivity.
Defined.

(** ** C8: the payoff of a Leaf *)

(** C8, as stated, fails: above a Leaf the ChanceNode aggregates a payoff of
    width 2, while the Leaf's own payoff is a number without a width. *)
Lemma Leaf_compute_payoff_width_counterexample :
  (exists h1, compute_payoff 2 1%nat half leaf_heap = Ok (VVec [q 1; q 0], h1))
  /\ (exists v h1, compute_payoff 2 2%nat half leaf_heap = Ok (v, h1)
                   /\ payoff_width v = None
                   /\ payoff_width v <> payoff_width (VVec [q 1; q 0])).
Proof.
  split.
  - eexists. vm_compute. reflexivity.
  - exists (VNum 0%Qc), leaf_heap. split; [reflexivity|]. split; [reflexivity|].
    discriminate.
Qed.

(** C8, amended: for every discount a Leaf returns the number [0.0] and
    changes nothing; the number carries no width of its own and takes the
    width of the reward it is added to: [reward + discount * 0.0] is the
    reward vector. *)
Theorem Leaf_compute_payoff_scalar_zero
  (fuel : nat) (h : heap) (self : ref) (discount : Qc) :
  h !! self = Some LeafObj ->
  compute_payoff (S fuel) self discount h = Ok (VNum 0%Qc, h)
  /\ forall (d : Qc) (reward : list Qc),
      (let* discounted := vmul (VNum d) (VNum 0%Qc) in
       vadd (VVec reward) discounted) = Ok (VVec reward).
Proof.
  intros Hl. split.
  - simpl. by rewrite Hl.
  - intros d reward. unfold vmul, vadd. simpl. f_equal. f_equal.
    replace (d * 0)%Qc with 0%Qc by ring.
    induction reward as [|x xs IH]; [done|].
    rewrite fmap_cons, IH. f_equal. ring.
Qed.

Lemma Leaf_compute_payoff_scalar_zero_witness :
  leaf_heap !! 2%nat = Some LeafObj
  /\ compute_payoff 1 2%nat half leaf_heap = Ok (VNum 0%Qc, leaf_heap).
Proof.
  split; [reflexivity|].
  apply (Leaf_compute_payoff_scalar_zero 0 leaf_heap 2%nat half). reflexivity.
Defined.

(** ** C5: construction of an ActionSchema *)

(** C5 at a failing input: after [add] has registered one child on the
    single member node, the constructor does not return a partition; the
    three-name unpacking of the five-item entry raises [ValueError]. *)
Lemma ActionSchema_init_fails_on_visited_member :
  exists h1,
    ChanceNode_add 1%nat (VNum half) (VNum 1%Qc) 0 (VVec [q 1; q 0]) 2%nat fresh_heap
    = Ok h1
    /\ ActionSchema__init__ 0%nat [1%nat] 0 h1 = Err ValueError.
Proof. eexists. split; vm_compute; reflexivity. Qed.

(** ** C6: the parameters of a DiscreteDistribution *)

(** C6, as stated, fails: [optimize] stores what it is given; one call with
    the single probability [3/10] leaves parameters that sum to [3/10]. *)
Lemma DiscreteDistribution_sum_counterexample :
  ~ (forall size calls d0 d,
        DiscreteDistribution.__init__ size = Ok d0 ->
        optimize_calls d0 calls = Ok d ->
        is_distribution (DiscreteDistribution.get_parameters d)).
Proof.
  intros H.
  destruct (H 2 [([0], [Q2Qc (3 # 10)])]
              {| DiscreteDistribution.probs := [half; half] |}
              {| DiscreteDistribution.probs := [Q2Qc (3 # 10); 0%Qc] |})
    as [_ Hsum].
  - vm_compute. reflexivity.
  - vm_compute. reflexivity.
  - vm_compute in Hsum. discriminate Hsum.
Qed.

(** *** Sums of rationals *)

Lemma Qc_of_nat_S n : Qc_of_nat (S n) = (Qc_of_nat n + 1)%Qc.
Proof.
  unfold Qc_of_nat. rewrite Nat2Z.inj_succ, <- Z.add_1_r, Z2Qc_inj_add.
  by rewrite Z2Qc_inj_1.
Qed.

Lemma Qc_of_nat_pos n : (0 < n)%nat -> (0 < Qc_of_nat n)%Qc.
Proof.
  intros Hn. unfold Qc_of_nat. rewrite <- Z2Qc_inj_0.
  apply (proj1 (Z2Qc_inj_lt 0 (Z.of_nat n))). lia.
Qed.

Lemma Qc_of_nat_neq_0 n : (0 < n)%nat -> Qc_of_nat n <> 0%Qc.
Proof.
  intros Hn Heq. apply Qc_of_nat_pos in Hn. rewrite Heq in Hn.
  by apply (irreflexivity Qclt) in Hn.
Qed.

Lemma reduce_sum_replicate x n :
  reduce_sum (replicate n x) = (Qc_of_nat n * x)%Qc.
Proof.
  induction n as [|n IH]; simpl.
  - change (Qc_of_nat 0) with (Qc_of_Z 0). rewrite Z2Qc_inj_0. ring.
  - rewrite Qc_of_nat_S, IH. ring.
Qed.

Lemma reduce_sum_uniform n :
  (0 < n)%nat -> reduce_sum (replicate n (1 / Qc_of_nat n)%Qc) = 1%Qc.
Proof.
  intros Hn. rewrite reduce_sum_replicate. field. by apply Qc_of_nat_neq_0.
Qed.

Lemma Qc_inv_nonneg x : (0 < x)%Qc -> (0 <= 1 / x)%Qc.
Proof.
  intros Hx. apply Qclt_le_weak.
  unfold Qcdiv. rewrite Qcmult_1_l. by apply Qcinv_pos.
Qed.

Lemma reduce_sum_insert (l : list Qc) k x p :
  l !! k = Some x ->
  reduce_sum (<[k := p]> l) = (reduce_sum l - x + p)%Qc.
Proof.
  revert k. induction l as [|y l IH]; intros [|k] Hk; simpl in *; try done.
  - injection Hk as ->. ring.
  - rewrite (IH _ Hk). ring.
Qed.

Lemma py_pos_in_range {A} (l : list A) v :
  0 <= v < Z.of_nat (length l) -> py_pos l v = Some (Z.to_nat v).
Proof.
  intros [H0 H1]. unfold py_pos.
  apply Z.leb_le in H0. apply Z.ltb_lt in H1. by rewrite H0, H1.
Qed.

(** *** The assignment loop of [optimize] *)

Lemma optimize_loop_sum (vps : list (Z * Qc)) : forall l : list Qc,
  NoDup vps.*1 ->
  (forall v, v ∈ vps.*1 -> 0 <= v < Z.of_nat (length l)) ->
  (forall v, v ∈ vps.*1 -> l !! Z.to_nat v = Some 0%Qc) ->
  Forall (fun x => (0 <= x)%Qc) l ->
  Forall (fun x => (0 <= x)%Qc) vps.*2 ->
  exists l',
    DiscreteDistribution.optimize_loop l vps = Ok l'
    /\ length l' = length l
    /\ reduce_sum l' = (reduce_sum l + reduce_sum vps.*2)%Qc
    /\ Forall (fun x => (0 <= x)%Qc) l'.
Proof.
  induction vps as [|[v p] rest IH]; intros l Hnd Hrange Hzero Hl Hps.
  - exists l. simpl. repeat split; [ring | done].
  - rewrite fmap_cons in *. cbn [fst snd] in *.
    apply NoDup_cons in Hnd as [Hv Hnd].
    apply Forall_cons in Hps as [Hp Hps].
    cbn [DiscreteDistribution.optimize_loop].
    change (reduce_sum (p :: rest.*2)) with (p + reduce_sum rest.*2)%Qc.
    assert (Hvr : 0 <= v < Z.of_nat (length l)) by (apply Hrange; left).
    unfold py_setitem. rewrite (py_pos_in_range l v Hvr). simpl.
    destruct (IH (<[Z.to_nat v := p]> l)) as (l' & Hrun & Hlen & Hsum & Hnn);
      try done.
    + intros v' Hv'. rewrite length_insert. apply Hrange. by right.
    + intros v' Hv'. rewrite list_lookup_insert_ne.
      * apply Hzero. by right.
      * intros Heq. apply Hv.
        assert (0 <= v') by (apply (Hrange v'); by right).
        assert (v = v') as -> by lia. done.
    + by apply Forall_insert.
    + exists l'. split; [done|]. rewrite length_insert in Hlen.
      split; [done|]. split; [|done].
      rewrite Hsum. rewrite (reduce_sum_insert l _ 0%Qc p).
      * ring.
      * apply Hzero. left.
Qed.

Lemma DiscreteDistribution_optimize_valid (d : DiscreteDistribution.t)
  (values : list Z) (probabilities : list Qc) :
  valid_call (length (DiscreteDistribution.probs d)) (values, probabilities) ->
  exists d',
    DiscreteDistribution.optimize d values probabilities = Ok d'
    /\ length (DiscreteDistribution.probs d') = length (DiscreteDistribution.probs d)
    /\ is_distribution (DiscreteDistribution.probs d').
Proof.
  intros (Hnd & Hrange & Hlen & Hnn & Hsum). simpl in *.
  unfold DiscreteDistribution.optimize.
  set (n := length (DiscreteDistribution.probs d)) in *.
  destruct (optimize_loop_sum (zip values probabilities) (replicate n 0%Qc))
    as (l' & Hrun & Hlen' & Hsum' & Hnn').
  - rewrite fst_zip by lia. done.
  - intros v Hv. rewrite fst_zip in Hv by lia. rewrite length_replicate.
    rewrite Forall_forall in Hrange. by apply Hrange.
  - intros v Hv. rewrite fst_zip in Hv by lia.
    rewrite Forall_forall in Hrange. apply lookup_replicate_2.
    specialize (Hrange v Hv). lia.
  - by apply Forall_replicate.
  - rewrite snd_zip by lia. done.
  - rewrite Hrun. simpl. eexists. split; [done|]. simpl.
    rewrite length_replicate in Hlen'. split; [done|]. split; [done|].
    rewrite Hsum', snd_zip by lia. rewrite Hsum, reduce_sum_replicate. ring.
Qed.

(** C6, amended: the parameters start uniform, and stay non-negative with
    sum one along every sequence of [optimize] calls in which each call
    names distinct indices of the support and gives them probabilities that
    are themselves non-negative with sum one. *)
Theorem DiscreteDistribution_parameters_distribution
  (size : Z) (d0 : DiscreteDistribution.t) (calls : list (list Z * list Qc)) :
  DiscreteDistribution.__init__ size = Ok d0 ->
  Forall (valid_call (Z.to_nat size)) calls ->
  exists d,
    optimize_calls d0 calls = Ok d
    /\ length (DiscreteDistribution.get_parameters d) = Z.to_nat size
    /\ is_distribution (DiscreteDistribution.get_parameters d).
Proof.
  intros Hinit Hcalls.
  assert (H0 : length (DiscreteDistribution.probs d0) = Z.to_nat size
               /\ is_distribution (DiscreteDistribution.probs d0)).
  { unfold DiscreteDistribution.__init__ in Hinit.
    destruct (size =? 0) eqn:Hz; [discriminate|].
    destruct (size <? 0) eqn:Hneg; [discriminate|].
    injection Hinit as <-. simpl.
    apply Z.eqb_neq in Hz. apply Z.ltb_ge in Hneg.
    assert (Hpos : (0 < Z.to_nat size)%nat) by lia.
    assert (Hq : Qc_of_Z size = Qc_of_nat (Z.to_nat size)).
    { unfold Qc_of_nat. by rewrite Z2Nat.id. }
    rewrite Hq, length_replicate. split; [done|]. split.
    - apply Forall_replicate. apply Qc_inv_nonneg. by apply Qc_of_nat_pos.
    - by apply reduce_sum_uniform. }
  clear Hinit. revert d0 H0.
  induction calls as [|[values probabilities] rest IH]; intros d0 [Hlen Hdist].
  - exists d0. done.
  - apply Forall_cons in Hcalls as [Hcall Hrest]. simpl.
    destruct (DiscreteDistribution_optimize_valid d0 values probabilities)
      as (d1 & Hrun & Hlen1 & Hdist1).
    { by rewrite Hlen. }
    rewrite Hrun. simpl. apply IH; [done|]. split; [congruence | done].
Qed.

Lemma DiscreteDistribution_parameters_distribution_witness :
  exists d,
    optimize_calls {| DiscreteDistribution.probs := [half; half] |}
      [([1; 0], [Q2Qc (1 # 4); Q2Qc (3 # 4)]); ([1], [1%Qc])] = Ok d
    /\ length (DiscreteDistribution.get_parameters d) = Z.to_nat 2
    /\ is_distribution (DiscreteDistribution.get_parameters d).
Proof.
  apply (DiscreteDistribution_parameters_distribution 2).
  - vm_compute. reflexivity.
  - assert (Hle : forall x : Qc, (0 ?= x)%Q <> Gt -> (0 <= x)%Qc)
      by (intros x H; exact H).
    repeat constructor; cbn [fst snd];
      try (apply Hle; vm_compute; discriminate);
      try (apply Qc_is_canon; reflexivity);
      try lia;
      rewrite list_elem_of_In; simpl; intuition discriminate.
Defined.

(** ** What [compute_payoff] may change in the store

    Only memoised payoffs are written, and only where none was stored when
    the call began. *)

Lemma obj_ext_refl o : obj_ext o o.
Proof.
  destruct o as [|c| |]; simpl; try done.
  exists (computed_payoff_estimate c).
  by rewrite set_computed_payoff_estimate_id.
Qed.

Lemma obj_ext_trans o1 o2 o3 : obj_ext o1 o2 -> obj_ext o2 o3 -> obj_ext o1 o3.
Proof.
  destruct o1 as [|c| |]; simpl; try (intros -> H; exact H).
  intros (m & -> & Hm) (m' & -> & Hm'). simpl in Hm'.
  exists m'. rewrite set_computed_payoff_estimate_twice. split; [done|].
  intros Hc. rewrite Hm' by (by rewrite (Hm Hc)). by apply Hm.
Qed.

Lemma heap_ext_refl h : heap_ext h h.
Proof.
  intros r. destruct (h !! r) as [o|] eqn:Ho; [|done].
  exists o. split; [done | apply obj_ext_refl].
Qed.

Lemma heap_ext_trans h1 h2 h3 : heap_ext h1 h2 -> heap_ext h2 h3 -> heap_ext h1 h3.
Proof.
  intros H12 H23 r. specialize (H12 r). specialize (H23 r).
  destruct (h1 !! r) as [o1|].
  - destruct H12 as (o2 & Ho2 & He2). rewrite Ho2 in H23.
    destruct H23 as (o3 & Ho3 & He3). exists o3. split; [done|].
    by apply (obj_ext_trans o1 o2 o3).
  - by rewrite H12 in H23.
Qed.

Lemma heap_ext_chance_node h h' r c :
  heap_ext h h' -> h !! r = Some (ChanceNodeObj c) ->
  exists m, h' !! r = Some (ChanceNodeObj (set_computed_payoff_estimate m c))
            /\ (computed_payoff_estimate c <> VNone ->
                m = computed_payoff_estimate c).
Proof.
  intros Hext Hc. specialize (Hext r). rewrite Hc in Hext.
  destruct Hext as (o' & Ho' & m & -> & Hm). eauto.
Qed.

Lemma heap_ext_other h h' r o :
  heap_ext h h' -> h !! r = Some o ->
  (forall c, o <> ChanceNodeObj c) -> h' !! r = Some o.
Proof.
  intros Hext Ho Hnc. specialize (Hext r). rewrite Ho in Hext.
  destruct Hext as (o' & Ho' & He). destruct o; simpl in He; subst; try done.
  by destruct (Hnc c).
Qed.

(** Writing the memo of a node that had none when the call began. *)
Lemma heap_ext_write_memo h h2 self c c2 payoff :
  heap_ext h h2 ->
  h !! self = Some (ChanceNodeObj c) ->
  computed_payoff_estimate c = VNone ->
  h2 !! self = Some (ChanceNodeObj c2) ->
  heap_ext h (<[self := ChanceNodeObj (set_computed_payoff_estimate payoff c2)]> h2).
Proof.
  intros Hext Hc Hm Hc2 r. destruct (decide (r = self)) as [->|Hne].
  - rewrite Hc, lookup_insert_eq. eexists. split; [done|]. simpl.
    destruct (heap_ext_chance_node _ _ _ _ Hext Hc) as (m & Hc2' & _).
    rewrite Hc2 in Hc2'. injection Hc2' as ->.
    exists payoff. rewrite set_computed_payoff_estimate_twice. split; [done|].
    intros Hne. by rewrite Hm in Hne.
  - rewrite lookup_insert_ne by done. apply Hext.
Qed.

Section HeapExt.

Variable rec : ref -> Qc -> heap -> result (val * heap).
Hypothesis rec_ext :
  forall r d h v h', rec r d h = Ok (v, h') -> heap_ext h h'.

Lemma ChanceNode_compute_payoff_loop_ext d entries : forall value sv h value' sv' h',
  ChanceNode_compute_payoff_loop rec d entries value sv h = Ok (value', sv', h') ->
  heap_ext h h'.
Proof.
  induction entries as [|e rest IH]; intros value sv h value' sv' h' Hrun.
  - simpl in Hrun. injection Hrun as <- <- <-. apply heap_ext_refl.
  - simpl in Hrun. bind_inv Hrun as [p h1] Hp.
    bind_inv Hrun as dp Hdp. bind_inv Hrun as av Hav.
    bind_inv Hrun as w Hw. bind_inv Hrun as wd Hwd.
    bind_inv Hrun as value1 Hvalue1.
    apply rec_ext in Hp. apply IH in Hrun.
    by apply (heap_ext_trans h h1 h').
Qed.

Lemma ChanceNode_compute_payoff_ext self d h v h' :
  ChanceNode_compute_payoff rec self d h = Ok (v, h') -> heap_ext h h'.
Proof.
  unfold ChanceNode_compute_payoff. intros Hrun.
  bind_inv Hrun as c Hc. apply get_chance_node_Ok in Hc.
  destruct (is_none (computed_payoff_estimate c)) eqn:Hm; simpl in Hrun.
  - apply is_none_true in Hm.
    destruct (Nat.eqb (length (children c)) 0).
    + bind_inv Hrun as h1 Hupd. injection Hrun as <- <-.
      apply update_chance_node_Ok in Hupd as (c0 & Hc0 & ->).
      apply (heap_ext_write_memo h h self c c0); try done. apply heap_ext_refl.
    + bind_inv Hrun as [[value sum_visits] h2] Hloop.
      bind_inv Hrun as payoff Hpay. bind_inv Hrun as h3 Hupd.
      injection Hrun as <- <-.
      apply update_chance_node_Ok in Hupd as (c2 & Hc2 & ->).
      apply ChanceNode_compute_payoff_loop_ext in Hloop.
      by apply (heap_ext_write_memo h h2 self c c2).
  - injection Hrun as <- <-. apply heap_ext_refl.
Qed.

Lemma compute_payoff_each_ext nodes d : forall h h',
  compute_payoff_each rec nodes d h = Ok h' -> heap_ext h h'.
Proof.
  induction nodes as [|cn rest IH]; intros h h' Hrun; simpl in Hrun.
  - injection Hrun as <-. apply heap_ext_refl.
  - bind_inv Hrun as [p h1] Hp. apply rec_ext in Hp. apply IH in Hrun.
    by apply (heap_ext_trans h h1 h').
Qed.

Lemma ActionSchema_compute_payoff_ext self d h v h' :
  ActionSchema_compute_payoff rec self d h = Ok (v, h') -> heap_ext h h'.
Proof.
  unfold ActionSchema_compute_payoff. intros Hrun.
  bind_inv Hrun as a Ha. bind_inv Hrun as h1 H1. bind_inv Hrun as h2 H2.
  bind_inv Hrun as root Hroot.
  apply compute_payoff_each_ext in H1, H2. apply rec_ext in Hrun.
  apply (heap_ext_trans h h1 h'); [done|].
  by apply (heap_ext_trans h1 h2 h').
Qed.

Lemma StateNode_compute_payoff_ext self d h v h' :
  StateNode_compute_payoff rec self d h = Ok (v, h') -> heap_ext h h'.
Proof.
  unfold StateNode_compute_payoff. intros Hrun.
  destruct (h !! self) as [[| | |s]|]; try discriminate.
  destruct (action_schema s); [|discriminate]. by apply rec_ext in Hrun.
Qed.

End HeapExt.

Lemma compute_payoff_ext fuel : forall self d h v h',
  compute_payoff fuel self d h = Ok (v, h') -> heap_ext h h'.
Proof.
  induction fuel as [|n IH]; intros self d h v h' Hrun; [discriminate|].
  simpl in Hrun. destruct (h !! self) as [[|c|a|s]|]; try discriminate.
  - injection Hrun as <- <-. apply heap_ext_refl.
  - by apply (ChanceNode_compute_payoff_ext _ IH) in Hrun.
  - by apply (ActionSchema_compute_payoff_ext _ IH) in Hrun.
  - by apply (StateNode_compute_payoff_ext _ IH) in Hrun.
Qed.

(** ** The payoff loop *)

Lemma total_visits_cons e rest :
  total_visits (e :: rest) = (visits e + total_visits rest)%nat.
Proof. reflexivity. Qed.

Lemma ChanceNode_compute_payoff_loop_Ok rec d entries :
  forall value sv h value' sv' h',
  ChanceNode_compute_payoff_loop rec d entries value sv h = Ok (value', sv', h')
  <-> exists payoffs,
      child_payoffs rec d entries h = Ok (payoffs, h')
      /\ accumulate d entries payoffs value = Ok value'
      /\ sv' = (sv + total_visits entries)%nat.
Proof.
  induction entries as [|e rest IH]; intros value sv h value' sv' h'.
  - simpl. split.
    + intros H. injection H as <- <- <-. exists []. unfold total_visits.
      simpl. split; [done|]. split; [done | lia].
    + intros (ps & Hps & Hacc & ->). injection Hps as <- <-.
      simpl in Hacc. injection Hacc as <-. unfold total_visits. simpl.
      do 3 f_equal. lia.
  - simpl. split.
    + intros Hrun. bind_inv Hrun as [p h1] Hp.
      bind_inv Hrun as dp Hdp. bind_inv Hrun as av Hav.
      bind_inv Hrun as w Hw. bind_inv Hrun as wd Hwd.
      bind_inv Hrun as value1 Hvalue1.
      apply IH in Hrun as (ps & Hps & Hacc & ->).
      exists (p :: ps). rewrite Hp. simpl. rewrite Hps. simpl.
      split; [done|]. unfold weighted_action_value.
      rewrite Hdp. simpl. rewrite Hav. simpl. rewrite Hw. simpl.
      rewrite Hwd. simpl. rewrite Hvalue1. simpl. split; [done|].
      rewrite total_visits_cons. lia.
    + intros (ps & Hps & Hacc & ->).
      bind_inv Hps as [p h1] Hp. bind_inv Hps as [ps' h2] Hps'.
      injection Hps as <- <-. simpl in Hacc.
      bind_inv Hacc as wd Hwd. bind_inv Hacc as value1 Hvalue1.
      unfold weighted_action_value in Hwd.
      bind_inv Hwd as dp Hdp. bind_inv Hwd as av Hav. bind_inv Hwd as w Hw.
      rewrite Hp. simpl. rewrite Hdp. simpl. rewrite Hav. simpl.
      rewrite Hw. simpl. rewrite Hwd. simpl. rewrite Hvalue1. simpl.
      apply IH. exists ps'. split; [done|]. split; [done|].
      rewrite total_visits_cons. lia.
Qed.

Lemma child_payoffs_ext fuel d entries : forall h payoffs h',
  child_payoffs (compute_payoff fuel) d entries h = Ok (payoffs, h') ->
  heap_ext h h' /\ length payoffs = length entries.
Proof.
  induction entries as [|e rest IH]; intros h payoffs h' Hrun; simpl in Hrun.
  - injection Hrun as <- <-. split; [apply heap_ext_refl | done].
  - bind_inv Hrun as [p h1] Hp. bind_inv Hrun as [ps h2] Hps.
    injection Hrun as <- <-. apply compute_payoff_ext in Hp.
    apply IH in Hps as [Hext Hlen]. split.
    + by apply (heap_ext_trans h h1 h2).
    + simpl. by rewrite Hlen.
Qed.

Lemma vbin_not_none f a b v : vbin f a b = Ok v -> v <> VNone.
Proof.
  unfold vbin. intros H.
  destruct a as [|x|u], b as [|y|w]; try discriminate;
    try (injection H as <-; discriminate).
  destruct (Nat.eqb _ _); [injection H as <-; discriminate|].
  destruct u as [|? [|? ?]], w as [|? [|? ?]]; try discriminate;
    injection H as <-; discriminate.
Qed.

Lemma accumulate_not_none d entries : forall payoffs value v,
  value <> VNone -> accumulate d entries payoffs value = Ok v -> v <> VNone.
Proof.
  induction entries as [|e es IH]; intros [|p ps] value v Hnn Hacc;
    simpl in Hacc; try (injection Hacc as <-; done).
  bind_inv Hacc as w Hw. bind_inv Hacc as v2 Hv2.
  apply (IH ps v2); [|done]. by apply vbin_not_none in Hv2.
Qed.

(** A ChanceNode with children and no memo: the call returns as soon as the
    children's payoffs are there and the arithmetic goes through. *)
Lemma ChanceNode_compute_payoff_run fuel h self c discount payoffs h1 value :
  h !! self = Some (ChanceNodeObj c) ->
  computed_payoff_estimate c = VNone ->
  children c <> [] ->
  child_payoffs (compute_payoff fuel) (effective_discount c discount)
    (dict_values (children c)) h = Ok (payoffs, h1) ->
  accumulate (effective_discount c discount) (dict_values (children c))
    payoffs (VNum 0%Qc) = Ok value ->
  exists payoff c1,
    (if Nat.eqb (total_visits (dict_values (children c))) 0
     then Ok (VVec [0%Qc])
     else vdiv_int value (total_visits (dict_values (children c)))) = Ok payoff
    /\ h1 !! self = Some (ChanceNodeObj c1)
    /\ compute_payoff (S fuel) self discount h
       = Ok (payoff,
             <[self := ChanceNodeObj (set_computed_payoff_estimate payoff c1)]> h1).
Proof.
  intros Hc Hm Hch Hps Hacc.
  destruct (child_payoffs_ext _ _ _ _ _ _ Hps) as [Hext _].
  destruct (heap_ext_chance_node _ _ _ _ Hext Hc) as (m & Hc1 & _).
  assert (Hloop : ChanceNode_compute_payoff_loop (compute_payoff fuel)
                    (effective_discount c discount) (dict_values (children c))
                    (VNum 0%Qc) 0 h
                  = Ok (value, total_visits (dict_values (children c)), h1)).
  { apply ChanceNode_compute_payoff_loop_Ok. exists payoffs. done. }
  assert (Hpay : exists payoff,
             (if Nat.eqb (total_visits (dict_values (children c))) 0
              then Ok (VVec [0%Qc])
              else vdiv_int value (total_visits (dict_values (children c))))
             = Ok payoff).
  { destruct (total_visits (dict_values (children c))) as [|n] eqn:Ht; simpl.
    - eauto.
    - apply accumulate_not_none in Hacc; [|done].
      destruct value; simpl; eauto. done. }
  destruct Hpay as (payoff & Hpay).
  exists payoff, (set_computed_payoff_estimate m c). split; [done|]. split; [done|].
  simpl. rewrite Hc. unfold ChanceNode_compute_payoff.
  pose proof Hc as Hg. apply get_chance_node_Ok in Hg. rewrite Hg. simpl.
  rewrite Hm. simpl.
  assert (Hlen : Nat.eqb (length (children c)) 0 = false)
    by (destruct (children c); [done | reflexivity]).
  rewrite Hlen. fold (effective_discount c discount). rewrite Hloop. simpl.
  rewrite Hpay. simpl. unfold update_chance_node.
  apply get_chance_node_Ok in Hc1. rewrite Hc1. simpl. done.
Qed.

(** ** C7: nodes without visits *)

(** C7, as stated, fails: the children are evaluated before the visit count
    is looked at.  The node below has total visit count 0, yet its call
    fails, whatever the fuel: its child returns [None], and
    [discount * None] raises [TypeError]. *)
Lemma ChanceNode_zero_visits_counterexample :
  total_visits (dict_values [(0, mk_entry 1%Qc 0 [q 1] 2%nat)]) = 0%nat
  /\ compute_payoff 3 1%nat half unexplored_heap = Err TypeError
  /\ forall fuel, exists e, compute_payoff fuel 1%nat half unexplored_heap = Err e.
Proof.
  split; [reflexivity|]. split; [vm_compute; reflexivity|].
  intros [|[|n]]; eexists; vm_compute; reflexivity.
Qed.

(** C7, amended: with the memo cleared, a ChanceNode to which no child was
    ever added returns its stored prior estimate (possibly [None]) and
    memoises it; a ChanceNode with children whose visit counts total 0
    returns the one-element zero vector, provided every child's payoff is
    obtained and combines with its reward without error. *)
Theorem ChanceNode_compute_payoff_unexplored
  (fuel : nat) (h : heap) (self : ref) (c : ChanceNode) (discount : Qc) :
  h !! self = Some (ChanceNodeObj c) ->
  computed_payoff_estimate c = VNone ->
  (children c = [] ->
   compute_payoff (S fuel) self discount h
   = Ok (payoff_estimate c,
         <[self := ChanceNodeObj
                     (set_computed_payoff_estimate (payoff_estimate c) c)]> h))
  /\ (forall payoffs h1 value,
         children c <> [] ->
         total_visits (dict_values (children c)) = 0%nat ->
         child_payoffs (compute_payoff fuel) (effective_discount c discount)
           (dict_values (children c)) h = Ok (payoffs, h1) ->
         accumulate (effective_discount c discount) (dict_values (children c))
           payoffs (VNum 0%Qc) = Ok value ->
         exists h2,
           compute_payoff (S fuel) self discount h = Ok (VVec [0%Qc], h2)).
Proof.
  intros Hc Hm. split.
  - intros Hch. simpl. rewrite Hc. unfold ChanceNode_compute_payoff.
    pose proof Hc as Hg. apply get_chance_node_Ok in Hg.
    rewrite Hg. simpl. rewrite Hm, Hch. simpl.
    unfold update_chance_node. rewrite Hg. simpl. done.
  - intros payoffs h1 value Hch Hzero Hps Hacc.
    destruct (ChanceNode_compute_payoff_run fuel h self c discount payoffs h1
                value Hc Hm Hch Hps Hacc) as (payoff & c1 & Hpay & _ & Hrun).
    rewrite Hzero in Hpay. simpl in Hpay. injection Hpay as <-. eauto.
Qed.

Lemma ChanceNode_compute_payoff_unexplored_witness :
  (exists h2, compute_payoff 1 3%nat half chain_heap = Ok (VVec [q 8], h2))
  /\ (exists h2, compute_payoff 2 1%nat half zero_visit_heap = Ok (VVec [0%Qc], h2)).
Proof.
  split.
  - eexists.
    refine (proj1 (ChanceNode_compute_payoff_unexplored 0 chain_heap 3%nat
                     (mk_chance [] (VVec [q 8]) false) half _ _) _);
      reflexivity.
  - refine (proj2 (ChanceNode_compute_payoff_unexplored 1 zero_visit_heap 1%nat
                     (mk_chance [(0, mk_entry 1%Qc 0 [q 1; q 0] 2%nat)] VNone false)
                     half _ _)
              [VNum 0%Qc] zero_visit_heap (VVec [0%Qc; 0%Qc]) _ _ _ _);
      try reflexivity; discriminate.
Defined.

(** ** Broadcasting *)

Lemma broadcast_to_length k v l : broadcast_to k v = Some l -> length l = k.
Proof.
  destruct v as [|x|u]; simpl; try discriminate.
  - intros H. injection H as <-. apply length_replicate.
  - destruct (Nat.eqb (length u) k) eqn:Hlen.
    + intros H. injection H as <-. by apply Nat.eqb_eq.
    + destruct u as [|x [|? ?]]; try discriminate.
      intros H. injection H as <-. apply length_replicate.
Qed.

Lemma broadcast_to_vec k l : length l = k -> broadcast_to k (VVec l) = Some l.
Proof. intros H. unfold broadcast_to. apply Nat.eqb_eq in H. by rewrite H. Qed.

Lemma broadcast_to_singleton k x :
  broadcast_to k (VVec [x]) = Some (replicate k x).
Proof.
  unfold broadcast_to. simpl length.
  destruct (Nat.eqb 1 k) eqn:Hk; [|done].
  apply Nat.eqb_eq in Hk. by subst k.
Qed.

(** What [broadcast_to] accepts: a number, a vector of the width, or a
    one-element vector. *)
Lemma broadcast_to_Some k v l :
  broadcast_to k v = Some l ->
  (exists x, v = VNum x /\ l = replicate k x)
  \/ (v = VVec l /\ length l = k)
  \/ (exists x, v = VVec [x] /\ l = replicate k x).
Proof.
  destruct v as [|x|u]; simpl; try discriminate.
  - intros H. injection H as <-. left. eauto.
  - destruct (Nat.eqb (length u) k) eqn:Hlen.
    + intros H. injection H as <-. right. left. by apply Nat.eqb_eq in Hlen.
    + destruct u as [|x [|? ?]]; try discriminate.
      intros H. injection H as <-. right. right. eauto.
Qed.

Lemma vbin_vec_singleton_l f x (v : list Qc) :
  vbin f (VVec [x]) (VVec v) = Ok (VVec (fmap (f x) v)).
Proof.
  unfold vbin. destruct (Nat.eqb (length [x]) (length v)) eqn:Hlen; [|done].
  apply Nat.eqb_eq in Hlen. destruct v as [|y [|? ?]]; try discriminate. done.
Qed.

Lemma vbin_vec_singleton_r f (u : list Qc) y :
  vbin f (VVec u) (VVec [y]) = Ok (VVec (fmap (fun x => f x y) u)).
Proof.
  unfold vbin. destruct (Nat.eqb (length u) (length [y])) eqn:Hlen.
  - apply Nat.eqb_eq in Hlen. destruct u as [|x [|? ?]]; try discriminate. done.
  - destruct u as [|x [|? ?]]; done.
Qed.

Lemma vbin_vec_same f (u v : list Qc) :
  length u = length v -> vbin f (VVec u) (VVec v) = Ok (VVec (zip_with f u v)).
Proof. intros H. unfold vbin. apply Nat.eqb_eq in H. by rewrite H. Qed.

(** Broadcasting commutes with the element-wise operations. *)
Lemma vbin_broadcast f k a b x y :
  broadcast_to k a = Some x -> broadcast_to k b = Some y ->
  exists c, vbin f a b = Ok c /\ broadcast_to k c = Some (zip_with f x y).
Proof.
  intros Ha Hb.
  apply broadcast_to_Some in Ha as [(xa & -> & ->)|[(-> & Hx)|(xa & -> & ->)]];
  apply broadcast_to_Some in Hb as [(yb & -> & ->)|[(-> & Hy)|(yb & -> & ->)]].
  - eexists. split; [done|]. simpl. by rewrite zip_with_replicate.
  - eexists. split; [done|]. rewrite broadcast_to_vec by (by rewrite length_fmap).
    by rewrite zip_with_replicate_l by lia.
  - eexists. split; [done|]. rewrite fmap_cons, fmap_nil.
    by rewrite broadcast_to_singleton, zip_with_replicate.
  - eexists. split; [done|]. rewrite broadcast_to_vec by (by rewrite length_fmap).
    by rewrite zip_with_replicate_r by lia.
  - eexists. split; [apply vbin_vec_same; lia|].
    rewrite broadcast_to_vec; [done|]. rewrite length_zip_with. lia.
  - rewrite vbin_vec_singleton_r. eexists. split; [done|].
    rewrite broadcast_to_vec by (by rewrite length_fmap).
    by rewrite zip_with_replicate_r by lia.
  - eexists. split; [done|]. rewrite fmap_cons, fmap_nil.
    by rewrite broadcast_to_singleton, zip_with_replicate.
  - rewrite vbin_vec_singleton_l. eexists. split; [done|].
    rewrite broadcast_to_vec by (by rewrite length_fmap).
    by rewrite zip_with_replicate_l by lia.
  - rewrite vbin_vec_singleton_l. eexists. split; [done|].
    rewrite fmap_cons, fmap_nil.
    by rewrite broadcast_to_singleton, zip_with_replicate.
Qed.

(** ** The weighted average computed by [ChanceNode.compute_payoff] *)

Lemma row_of_Some k e p r :
  row_of k e p = Some r ->
  importance e = VNum (row_importance r)
  /\ visits e = row_visits r
  /\ broadcast_to k (direkt_reward e) = Some (row_reward r)
  /\ broadcast_to k p = Some (row_payoff r).
Proof.
  unfold row_of. destruct (importance e) as [|imp|]; try discriminate.
  destruct (broadcast_to k (direkt_reward e)) as [rw|]; [|discriminate].
  destruct (broadcast_to k p) as [pv|]; [|discriminate].
  simpl. intros H. injection H as <-. done.
Qed.

Lemma rows_of_cons_Some k e entries p payoffs rows :
  rows_of k (e :: entries) (p :: payoffs) = Some rows ->
  exists r rs, rows = r :: rs /\ row_of k e p = Some r
               /\ rows_of k entries payoffs = Some rs.
Proof.
  simpl. destruct (row_of k e p) as [r|]; [|discriminate].
  destruct (rows_of k entries payoffs) as [rs|]; [|discriminate].
  simpl. intros H. injection H as <-. eauto.
Qed.

Lemma row_term_length k d e p r :
  row_of k e p = Some r -> length (row_term d r) = k.
Proof.
  intros (_ & _ & Hr & Hp)%row_of_Some.
  apply broadcast_to_length in Hr, Hp.
  unfold row_term, row_action_value.
  rewrite length_fmap, length_zip_with, length_fmap. lia.
Qed.

Lemma weighted_sum_length k d entries : forall payoffs rows,
  rows_of k entries payoffs = Some rows -> length (weighted_sum k d rows) = k.
Proof.
  induction entries as [|e es IH]; intros [|p ps] rows Hrows;
    try discriminate.
  - injection Hrows as <-. apply length_replicate.
  - apply rows_of_cons_Some in Hrows as (r & rs & -> & Hr & Hrs).
    simpl. rewrite length_zip_with, (row_term_length k d e p r Hr), (IH ps rs Hrs).
    lia.
Qed.

Lemma rows_of_total_visits k entries : forall payoffs rows,
  rows_of k entries payoffs = Some rows ->
  total_visits entries = sum_list (row_visits <$> rows).
Proof.
  induction entries as [|e es IH]; intros [|p ps] rows Hrows;
    try discriminate.
  - by injection Hrows as <-.
  - apply rows_of_cons_Some in Hrows as (r & rs & -> & Hr & Hrs).
    apply row_of_Some in Hr as (_ & Hv & _).
    rewrite total_visits_cons, fmap_cons, (IH ps rs Hrs), Hv. done.
Qed.

Lemma weighted_action_value_broadcast k d e p r :
  row_of k e p = Some r ->
  exists w, weighted_action_value d e p = Ok w
            /\ broadcast_to k w = Some (row_term d r).
Proof.
  intros Hrow. pose proof Hrow as (Himp & Hv & Hr & Hp)%row_of_Some.
  unfold weighted_action_value.
  destruct (vbin_broadcast Qcmult k (VNum d) p (replicate k d) (row_payoff r))
    as (dp & Hdp & Bdp); [done | done |].
  fold vmul in Hdp. rewrite Hdp. simpl.
  destruct (vbin_broadcast Qcplus k (direkt_reward e) dp _ _ Hr Bdp)
    as (av & Hav & Bav).
  fold vadd in Hav. rewrite Hav. simpl.
  rewrite Himp, Hv. unfold vmul at 1. simpl.
  destruct (vbin_broadcast Qcmult k
              (VNum (Qc_of_nat (row_visits r) * row_importance r)%Qc) av
              (replicate k (Qc_of_nat (row_visits r) * row_importance r)%Qc) _
              eq_refl Bav)
    as (w & Hw & Bw).
  fold vmul in Hw. exists w. split; [done|]. rewrite Bw. f_equal.
  apply broadcast_to_length in Hp.
  unfold row_term, row_action_value.
  rewrite zip_with_replicate_l.
  - f_equal. f_equal. rewrite zip_with_replicate_l by lia. done.
  - apply broadcast_to_length in Bav. lia.
Qed.

Lemma zip_with_Qcplus_assoc (a b c : list Qc) :
  zip_with Qcplus (zip_with Qcplus a b) c
  = zip_with Qcplus a (zip_with Qcplus b c).
Proof.
  revert b c. induction a as [|x a IH]; intros [|y b] [|z c]; simpl; try done.
  rewrite IH. f_equal. ring.
Qed.

Lemma zip_with_Qcplus_zero_l k (l : list Qc) :
  length l = k -> zip_with Qcplus (replicate k 0%Qc) l = l.
Proof.
  intros H. rewrite zip_with_replicate_l by lia.
  induction l as [|x l IH] in k, H |- *; [done|].
  rewrite fmap_cons. destruct k; [done|]. simpl in H.
  rewrite (IH k) by lia. f_equal. ring.
Qed.

Lemma zip_with_Qcplus_zero_r k (l : list Qc) :
  length l = k -> zip_with Qcplus l (replicate k 0%Qc) = l.
Proof.
  intros H. rewrite zip_with_replicate_r by lia.
  induction l as [|x l IH] in k, H |- *; [done|].
  rewrite fmap_cons. destruct k; [done|]. simpl in H.
  rewrite (IH k) by lia. f_equal. unfold flip. ring.
Qed.

Lemma accumulate_broadcast k d entries : forall payoffs rows value acc,
  rows_of k entries payoffs = Some rows ->
  broadcast_to k value = Some acc ->
  exists v, accumulate d entries payoffs value = Ok v
            /\ broadcast_to k v
               = Some (zip_with Qcplus acc (weighted_sum k d rows)).
Proof.
  induction entries as [|e es IH]; intros [|p ps] rows value acc Hrows Hacc;
    try discriminate.
  - injection Hrows as <-. exists value. split; [done|]. simpl.
    rewrite zip_with_Qcplus_zero_r; [done|]. by apply broadcast_to_length in Hacc.
  - apply rows_of_cons_Some in Hrows as (r & rs & -> & Hr & Hrs).
    destruct (weighted_action_value_broadcast k d e p r Hr) as (w & Hw & Bw).
    destruct (vbin_broadcast Qcplus k value w _ _ Hacc Bw) as (v1 & Hv1 & Bv1).
    fold vadd in Hv1.
    destruct (IH ps rs v1 _ Hrs Bv1) as (v & Hv & Bv).
    exists v. simpl. rewrite Hw. simpl. rewrite Hv1. simpl.
    split; [done|]. by rewrite Bv, zip_with_Qcplus_assoc.
Qed.

Lemma vdiv_int_broadcast k value n x :
  (0 < n)%nat -> broadcast_to k value = Some x ->
  exists v, vdiv_int value n = Ok v
            /\ broadcast_to k v = Some ((fun y => (y / Qc_of_nat n)%Qc) <$> x).
Proof.
  intros Hn Hx. destruct n as [|n]; [lia|].
  apply broadcast_to_Some in Hx as [(y & -> & ->)|[(-> & Hlen)|(y & -> & ->)]];
    simpl; eexists; (split; [done|]).
  - by rewrite fmap_replicate.
  - by rewrite broadcast_to_vec by (by rewrite length_fmap).
  - by rewrite broadcast_to_singleton, fmap_replicate.
Qed.

(** C1: for a ChanceNode with at least one entry in [children] (and no memo
    to answer from), once the children's payoffs are there [compute_payoff]
    returns, per player, the sum over the visited values of
    [visits * importance * (immediate_reward + discount * child_payoff)]
    divided by the total visits, with [discount] replaced by [1] on an
    intermediate node; with total visits [0] it returns the zero vector
    [tf.zeros(shape=(1,))]. *)
Theorem ChanceNode_compute_payoff_weighted_average
  (fuel : nat) (h h1 : heap) (self : ref) (c : ChanceNode) (discount : Qc)
  (k : nat) (payoffs : list val) (rows : list row) :
  h !! self = Some (ChanceNodeObj c) ->
  computed_payoff_estimate c = VNone ->
  children c <> [] ->
  child_payoffs (compute_payoff fuel) (effective_discount c discount)
    (dict_values (children c)) h = Ok (payoffs, h1) ->
  rows_of k (dict_values (children c)) payoffs = Some rows ->
  exists payoff h2,
    compute_payoff (S fuel) self discount h = Ok (payoff, h2)
    /\ broadcast_to k payoff
       = Some (weighted_average k (effective_discount c discount) rows)
    /\ (sum_list (row_visits <$> rows) = 0%nat -> payoff = VVec [0%Qc]).
Proof.
  intros Hc Hm Hch Hps Hrows.
  destruct (accumulate_broadcast k (effective_discount c discount)
              (dict_values (children c)) payoffs rows (VNum 0%Qc)
              (replicate k 0%Qc) Hrows eq_refl) as (value & Hacc & Bvalue).
  rewrite zip_with_Qcplus_zero_l in Bvalue
    by (by apply (weighted_sum_length k _ _ _ _ Hrows)).
  destruct (ChanceNode_compute_payoff_run fuel h self c discount payoffs h1
              value Hc Hm Hch Hps Hacc) as (payoff & c1 & Hpay & _ & Hrun).
  exists payoff. eexists. split; [exact Hrun|].
  rewrite (rows_of_total_visits k _ _ _ Hrows) in Hpay.
  unfold weighted_average.
  destruct (sum_list (row_visits <$> rows)) as [|n] eqn:Htotal.
  - simpl in Hpay. injection Hpay as <-. split; [|done].
    by rewrite broadcast_to_singleton.
  - simpl Nat.eqb in *. cbv iota in *.
    destruct (vdiv_int_broadcast k value (S n) _ ltac:(lia) Bvalue)
      as (v & Hv & Bv).
    rewrite Hv in Hpay. injection Hpay as <-. split; [done|]. lia.
Qed.

Lemma ChanceNode_compute_payoff_weighted_average_witness :
  exists payoff h2,
    compute_payoff 2 1%nat half two_value_heap = Ok (payoff, h2)
    /\ broadcast_to 2 payoff = Some (weighted_average 2 half two_value_rows)
    /\ (sum_list (row_visits <$> two_value_rows) = 0%nat -> payoff = VVec [0%Qc]).
Proof.
  apply (ChanceNode_compute_payoff_weighted_average 1 two_value_heap
           two_value_heap 1%nat two_value_node half 2
           [VNum 0%Qc; VNum 0%Qc] two_value_rows);
    try reflexivity.
  discriminate.
Defined.

(** The payoff of the node above: a quarter of the visits went to the first
    value, three quarters to the second. *)
Example two_value_payoff :
  weighted_average 2 half two_value_rows = [Q2Qc (1 # 4); Q2Qc (3 # 4)].
Proof. repeat (f_equal; try (apply Qc_is_canon; reflexivity)). Qed.

(** ** The target policy of [ChanceNode.optimize] *)

Lemma ChanceNode_optimize_loop_action_values rec player d baseline entries :
  forall h,
  ChanceNode_optimize_loop rec player d baseline entries h
  = let* (values, h') := action_values rec player d entries h in
    Ok ((fun a => (a - baseline)%Qc) <$> values, h').
Proof.
  induction entries as [|e rest IH]; intros h; simpl; [done|].
  destruct (negb (bool_decide (is_Some (h !! node e)))); [done|].
  destruct (rec (node e) d h) as [[p h1]|]; simpl; [|done].
  destruct (vmul (VNum d) p) as [dp|]; simpl; [|done].
  destruct (vadd (direkt_reward e) dp) as [av|]; simpl; [|done].
  destruct (vindex av player) as [x|]; simpl; [|done].
  rewrite IH.
  destruct (action_values rec player d rest h1) as [[vs h2]|]; simpl; done.
Qed.

Lemma action_values_ext fuel player d entries : forall h values h',
  action_values (compute_payoff fuel) player d entries h = Ok (values, h') ->
  heap_ext h h' /\ length values = length entries.
Proof.
  induction entries as [|e rest IH]; intros h values h' Hrun; simpl in Hrun.
  - injection Hrun as <- <-. split; [apply heap_ext_refl | done].
  - destruct (negb (bool_decide (is_Some (h !! node e)))); [discriminate|].
    bind_inv Hrun as [p h1] Hp. bind_inv Hrun as dp Hdp.
    bind_inv Hrun as av Hav. bind_inv Hrun as x Hx.
    bind_inv Hrun as [vs h2] Hvs. injection Hrun as <- <-.
    apply compute_payoff_ext in Hp. apply IH in Hvs as [Hext Hlen]. split.
    + by apply (heap_ext_trans h h1 h2).
    + simpl. by rewrite Hlen.
Qed.

Lemma Qc_max_0_nonneg a : (0 <= Qc_max a 0)%Qc.
Proof.
  unfold Qc_max. destruct (Qclt_le_dec a 0) as [Hlt|Hle]; [|done].
  apply Qcle_refl.
Qed.

Lemma reduce_sum_nonneg (l : list Qc) :
  Forall (fun x => (0 <= x)%Qc) l -> (0 <= reduce_sum l)%Qc.
Proof.
  induction 1 as [|x l Hx Hl IH]; simpl.
  - apply Qcle_refl.
  - by apply Qcplus_nonneg_nonneg.
Qed.

(** Non-negative numbers sum to zero only when all of them are zero. *)
Lemma reduce_sum_zero_iff (l : list Qc) :
  Forall (fun x => (0 <= x)%Qc) l ->
  reduce_sum l = 0%Qc <-> Forall (fun x => x = 0%Qc) l.
Proof.
  induction 1 as [|x l Hx Hl IH]; simpl.
  - split; intros; [constructor | done].
  - split.
    + intros Hsum.
      assert (Hs : (0 <= reduce_sum l)%Qc) by (by apply reduce_sum_nonneg).
      assert (Hx0 : x = 0%Qc).
      { apply Qcle_antisym; [|done].
        rewrite <- Hsum. rewrite <- (Qcplus_0_r x) at 1.
        by apply Qcplus_le_mono_l. }
      subst x. rewrite Qcplus_0_l in Hsum.
      constructor; [done|]. by apply IH.
    + intros Hall. apply Forall_cons in Hall as [-> Hall].
      apply IH in Hall. change (reduce_sum l = 0%Qc) in Hall.
      change (0 + reduce_sum l = 0)%Qc. rewrite Hall. ring.
Qed.

(** The code tests the sum of the clipped advantages; the specification
    speaks of all of them being zero.  They agree. *)
Lemma target_policy_normalized (action_values : list Qc) (baseline : Qc) :
  target_policy ((fun a => (a - baseline)%Qc) <$> action_values)
  = normalized_advantages action_values baseline.
Proof.
  unfold target_policy, normalized_advantages, clipped_advantages.
  rewrite <- list_fmap_compose. unfold compose.
  set (clipped := (fun a => Qc_max (a - baseline)%Qc 0%Qc) <$> action_values).
  assert (Hnn : Forall (fun x => (0 <= x)%Qc) clipped).
  { unfold clipped. apply Forall_fmap, Forall_true. intros a. simpl.
    apply Qc_max_0_nonneg. }
  pose proof (reduce_sum_zero_iff clipped Hnn) as Hiff.
  destruct (decide (reduce_sum clipped = 0%Qc)) as [Hz|Hnz].
  - rewrite bool_decide_eq_true_2 by (by apply Hiff). done.
  - rewrite bool_decide_eq_false_2; [done|]. intros Hall. by apply Hiff in Hall.
Qed.

(** C3: on a ChanceNode whose payoff has been computed and whose stored
    baseline is defined, [optimize] hands the on-policy distribution's
    [optimize] the visited values together with this target policy: each
    value's advantage (the current player's action value minus the current
    player's component of the baseline) clipped at zero and divided by the
    sum of the clipped advantages, or the uniform policy over the visited
    values when all clipped advantages are zero.  Action values [2, 5, 3]
    against baseline [3] give [0, 1, 0]. *)
Theorem ChanceNode_optimize_target_policy
  (fuel : nat) (h h1 : heap) (self : ref) (c : ChanceNode)
  (current_player : Z) (discount baseline : Qc) (values : list Qc) :
  h !! self = Some (ChanceNodeObj c) ->
  computed_payoff_estimate c <> VNone ->
  vindex (payoff_estimate c) current_player = Ok baseline ->
  children c <> [] ->
  action_values (compute_payoff fuel) current_player
    (effective_discount c discount) (dict_values (children c)) h
  = Ok (values, h1) ->
  (exists c1,
      h1 !! self = Some (ChanceNodeObj c1)
      /\ on_policy_distribution c1 = on_policy_distribution c
      /\ ChanceNode_optimize (compute_payoff fuel) self current_player discount h
         = let* d := DiscreteDistribution.optimize (on_policy_distribution c)
                       (dict_keys (children c))
                       (normalized_advantages values baseline) in
           Ok (<[self := ChanceNodeObj (set_on_policy_distribution d c1)]> h1))
  /\ length (normalized_advantages values baseline) = length (children c)
  /\ normalized_advantages [q 2; q 5; q 3] (q 3) = [0%Qc; 1%Qc; 0%Qc].
Proof.
  intros Hc Hm Hbase Hch Hvals.
  destruct (action_values_ext _ _ _ _ _ _ _ Hvals) as [Hext Hlen].
  destruct (heap_ext_chance_node _ _ _ _ Hext Hc) as (m & Hc1 & _).
  assert (Hn : length values = length (children c)).
  { rewrite Hlen. unfold dict_values. by rewrite length_fmap. }
  split; [|split].
  - exists (set_computed_payoff_estimate m c). split; [done|]. split; [done|].
    unfold ChanceNode_optimize.
    pose proof Hc as Hg. apply get_chance_node_Ok in Hg. rewrite Hg. simpl.
    apply is_none_false in Hm. rewrite Hm. rewrite Hbase. simpl.
    fold (effective_discount c discount).
    rewrite ChanceNode_optimize_loop_action_values, Hvals. simpl.
    rewrite length_fmap.
    assert (Hpos : (0 <? length values)%nat = true).
    { apply Nat.ltb_lt. rewrite Hn. destruct (children c); [done | simpl; lia]. }
    rewrite Hpos.
    pose proof Hc1 as Hg1. apply get_chance_node_Ok in Hg1. rewrite Hg1. simpl.
    rewrite target_policy_normalized.
    destruct (DiscreteDistribution.optimize _ _ _) as [d|]; simpl; [|done].
    unfold update_chance_node. rewrite Hg1. simpl. done.
  - unfold normalized_advantages, clipped_advantages.
    destruct (bool_decide _).
    + by rewrite length_replicate, length_fmap.
    + by rewrite !length_fmap.
  - unfold normalized_advantages.
    rewrite bool_decide_eq_false_2.
    + vm_compute. repeat (f_equal; try (apply Qc_is_canon; reflexivity)).
    + intros Hall. apply Forall_cons in Hall as [_ Hall].
      apply Forall_cons in Hall as [H5 _]. vm_compute in H5. discriminate H5.
Qed.

Lemma ChanceNode_optimize_target_policy_witness :
  exists c1,
    advantage_heap !! 1%nat = Some (ChanceNodeObj c1)
    /\ on_policy_distribution c1 = on_policy_distribution advantage_node
    /\ ChanceNode_optimize (compute_payoff 1) 1%nat 0 half advantage_heap
       = let* d := DiscreteDistribution.optimize
                     (on_policy_distribution advantage_node) [0; 1; 2]
                     (normalized_advantages [q 2; q 5; q 3] (q 3)) in
         Ok (<[1%nat := ChanceNodeObj (set_on_policy_distribution d c1)]>
               advantage_heap).
Proof.
  refine (proj1 (ChanceNode_optimize_target_policy 1 advantage_heap
                   advantage_heap 1%nat advantage_node 0 half (q 3)
                   [q 2; q 5; q 3] _ _ _ _ _));
    try reflexivity; try discriminate.
Defined.

(** The run above leaves the distribution [0, 1, 0] in the node. *)
Example advantage_run :
  match ChanceNode_optimize (compute_payoff 1) 1%nat 0 half advantage_heap with
  | Ok h' =>
      match h' !! 1%nat with
      | Some (ChanceNodeObj c') =>
          DiscreteDistribution.probs (on_policy_distribution c')
          = [0%Qc; 1%Qc; 0%Qc]
      | _ => False
      end
  | Err _ => False
  end.
Proof.
  vm_compute. repeat (f_equal; try (apply Qc_is_canon; reflexivity)).
Qed.

(** ** The phases of [ActionSchema.compute_payoff] *)

Lemma compute_payoff_each_app rec pre post d : forall h h',
  compute_payoff_each rec (pre ++ post) d h = Ok h'
  <-> exists hmid, compute_payoff_each rec pre d h = Ok hmid
                   /\ compute_payoff_each rec post d hmid = Ok h'.
Proof.
  induction pre as [|cn pre IH]; intros h h'; simpl.
  - split; [eauto|]. intros (hmid & Hmid & Hpost). by injection Hmid as ->.
  - split.
    + intros Hrun. bind_inv Hrun as [p h1] Hp.
      apply IH in Hrun as (hmid & Hpre & Hpost).
      exists hmid. rewrite Hp. simpl. done.
    + intros (hmid & Hrun & Hpost). bind_inv Hrun as [p h1] Hp.
      rewrite Hp. simpl. apply IH. eauto.
Qed.

(** An intermediate node never sees the caller's discount. *)
Lemma intermediate_ignores_discount fuel h self c d d' :
  h !! self = Some (ChanceNodeObj c) ->
  intermediate_action_schema_node c = true ->
  compute_payoff fuel self d h = compute_payoff fuel self d' h.
Proof.
  intros Hc Hflag. destruct fuel as [|n]; [done|]. simpl. rewrite Hc.
  unfold ChanceNode_compute_payoff.
  apply get_chance_node_Ok in Hc. rewrite Hc. simpl. by rewrite Hflag.
Qed.

(** * Further properties of the distributions *)

Lemma py_pos_None {A} (l : list A) v :
  ~ (- Z.of_nat (length l) <= v < Z.of_nat (length l)) -> py_pos l v = None.
Proof.
  intros Hout. unfold py_pos.
  destruct (0 <=? v) eqn:H0, (v <? Z.of_nat (length l)) eqn:H1; simpl;
    destruct (- Z.of_nat (length l) <=? v) eqn:H2, (v <? 0) eqn:H3; simpl;
    try done; exfalso; apply Hout;
    repeat match goal with
           | H : (_ <=? _) = true |- _ => apply Z.leb_le in H
           | H : (_ <=? _) = false |- _ => apply Z.leb_gt in H
           | H : (_ <? _) = true |- _ => apply Z.ltb_lt in H
           | H : (_ <? _) = false |- _ => apply Z.ltb_ge in H
           end; lia.
Qed.

Lemma py_setitem_length {A} (l l' : list A) v x :
  py_setitem l v x = Ok l' -> length l' = length l.
Proof.
  unfold py_setitem. destruct (py_pos l v); [|discriminate].
  intros H. injection H as <-. apply length_insert.
Qed.

Lemma optimize_loop_lookup (vps : list (Z * Qc)) : forall l l' : list Qc,
  NoDup vps.*1 ->
  (forall v, v ∈ vps.*1 -> 0 <= v < Z.of_nat (length l)) ->
  DiscreteDistribution.optimize_loop l vps = Ok l' ->
  (forall v p, (v, p) ∈ vps -> l' !! Z.to_nat v = Some p)
  /\ (forall v, 0 <= v -> v ∉ vps.*1 -> l' !! Z.to_nat v = l !! Z.to_nat v).
Proof.
  induction vps as [|[v p] rest IH]; intros l l' Hnd Hrange Hrun.
  - simpl in Hrun. injection Hrun as <-. split; [|done].
    intros v p Hin. by apply elem_of_nil in Hin.
  - rewrite fmap_cons in *. cbn [fst] in *.
    apply NoDup_cons in Hnd as [Hv Hnd].
    cbn [DiscreteDistribution.optimize_loop] in Hrun.
    assert (Hvr : 0 <= v < Z.of_nat (length l)) by (apply Hrange; left).
    unfold py_setitem in Hrun. rewrite (py_pos_in_range l v Hvr) in Hrun.
    simpl in Hrun.
    destruct (IH (<[Z.to_nat v := p]> l) l' Hnd) as [Hin Hout]; [|done|].
    { intros v' Hv'. rewrite length_insert. apply Hrange. by right. }
    split.
    + intros v' p' Hvp. apply elem_of_cons in Hvp as [Heq|Hvp].
      * injection Heq as -> ->. rewrite Hout by (done || lia).
        apply list_lookup_insert_eq. lia.
      * by apply Hin.
    + intros v' Hv'0 Hv'. apply not_elem_of_cons in Hv' as [Hne Hv'].
      rewrite Hout by done. apply list_lookup_insert_ne. lia.
Qed.

Lemma py_index_lookup {A} (l : list A) v x :
  0 <= v -> l !! Z.to_nat v = Some x -> py_index l v = Ok x.
Proof.
  intros H0 Hl. unfold py_index.
  rewrite py_pos_in_range.
  - by rewrite Hl.
  - apply lookup_lt_Some in Hl. lia.
Qed.

Lemma optimize_loop_Ok (vps : list (Z * Qc)) : forall l : list Qc,
  (forall v, v ∈ vps.*1 -> 0 <= v < Z.of_nat (length l)) ->
  exists l', DiscreteDistribution.optimize_loop l vps = Ok l'
             /\ length l' = length l.
Proof.
  induction vps as [|[v p] rest IH]; intros l Hrange.
  - exists l. done.
  - rewrite fmap_cons in Hrange. cbn [fst] in Hrange.
    cbn [DiscreteDistribution.optimize_loop].
    assert (Hvr : 0 <= v < Z.of_nat (length l)) by (apply Hrange; left).
    unfold py_setitem. rewrite (py_pos_in_range l v Hvr). simpl.
    destruct (IH (<[Z.to_nat v := p]> l)) as (l' & Hrun & Hlen).
    + intros v' Hv'. rewrite length_insert. apply Hrange. by right.
    + exists l'. split; [done|]. by rewrite length_insert in Hlen.
Qed.

(** X1: [optimize] is a direct assignment: afterwards every listed value has
    exactly the probability it was given and every other value of the
    support has probability zero. *)
Theorem DiscreteDistribution_optimize_assigns
  (d : DiscreteDistribution.t) (values : list Z) (probabilities : list Qc) :
  NoDup values ->
  Forall (fun v => 0 <= v < Z.of_nat (length (DiscreteDistribution.probs d))) values ->
  length values = length probabilities ->
  exists d',
    DiscreteDistribution.optimize d values probabilities = Ok d'
    /\ length (DiscreteDistribution.get_parameters d')
       = length (DiscreteDistribution.get_parameters d)
    /\ (forall i v p,
           values !! i = Some v -> probabilities !! i = Some p ->
           DiscreteDistribution.get_probability d' v = Ok (VNum p))
    /\ (forall v,
           0 <= v < Z.of_nat (length (DiscreteDistribution.probs d)) ->
           v ∉ values ->
           DiscreteDistribution.get_probability d' v = Ok (VNum 0%Qc)).
Proof.
  intros Hnd Hrange Hlen. rewrite Forall_forall in Hrange.
  set (n := length (DiscreteDistribution.probs d)) in *.
  unfold DiscreteDistribution.optimize. fold n.
  assert (Hr : forall v, v ∈ (zip values probabilities).*1 ->
                         0 <= v < Z.of_nat (length (replicate n 0%Qc))).
  { intros v Hv. rewrite fst_zip in Hv by lia. rewrite length_replicate. auto. }
  destruct (optimize_loop_Ok (zip values probabilities) (replicate n 0%Qc) Hr)
    as (l' & Hrun & Hlen').
  rewrite length_replicate in Hlen'.
  destruct (optimize_loop_lookup (zip values probabilities) (replicate n 0%Qc) l')
    as [Hin Hout]; [by rewrite fst_zip by lia | done | done |].
  rewrite Hrun. simpl. eexists. split; [done|].
  unfold DiscreteDistribution.get_parameters,
    DiscreteDistribution.get_probability. simpl.
  split; [done|]. split.
  - intros i v p Hv Hp.
    assert (Hvp : (v, p) ∈ zip values probabilities).
    { apply list_elem_of_lookup. exists i. rewrite lookup_zip_with, Hv. simpl.
      by rewrite Hp. }
    assert (0 <= v) by (apply (Hrange v); apply list_elem_of_lookup; eauto).
    rewrite (py_index_lookup l' v p); [done | done | by apply Hin].
  - intros v Hvr Hv.
    rewrite (py_index_lookup l' v 0%Qc); [done | lia |].
    rewrite Hout; [|lia | by rewrite fst_zip by lia].
    apply lookup_replicate_2. lia.
Qed.

Lemma DiscreteDistribution_optimize_assigns_witness :
  exists d',
    DiscreteDistribution.optimize {| DiscreteDistribution.probs := [half; half; 0%Qc] |}
      [2; 0] [Q2Qc (1 # 4); Q2Qc (3 # 4)] = Ok d'
    /\ DiscreteDistribution.get_probability d' 2 = Ok (VNum (Q2Qc (1 # 4)))
    /\ DiscreteDistribution.get_probability d' 1 = Ok (VNum 0%Qc).
Proof.
  destruct (DiscreteDistribution_optimize_assigns
              {| DiscreteDistribution.probs := [half; half; 0%Qc] |}
              [2; 0] [Q2Qc (1 # 4); Q2Qc (3 # 4)])
    as (d' & Hrun & _ & Hin & Hout).
  - repeat constructor; rewrite list_elem_of_In; simpl; intuition discriminate.
  - repeat constructor; simpl; lia.
  - reflexivity.
  - exists d'. split; [exact Hrun|]. split.
    + apply (Hin 0%nat); reflexivity.
    + apply Hout; [simpl; lia|].
      rewrite list_elem_of_In. simpl. intuition discriminate.
Defined.

(** X2: A value outside the support makes [optimize] raise [IndexError]
    ([probs[v] = p] on a Python list): nothing is clamped or skipped. *)
Theorem DiscreteDistribution_optimize_out_of_range
  (d : DiscreteDistribution.t) (values : list Z) (probabilities : list Qc)
  (v : Z) (p : Qc) :
  (v, p) ∈ zip values probabilities ->
  ~ (- Z.of_nat (length (DiscreteDistribution.probs d)) <= v
     < Z.of_nat (length (DiscreteDistribution.probs d))) ->
  DiscreteDistribution.optimize d values probabilities = Err IndexError.
Proof.
  intros Hin Hout. unfold DiscreteDistribution.optimize.
  set (n := length (DiscreteDistribution.probs d)) in *.
  assert (Hloop : forall vps (l : list Qc),
             length l = n -> (v, p) ∈ vps ->
             DiscreteDistribution.optimize_loop l vps = Err IndexError).
  { induction vps as [|[v' p'] rest IH]; intros l Hl Hvp.
    - by apply elem_of_nil in Hvp.
    - cbn [DiscreteDistribution.optimize_loop].
      destruct (py_setitem l v' p') as [l1|e] eqn:Hset; simpl.
      + apply IH; [by rewrite (py_setitem_length _ _ _ _ Hset)|].
        apply elem_of_cons in Hvp as [Heq|Hvp]; [|done].
        injection Heq as <- <-. unfold py_setitem in Hset.
        rewrite py_pos_None in Hset by (by rewrite Hl). discriminate.
      + unfold py_setitem in Hset. destruct (py_pos l v'); [discriminate|].
        by injection Hset as <-. }
  rewrite (Hloop (zip values probabilities) (replicate n 0%Qc));
    [done | apply length_replicate | done].
Qed.

Lemma DiscreteDistribution_optimize_out_of_range_witness :
  DiscreteDistribution.optimize {| DiscreteDistribution.probs := [half; half] |}
    [0; 2] [half; half] = Err IndexError.
Proof.
  apply (DiscreteDistribution_optimize_out_of_range _ _ _ 2 half).
  - rewrite list_elem_of_In. simpl. auto.
  - simpl. lia.
Defined.

(** X3: [set_parameters(get_parameters())] changes nothing, and
    [get_parameters] returns what [set_parameters] stored. *)
Theorem DiscreteDistribution_parameters_round_trip
  (d : DiscreteDistribution.t) (p : list Qc) :
  DiscreteDistribution.set_parameters d (DiscreteDistribution.get_parameters d) = d
  /\ DiscreteDistribution.get_parameters (DiscreteDistribution.set_parameters d p) = p.
Proof. by destruct d. Qed.

(** X4: The sample of a continuous distribution is the draw clipped into
    [[min, max]]: it lies in the interval, equals the draw when the draw
    does, and comes with probability [0.0]. *)
Theorem ContinuesDistribution_sample_clipped
  (self : ContinuesDistribution.t) (normal_draw : Qc) :
  (ContinuesDistribution.min self <= ContinuesDistribution.max self)%Qc ->
  (ContinuesDistribution.sample self normal_draw).1 = VNum 0%Qc
  /\ (ContinuesDistribution.min self
      <= (ContinuesDistribution.sample self normal_draw).2)%Qc
  /\ ((ContinuesDistribution.sample self normal_draw).2
      <= ContinuesDistribution.max self)%Qc
  /\ ((ContinuesDistribution.min self <= normal_draw)%Qc ->
      (normal_draw <= ContinuesDistribution.max self)%Qc ->
      (ContinuesDistribution.sample self normal_draw).2 = normal_draw).
Proof.
  intros Hmm. unfold ContinuesDistribution.sample,
    ContinuesDistribution.clip_by_value, Qc_max, Qc_min. simpl.
  set (lo := ContinuesDistribution.min self) in *.
  set (hi := ContinuesDistribution.max self) in *.
  split; [done|].
  destruct (Qclt_le_dec normal_draw hi) as [Hlt|Hge];
    [destruct (Qclt_le_dec normal_draw lo) as [Hlt'|Hge']
    |destruct (Qclt_le_dec hi lo) as [Hlt'|Hge']].
  - split; [apply Qcle_refl|]. split; [done|].
    intros Hlo _. exfalso. by apply (Qclt_not_le _ _ Hlt').
  - split; [done|]. split; [by apply Qclt_le_weak|]. done.
  - split; [apply Qcle_refl|]. split; [done|].
    intros _ _. exfalso. by apply (Qclt_not_le _ _ Hlt').
  - split; [done|]. split; [apply Qcle_refl|].
    intros _ Hhi. by apply Qcle_antisym.
Qed.

Lemma ContinuesDistribution_sample_clipped_witness :
  (ContinuesDistribution.sample (ContinuesDistribution.__init__ (q 1) (q 3)) (q 7)).2
  = q 3.
Proof.
  pose proof (ContinuesDistribution_sample_clipped
                (ContinuesDistribution.__init__ (q 1) (q 3)) (q 7)) as H.
  destruct H as (_ & _ & _ & _); [intros H; vm_compute in H; discriminate H|].
  reflexivity.
Defined.

(** X5: The initial location is half the width of the interval, which is its
    midpoint exactly when [min] is zero. *)
Theorem ContinuesDistribution_init_loc (min max : Qc) :
  ContinuesDistribution.loc (ContinuesDistribution.__init__ min max)
  = ((max - min) / Q2Qc 2)%Qc
  /\ (ContinuesDistribution.loc (ContinuesDistribution.__init__ min max)
      = ((min + max) / Q2Qc 2)%Qc <-> min = 0%Qc).
Proof.
  split; [done|]. simpl.
  assert (H2 : Q2Qc 2 <> 0%Qc) by (intros H; discriminate H).
  split.
  - intros Heq.
    assert (Hmul : ((max - min) / Q2Qc 2 * Q2Qc 2 = (min + max) / Q2Qc 2 * Q2Qc 2)%Qc)
      by (by rewrite Heq).
    assert (Hl : ((max - min) / Q2Qc 2 * Q2Qc 2 = max - min)%Qc) by (by field).
    assert (Hr : ((min + max) / Q2Qc 2 * Q2Qc 2 = min + max)%Qc) by (by field).
    rewrite Hl, Hr in Hmul.
    assert (Hz : (min + min = 0)%Qc).
    { replace (min + min)%Qc with ((min + max) - (max - min))%Qc by ring.
      rewrite Hmul. ring. }
    rewrite Qcplus_diag in Hz.
    destruct (Qcmult_integral _ _ Hz); done.
  - intros ->. by field.
Qed.

(** ** The target policy is a policy *)

Lemma reduce_sum_fmap_div (l : list Qc) s :
  s <> 0%Qc ->
  reduce_sum ((fun a => (a / s)%Qc) <$> l) = (reduce_sum l / s)%Qc.
Proof.
  intros Hs. induction l as [|x l IH].
  - simpl. by field.
  - rewrite fmap_cons. change (x / s + reduce_sum ((fun a => (a / s)%Qc) <$> l)
                               = (x + reduce_sum l) / s)%Qc.
    rewrite IH. by field.
Qed.

Lemma target_policy_distribution (advantages : list Qc) :
  advantages <> [] ->
  length (target_policy advantages) = length advantages
  /\ is_distribution (target_policy advantages).
Proof.
  intros Hne. unfold target_policy.
  set (clipped := (fun a => Qc_max a 0%Qc) <$> advantages).
  assert (Hlen : length clipped = length advantages)
    by (unfold clipped; by rewrite length_fmap).
  assert (Hpos : (0 < length clipped)%nat)
    by (rewrite Hlen; destruct advantages; [done | simpl; lia]).
  assert (Hnn : Forall (fun x => (0 <= x)%Qc) clipped).
  { unfold clipped. apply Forall_fmap, Forall_true. intros a.
    apply Qc_max_0_nonneg. }
  destruct (decide (reduce_sum clipped = 0%Qc)) as [Hz|Hnz].
  - rewrite length_replicate. split; [done|]. split.
    + apply Forall_replicate, Qc_inv_nonneg. by apply Qc_of_nat_pos.
    + by apply reduce_sum_uniform.
  - rewrite length_fmap. split; [done|].
    assert (Hs : (0 < reduce_sum clipped)%Qc).
    { destruct (Qcle_lt_or_eq _ _ (reduce_sum_nonneg clipped Hnn)); [done|].
      by destruct Hnz. }
    split.
    + apply Forall_fmap. eapply Forall_impl; [exact Hnn|].
      intros x Hx. simpl. unfold Qcdiv.
      apply Qcmult_nonneg_nonneg; [done|].
      apply Qclt_le_weak. by apply Qcinv_pos.
    + rewrite reduce_sum_fmap_div by done. by field.
Qed.

(** X6: Whatever the advantages of at least one visited value, the target
    policy has non-negative entries that sum to one. *)
Theorem target_policy_is_distribution (advantages : list Qc) :
  advantages <> [] ->
  length (target_policy advantages) = length advantages
  /\ is_distribution (target_policy advantages).
Proof. apply target_policy_distribution. Qed.

Lemma target_policy_is_distribution_witness :
  is_distribution (target_policy [q (-1); q 2; q 0]).
Proof.
  apply (target_policy_is_distribution [q (-1); q 2; q 0]). discriminate.
Defined.

(** * Further properties of the nodes *)

(** ** The [children] dict *)

Lemma dict_get_set_eq {V} k (v : V) d : dict_get k (dict_set k v d) = Some v.
Proof.
  induction d as [|[k' v'] d IH]; simpl.
  - by rewrite Z.eqb_refl.
  - destruct (k =? k') eqn:Hk; simpl; [by rewrite Z.eqb_refl | by rewrite Hk].
Qed.

Lemma dict_get_set_ne {V} k k' (v : V) d :
  k <> k' -> dict_get k' (dict_set k v d) = dict_get k' d.
Proof.
  intros Hne. induction d as [|[k'' v''] d IH]; simpl.
  - apply Z.eqb_neq in Hne. rewrite Z.eqb_sym in Hne. by rewrite Hne.
  - destruct (k =? k'') eqn:Hk; simpl.
    + apply Z.eqb_eq in Hk. subst k''.
      assert (Hf : (k' =? k) = false) by (apply Z.eqb_neq; congruence).
      by rewrite Hf.
    + destruct (k' =? k''); [done | apply IH].
Qed.

Lemma dict_keys_cons {V} k (v : V) d : dict_keys ((k, v) :: d) = k :: dict_keys d.
Proof. reflexivity. Qed.

Lemma dict_values_cons {V} k (v : V) d :
  dict_values ((k, v) :: d) = v :: dict_values d.
Proof. reflexivity. Qed.

Lemma dict_keys_set_known {V} k (v e : V) d :
  dict_get k d = Some e -> dict_keys (dict_set k v d) = dict_keys d.
Proof.
  induction d as [|[k' v'] d IH]; [done|].
  cbn [dict_get dict_set]. destruct (k =? k') eqn:Hk.
  - intros _. apply Z.eqb_eq in Hk. subst. by rewrite !dict_keys_cons.
  - intros Hget. by rewrite !dict_keys_cons, IH.
Qed.

Lemma dict_keys_set_new {V} k (v : V) d :
  dict_get k d = None -> dict_keys (dict_set k v d) = dict_keys d ++ [k].
Proof.
  induction d as [|[k' v'] d IH]; [done|].
  cbn [dict_get dict_set]. destruct (k =? k') eqn:Hk; [discriminate|].
  intros Hget. by rewrite !dict_keys_cons, IH.
Qed.

Lemma dict_get_None_keys {V} k (d : list (Z * V)) :
  dict_get k d = None <-> k ∉ dict_keys d.
Proof.
  induction d as [|[k' v'] d IH].
  - split; [intros _; apply not_elem_of_nil | done].
  - cbn [dict_get]. rewrite dict_keys_cons. destruct (k =? k') eqn:Hk.
    + apply Z.eqb_eq in Hk. subst. split; [discriminate|].
      intros Hn. exfalso. apply Hn. left.
    + apply Z.eqb_neq in Hk. rewrite IH. rewrite not_elem_of_cons. tauto.
Qed.

(** Keys stay distinct under [d[k] = v]. *)
Lemma dict_set_NoDup {V} k (v : V) d :
  NoDup (dict_keys d) -> NoDup (dict_keys (dict_set k v d)).
Proof.
  intros Hnd. destruct (dict_get k d) as [e|] eqn:Hget.
  - by rewrite (dict_keys_set_known k v e d Hget).
  - rewrite (dict_keys_set_new k v d Hget).
    apply NoDup_app. split; [done|]. split.
    + intros x Hx Hin. apply list_elem_of_singleton in Hin. subst x.
      by apply dict_get_None_keys in Hget.
    + apply NoDup_singleton.
Qed.

Lemma total_visits_set_visits k e n d :
  dict_get k d = Some e ->
  (total_visits (dict_values (dict_set k (set_visits n e) d)) + visits e
   = total_visits (dict_values d) + n)%nat.
Proof.
  induction d as [|[k' e'] d IH]; [done|].
  cbn [dict_get dict_set]. destruct (k =? k') eqn:Hk.
  - intros H. injection H as ->.
    rewrite !dict_values_cons, !total_visits_cons. simpl. lia.
  - intros Hget. rewrite !dict_values_cons, !total_visits_cons.
    specialize (IH Hget). lia.
Qed.

Lemma dict_values_set_Forall {V} (P : V -> Prop) k v (d : list (Z * V)) :
  P v -> Forall P (dict_values d) -> Forall P (dict_values (dict_set k v d)).
Proof.
  intros Hv. induction d as [|[k' v'] d IH].
  - intros _. by repeat constructor.
  - rewrite dict_values_cons. intros [Hv' Hd]%Forall_cons.
    cbn [dict_set]. destruct (k =? k'); rewrite dict_values_cons;
      constructor; auto.
Qed.

(** ** [ChanceNode.sample] and [ChanceNode.add] *)

(** What a successful [sample] does to the store. *)
Lemma ChanceNode_sample_Ok self sample_id h c pr im v nn h' :
  h !! self = Some (ChanceNodeObj c) ->
  ChanceNode_sample self sample_id h = Ok (pr, im, v, nn, h') ->
  v = sample_id
  /\ match dict_get v (children c) with
     | Some e =>
         nn = Some (node e)
         /\ h' = <[self := ChanceNodeObj
                             (set_children
                                (dict_set v (set_visits (visits e + 1) e) (children c))
                                (set_computed_payoff_estimate VNone c))]> h
     | None =>
         nn = None
         /\ h' = <[self := ChanceNodeObj (set_computed_payoff_estimate VNone c)]> h
     end.
Proof.
  intros Hc Hrun. unfold ChanceNode_sample in Hrun.
  bind_inv Hrun as h0 Hupd.
  apply update_chance_node_Ok in Hupd as (c0 & Hc0 & ->).
  rewrite Hc in Hc0. injection Hc0 as <-.
  bind_inv Hrun as c1 Hc1. apply get_chance_node_Ok in Hc1.
  rewrite lookup_insert_eq in Hc1. injection Hc1 as <-.
  bind_inv Hrun as [[pr' im'] v'] Hdraw.
  assert (Hv' : v' = sample_id).
  { simpl in Hdraw. destruct (off_policy_distribution c) as [off|].
    - bind_inv Hdraw as [p0 v0] Hs. unfold DiscreteDistribution.sample in Hs.
      bind_inv Hs as x Hx. injection Hs as <- <-.
      bind_inv Hdraw as op Hop. bind_inv Hdraw as i0 Hi0.
      by injection Hdraw as <- <- <-.
    - bind_inv Hdraw as [p0 v0] Hs. unfold DiscreteDistribution.sample in Hs.
      bind_inv Hs as x Hx. injection Hs as <- <-.
      by injection Hdraw as <- <- <-. }
  subst v'. simpl in Hrun.
  destruct (dict_get sample_id (children c)) as [e|] eqn:Hget.
  - bind_inv Hrun as h2 Hupd.
    apply update_chance_node_Ok in Hupd as (c2 & Hc2 & ->).
    rewrite lookup_insert_eq in Hc2. injection Hc2 as <-.
    injection Hrun as <- <- <- <- <-. rewrite Hget.
    split; [done|]. split; [done|]. by rewrite insert_insert_eq.
  - injection Hrun as <- <- <- <- <-. rewrite Hget. done.
Qed.

(** X7: [sample] clears the memo, keeps the keys of [children], raises the visit
    count of a known value by exactly one and returns its child, leaves
    [children] as it is for an unknown value (returning no node), and
    touches no other object. *)
Theorem ChanceNode_sample_visits
  (self : ref) (sample_id : Z) (h h' : heap) (c : ChanceNode)
  (pr im : val) (v : Z) (nn : option ref) :
  h !! self = Some (ChanceNodeObj c) ->
  ChanceNode_sample self sample_id h = Ok (pr, im, v, nn, h') ->
  exists c',
    h' !! self = Some (ChanceNodeObj c')
    /\ computed_payoff_estimate c' = VNone
    /\ dict_keys (children c') = dict_keys (children c)
    /\ on_policy_distribution c' = on_policy_distribution c
    /\ match dict_get v (children c) with
       | Some e =>
           nn = Some (node e)
           /\ total_visits (dict_values (children c'))
              = S (total_visits (dict_values (children c)))
           /\ (exists e', dict_get v (children c') = Some e'
                          /\ visits e' = S (visits e)
                          /\ node e' = node e
                          /\ direkt_reward e' = direkt_reward e)
       | None => nn = None /\ children c' = children c
       end
    /\ forall r, r <> self -> h' !! r = h !! r.
Proof.
  intros Hc Hrun.
  destruct (ChanceNode_sample_Ok _ _ _ _ _ _ _ _ _ Hc Hrun) as [-> Hcase].
  destruct (dict_get sample_id (children c)) as [e|] eqn:Hget;
    destruct Hcase as [-> ->]; eexists; rewrite lookup_insert_eq;
    (split; [done|]); simpl; (split; [done|]).
  - split; [by apply (dict_keys_set_known _ _ e)|]. split; [done|]. split.
    + split; [done|]. split.
      * pose proof (total_visits_set_visits sample_id e (visits e + 1)
                      (children c) Hget). lia.
      * eexists. rewrite dict_get_set_eq. split; [done|]. simpl.
        split; [lia | done].
    + intros r Hr. by rewrite lookup_insert_ne.
  - split; [done|]. split; [done|]. split; [done|].
    intros r Hr. by rewrite lookup_insert_ne.
Qed.

Lemma ChanceNode_sample_visits_witness :
  exists c' h' pr im nn,
    ChanceNode_sample 2%nat 0 chain_heap = Ok (pr, im, 0, nn, h')
    /\ h' !! 2%nat = Some (ChanceNodeObj c')
    /\ total_visits (dict_values (children c')) = 2%nat.
Proof.
  destruct (ChanceNode_sample 2%nat 0 chain_heap) as [[[[[pr im] v] nn] h']|e] eqn:Hrun;
    [|vm_compute in Hrun; discriminate Hrun].
  assert (Hv : v = 0) by (vm_compute in Hrun; by injection Hrun as _ _ <- _ _).
  subst v.
  destruct (ChanceNode_sample_visits 2%nat 0 chain_heap h'
              (mk_chance [(0, mk_entry 1%Qc 1 [q 2] 3%nat)] VNone false)
              pr im 0 nn eq_refl Hrun)
    as (c' & Hc' & _ & _ & _ & Hcase & _).
  simpl in Hcase. destruct Hcase as (_ & Htotal & _).
  exists c', h', pr, im, nn. done.
Defined.

(** X8: [add] registers the value with visit count 1, the given reward and
    child; other values keep their entries, and distinct keys stay
    distinct. *)
Theorem ChanceNode_add_registers
  (self : ref) (pr imp : val) (value : Z) (reward : val) (child : ref)
  (h : heap) (c : ChanceNode) :
  h !! self = Some (ChanceNodeObj c) ->
  exists c',
    ChanceNode_add self pr imp value reward child h
    = Ok (<[self := ChanceNodeObj c']> h)
    /\ dict_get value (children c')
       = Some {| probability := pr; importance := imp; visits := 1;
                 direkt_reward := reward; node := child |}
    /\ (forall v, v <> value -> dict_get v (children c') = dict_get v (children c))
    /\ (NoDup (dict_keys (children c)) -> NoDup (dict_keys (children c')))
    /\ computed_payoff_estimate c' = computed_payoff_estimate c.
Proof.
  intros Hc. unfold ChanceNode_add.
  pose proof Hc as Hg. apply get_chance_node_Ok in Hg. rewrite Hg. simpl.
  unfold update_chance_node. rewrite Hg. simpl.
  eexists. split; [done|]. simpl. split; [apply dict_get_set_eq|].
  split; [|split; [apply dict_set_NoDup | done]].
  intros v Hv. apply dict_get_set_ne. congruence.
Qed.

Lemma ChanceNode_add_registers_witness :
  exists c',
    ChanceNode_add 1%nat (VNum half) (VNum 1%Qc) 0 (VVec [q 1; q 0]) 2%nat fresh_heap
    = Ok (<[1%nat := ChanceNodeObj c']> fresh_heap)
    /\ dict_keys (children c') = [0].
Proof.
  destruct (ChanceNode_add_registers 1%nat (VNum half) (VNum 1%Qc) 0
              (VVec [q 1; q 0]) 2%nat fresh_heap fresh_chance_node eq_refl)
    as (c' & Hrun & _).
  exists c'. split; [exact Hrun|].
  vm_compute in Hrun. injection Hrun as <-. reflexivity.
Defined.

(** X9: Visit counts start at one and only grow: [add] and [sample] keep every
    entry's visit count positive, so a node with children that was built
    through them has a positive visit total and never takes the
    [tf.zeros] branch of [compute_payoff]. *)
Theorem ChanceNode_visits_positive
  (self : ref) (h : heap) (c : ChanceNode) :
  h !! self = Some (ChanceNodeObj c) ->
  visits_positive c ->
  (forall pr imp value reward child h',
      ChanceNode_add self pr imp value reward child h = Ok h' ->
      exists c', h' !! self = Some (ChanceNodeObj c') /\ visits_positive c')
  /\ (forall sample_id pr im v nn h',
         ChanceNode_sample self sample_id h = Ok (pr, im, v, nn, h') ->
         exists c', h' !! self = Some (ChanceNodeObj c') /\ visits_positive c')
  /\ (children c <> [] -> (0 < total_visits (dict_values (children c)))%nat).
Proof.
  intros Hc Hpos. split; [|split].
  - intros pr imp value reward child h' Hrun.
    unfold ChanceNode_add in Hrun.
    pose proof Hc as Hg. apply get_chance_node_Ok in Hg.
    rewrite Hg in Hrun. simpl in Hrun. unfold update_chance_node in Hrun.
    rewrite Hg in Hrun. simpl in Hrun. injection Hrun as <-.
    eexists. rewrite lookup_insert_eq. split; [done|].
    unfold visits_positive. simpl. by apply dict_values_set_Forall.
  - intros sample_id pr im v nn h' Hrun.
    destruct (ChanceNode_sample_Ok _ _ _ _ _ _ _ _ _ Hc Hrun) as [-> Hcase].
    destruct (dict_get sample_id (children c)) as [e|];
      destruct Hcase as [-> ->]; eexists; rewrite lookup_insert_eq;
      (split; [done|]); unfold visits_positive; simpl; [|done].
    apply dict_values_set_Forall; [simpl; lia | done].
  - intros Hch. unfold visits_positive in Hpos.
    destruct (children c) as [|[k e] rest]; [done|].
    rewrite dict_values_cons in *. apply Forall_cons in Hpos as [He _].
    rewrite total_visits_cons. lia.
Qed.

Lemma ChanceNode_visits_positive_witness :
  (0 < total_visits (dict_values [(0%Z, mk_entry 1%Qc 1 [q 2] 3%nat)]))%nat.
Proof.
  refine (proj2 (proj2 (ChanceNode_visits_positive 2%nat chain_heap
            (mk_chance [(0, mk_entry 1%Qc 1 [q 2] 3%nat)] VNone false) eq_refl _)) _).
  - repeat constructor.
  - discriminate.
Defined.

(** X10: [optimize] takes its baseline from [payoff_estimate], not from the memo:
    on a node whose payoff has been computed but whose [payoff_estimate] was
    never set it raises [TypeError] at [node_value[current_player]]. *)
Theorem ChanceNode_optimize_needs_payoff_estimate
  (fuel : nat) (h : heap) (self : ref) (c : ChanceNode)
  (current_player : Z) (discount : Qc) :
  h !! self = Some (ChanceNodeObj c) ->
  computed_payoff_estimate c <> VNone ->
  payoff_estimate c = VNone ->
  ChanceNode_optimize (compute_payoff fuel) self current_player discount h
  = Err TypeError.
Proof.
  intros Hc Hm Hpe. unfold ChanceNode_optimize.
  apply get_chance_node_Ok in Hc. rewrite Hc. simpl.
  apply is_none_false in Hm. rewrite Hm, Hpe. done.
Qed.

Lemma ChanceNode_optimize_needs_payoff_estimate_witness :
  exists v h1,
    compute_payoff 3 2%nat half chain_heap = Ok (v, h1)
    /\ ChanceNode_optimize (compute_payoff 3) 2%nat 0 half h1 = Err TypeError.
Proof.
  eexists. eexists. split; [vm_compute; reflexivity|].
  eapply ChanceNode_optimize_needs_payoff_estimate;
    [reflexivity | discriminate | reflexivity].
Defined.

(** X11: A payoff that has been memoised answers every later call, whatever
    discount the later call passes. *)
Theorem ChanceNode_memo_ignores_discount
  (fuel fuel' : nat) (self : ref) (c : ChanceNode) (d d' : Qc) (h h1 : heap)
  (v : val) :
  h !! self = Some (ChanceNodeObj c) ->
  compute_payoff fuel self d h = Ok (v, h1) ->
  v <> VNone ->
  compute_payoff (S fuel') self d' h1 = Ok (v, h1).
Proof.
  intros Hc Hrun Hv.
  destruct (compute_payoff_sets_memo _ _ _ _ _ _ _ Hc Hrun) as (c1 & Hc1 & Hm & _).
  rewrite <- Hm. apply compute_payoff_memo_hit; [done|]. by rewrite Hm.
Qed.

Lemma ChanceNode_memo_ignores_discount_witness :
  exists h1,
    compute_payoff 3 2%nat half chain_heap = Ok (VVec [q 6], h1)
    /\ compute_payoff 1 2%nat 1%Qc h1 = Ok (VVec [q 6], h1).
Proof.
  eexists. split; [vm_compute; reflexivity|].
  eapply (ChanceNode_memo_ignores_discount 3 0 2%nat _ half 1%Qc chain_heap);
    [reflexivity | vm_compute; reflexivity | discriminate].
Defined.

(** X12: [compute_payoff] writes memoised payoffs and nothing else: it creates
    and removes no object, leaves Leaf, ActionSchema and StateNode objects
    alone, keeps every ChanceNode's distributions, children, prior estimate
    and flag, and never overwrites a memo that was set when the call
    began. *)
Theorem compute_payoff_frame
  (fuel : nat) (self : ref) (d : Qc) (h h' : heap) (v : val) :
  compute_payoff fuel self d h = Ok (v, h') ->
  forall r,
    match h !! r with
    | None => h' !! r = None
    | Some (ChanceNodeObj c) =>
        exists c',
          h' !! r = Some (ChanceNodeObj c')
          /\ on_policy_distribution c' = on_policy_distribution c
          /\ off_policy_distribution c' = off_policy_distribution c
          /\ children c' = children c
          /\ payoff_estimate c' = payoff_estimate c
          /\ intermediate_action_schema_node c' = intermediate_action_schema_node c
          /\ (computed_payoff_estimate c <> VNone ->
              computed_payoff_estimate c' = computed_payoff_estimate c)
    | Some o => h' !! r = Some o
    end.
Proof.
  intros Hrun r. apply compute_payoff_ext in Hrun. specialize (Hrun r).
  destruct (h !! r) as [[|c|a|s]|]; try done;
    destruct Hrun as (o' & Ho' & Hext); simpl in Hext; subst; try done.
  destruct Hext as (m & -> & Hm). eexists. split; [done|]. simpl.
  repeat split; done.
Qed.

Lemma compute_payoff_frame_witness :
  exists h', compute_payoff 5 0%nat half chain_heap = Ok (VVec [q 7], h')
             /\ h' !! 0%nat = chain_heap !! 0%nat.
Proof.
  eexists. split; [vm_compute; reflexivity|].
  match goal with
  | |- ?h' !! _ = _ =>
      pose proof (compute_payoff_frame 5 0%nat half chain_heap h' (VVec [q 7])
                    ltac:(vm_compute; reflexivity) 0%nat) as H
  end.
  exact H.
Defined.

(** X13: A cycle through a node without memo never returns: whatever the depth
    allowed, the call ends in [RecursionError]. *)
Theorem compute_payoff_self_loop
  (fuel : nat) (h : heap) (self : ref) (c : ChanceNode) (d : Qc)
  (k : Z) (e : ChildEntry) (rest : list (Z * ChildEntry)) :
  h !! self = Some (ChanceNodeObj c) ->
  computed_payoff_estimate c = VNone ->
  children c = (k, e) :: rest ->
  node e = self ->
  compute_payoff fuel self d h = Err RecursionError.
Proof.
  intros Hc Hm Hch He. revert d.
  induction fuel as [|n IH]; intros d; [done|].
  simpl. rewrite Hc. unfold ChanceNode_compute_payoff.
  pose proof Hc as Hg. apply get_chance_node_Ok in Hg. rewrite Hg. simpl.
  rewrite Hm, Hch. simpl. rewrite He, IH. done.
Qed.

Lemma compute_payoff_self_loop_witness :
  compute_payoff 1000 1%nat half self_loop_heap = Err RecursionError.
Proof.
  apply (compute_payoff_self_loop 1000 self_loop_heap 1%nat
           (mk_chance [(0, mk_entry 1%Qc 1 [q 1] 1%nat)] VNone false) half
           0 (mk_entry 1%Qc 1 [q 1] 1%nat) []); reflexivity.
Defined.

(** ** Nodes with a single visited value *)

Lemma compute_payoff_no_children fuel h self c d :
  h !! self = Some (ChanceNodeObj c) ->
  computed_payoff_estimate c = VNone ->
  children c = [] ->
  compute_payoff (S fuel) self d h
  = Ok (payoff_estimate c,
        <[self := ChanceNodeObj
                    (set_computed_payoff_estimate (payoff_estimate c) c)]> h).
Proof.
  intros Hc Hm Hch. simpl. rewrite Hc. unfold ChanceNode_compute_payoff.
  pose proof Hc as Hg. apply get_chance_node_Ok in Hg.
  rewrite Hg. simpl. rewrite Hm, Hch. simpl.
  unfold update_chance_node. rewrite Hg. simpl. done.
Qed.

Lemma lone_child_arithmetic (n : nat) (imp d : Qc) (r p : list Qc) :
  length r = length p ->
  (fun y => (y / Qc_of_nat (S n))%Qc)
    <$> (Qcplus 0%Qc
           <$> (Qcmult (Qc_of_nat (S n) * imp)%Qc
                  <$> zip_with Qcplus r (Qcmult d <$> p)))
  = zip_with (fun a b => (imp * (a + d * b))%Qc) r p.
Proof.
  assert (Hn : Qc_of_nat (S n) <> 0%Qc) by (apply Qc_of_nat_neq_0; lia).
  revert p. induction r as [|a r IH]; intros [|b p] Hlen; try done.
  simpl in Hlen. rewrite !fmap_cons. simpl zip_with. rewrite !fmap_cons.
  rewrite IH by lia. f_equal. by field.
Qed.

(** The run of a node whose single entry has a positive visit count, a
    scalar importance and a reward vector as wide as the child's payoff. *)
Lemma lone_child_run fuel h h1 self c discount k e n imp r p :
  h !! self = Some (ChanceNodeObj c) ->
  computed_payoff_estimate c = VNone ->
  children c = [(k, e)] ->
  visits e = S n ->
  importance e = VNum imp ->
  direkt_reward e = VVec r ->
  length r = length p ->
  compute_payoff fuel (node e) (effective_discount c discount) h
  = Ok (VVec p, h1) ->
  exists c1,
    h1 !! self = Some (ChanceNodeObj c1)
    /\ compute_payoff (S fuel) self discount h
       = Ok (VVec (zip_with (fun a b =>
                               (imp * (a + effective_discount c discount * b))%Qc)
                            r p),
             <[self := ChanceNodeObj
                         (set_computed_payoff_estimate
                            (VVec (zip_with
                                     (fun a b =>
                                        (imp * (a + effective_discount c discount * b))%Qc)
                                     r p)) c1)]> h1).
Proof.
  intros Hc Hm Hch Hv Himp Hr Hlen Hchild.
  destruct (ChanceNode_compute_payoff_run fuel h self c discount [VVec p] h1
              (VVec (Qcplus 0%Qc
                       <$> (Qcmult (Qc_of_nat (S n) * imp)%Qc
                              <$> zip_with Qcplus r
                                    (Qcmult (effective_discount c discount) <$> p)))))
    as (payoff & c1 & Hpay & Hc1 & Hrun); try done.
  - by rewrite Hch.
  - rewrite Hch. simpl. rewrite Hchild. done.
  - rewrite Hch. simpl. unfold weighted_action_value.
    rewrite Hv, Himp, Hr. unfold vmul, vadd. simpl.
    rewrite length_fmap. apply Nat.eqb_eq in Hlen. rewrite Hlen. simpl. done.
  - rewrite Hch in Hpay. rewrite dict_values_cons, total_visits_cons, Hv in Hpay.
    replace (S n + total_visits (dict_values []))%nat with (S n) in Hpay
      by (unfold total_visits; simpl; lia).
    cbn [Nat.eqb vdiv_int] in Hpay.
    rewrite lone_child_arithmetic in Hpay by done.
    injection Hpay as <-. exists c1. done.
Qed.

(** X15: With a single visited value the visit count cancels: the payoff is the
    importance times the action value, for every player.  The average is
    weighted by the importance but not divided by it. *)
Theorem ChanceNode_compute_payoff_lone_child
  (fuel : nat) (h h1 : heap) (self : ref) (c : ChanceNode) (discount : Qc)
  (k : Z) (e : ChildEntry) (imp : Qc) (r p : list Qc) :
  h !! self = Some (ChanceNodeObj c) ->
  computed_payoff_estimate c = VNone ->
  children c = [(k, e)] ->
  (0 < visits e)%nat ->
  importance e = VNum imp ->
  direkt_reward e = VVec r ->
  length r = length p ->
  compute_payoff fuel (node e) (effective_discount c discount) h
  = Ok (VVec p, h1) ->
  exists h2,
    compute_payoff (S fuel) self discount h
    = Ok (VVec (zip_with (fun a b =>
                            (imp * (a + effective_discount c discount * b))%Qc)
                         r p), h2).
Proof.
  intros Hc Hm Hch Hv Himp Hr Hlen Hchild.
  destruct (visits e) as [|n] eqn:Hn; [lia|].
  destruct (lone_child_run fuel h h1 self c discount k e n imp r p)
    as (c1 & _ & Hrun); try done.
  eauto.
Qed.

Lemma ChanceNode_compute_payoff_lone_child_witness :
  exists h2,
    compute_payoff 3 2%nat half chain_heap
    = Ok (VVec (zip_with (fun a b => (1 * (a + half * b))%Qc) [q 2] [q 8]), h2).
Proof.
  apply (ChanceNode_compute_payoff_lone_child 2 chain_heap
           (<[3%nat := ChanceNodeObj
                         (set_computed_payoff_estimate (VVec [q 8])
                            (mk_chance [] (VVec [q 8]) false))]> chain_heap)
           2%nat (mk_chance [(0, mk_entry 1%Qc 1 [q 2] 3%nat)] VNone false)
           half 0 (mk_entry 1%Qc 1 [q 2] 3%nat) 1%Qc [q 2] [q 8]);
    try reflexivity.
  simpl. lia.
Defined.

(** ** Discount isolation *)

Lemma compute_payoff_schema fuel h self a d :
  h !! self = Some (ActionSchemaObj a) ->
  compute_payoff (S fuel) self d h
  = let* h1 := compute_payoff_each (compute_payoff fuel) (leafs a) d h in
    let* h2 := compute_payoff_each (compute_payoff fuel) (chance_nodes a) 1%Qc h1 in
    let* root := ActionSchema_root_node a in
    compute_payoff fuel root 1%Qc h2.
Proof.
  intros Ha. simpl. rewrite Ha. unfold ActionSchema_compute_payoff,
    get_action_schema. by rewrite Ha.
Qed.

(** X16: For a schema whose intermediate root feeds one leaf node, whatever the
    rewards, importances, (positive) visit counts and the payoff [x] behind
    the leaf: [compute_payoff(d)] returns
    [i1 * (r1 + 1 * (i2 * (r2 + d * x)))].  The discount multiplies the payoff
    entering the leaf node, once, and the leaf's payoff enters the root
    with factor one. *)
Theorem ActionSchema_discount_isolation
  (d r1 r2 x i1 i2 : Qc) (n1 n2 : nat) :
  (0 < n1)%nat -> (0 < n2)%nat ->
  exists h',
    compute_payoff 5 0%nat d (chain_heap_of r1 r2 x i1 i2 n1 n2)
    = Ok (VVec [(i1 * (r1 + 1 * (i2 * (r2 + d * x))))%Qc], h').
Proof.
  intros Hn1 Hn2.
  destruct n1 as [|n1]; [lia|]. destruct n2 as [|n2]; [lia|].
  set (h0 := chain_heap_of r1 r2 x i1 i2 (S n1) (S n2)).
  set (c1 := mk_chance [(0, chain_entry i1 (S n1) r1 2%nat)] VNone true).
  set (c2 := mk_chance [(0, chain_entry i2 (S n2) r2 3%nat)] VNone false).
  set (c3 := mk_chance [] (VVec [x]) false).
  set (hA := <[3%nat := ChanceNodeObj
                          (set_computed_payoff_estimate (VVec [x]) c3)]> h0).
  assert (H3 : compute_payoff 3 3%nat d h0 = Ok (VVec [x], hA)).
  { apply (compute_payoff_no_children 2 h0 3%nat c3 d); reflexivity. }
  (* the leaf node, with the caller's discount *)
  destruct (lone_child_run 3 h0 hA 2%nat c2 d 0 (chain_entry i2 (S n2) r2 3%nat)
              n2 i2 [r2] [x] eq_refl eq_refl eq_refl eq_refl eq_refl eq_refl
              eq_refl H3) as (c2' & Hc2' & Hleaf).
  assert (Hl2 : Some (ChanceNodeObj c2') = Some (ChanceNodeObj c2))
    by (rewrite <- Hc2'; reflexivity).
  injection Hl2 as ->.
  simpl zip_with in Hleaf. change (effective_discount c2 d) with d in Hleaf.
  set (pL := (i2 * (r2 + d * x))%Qc) in *.
  set (hB := <[2%nat := ChanceNodeObj
                          (set_computed_payoff_estimate (VVec [pL]) c2)]> hA) in *.
  (* the root, an intermediate node, finds the leaf's memo *)
  assert (HmemoB : forall fuel dd, compute_payoff (S fuel) 2%nat dd hB
                                   = Ok (VVec [pL], hB)).
  { intros fuel dd.
    apply (compute_payoff_memo_hit fuel 2%nat
             (set_computed_payoff_estimate (VVec [pL]) c2) dd hB);
      [reflexivity | discriminate]. }
  destruct (lone_child_run 3 hB hB 1%nat c1 1%Qc 0 (chain_entry i1 (S n1) r1 2%nat)
              n1 i1 [r1] [pL] eq_refl eq_refl eq_refl eq_refl eq_refl eq_refl
              eq_refl (HmemoB 2%nat 1%Qc)) as (c1' & Hc1' & Hroot).
  assert (Hl1 : Some (ChanceNodeObj c1') = Some (ChanceNodeObj c1))
    by (rewrite <- Hc1'; reflexivity).
  injection Hl1 as ->.
  simpl zip_with in Hroot. change (effective_discount c1 1%Qc) with 1%Qc in Hroot.
  set (pR := (i1 * (r1 + 1 * pL))%Qc) in *.
  set (hC := <[1%nat := ChanceNodeObj
                          (set_computed_payoff_estimate (VVec [pR]) c1)]> hB) in *.
  assert (HmemoC2 : compute_payoff 4 2%nat 1%Qc hC = Ok (VVec [pL], hC)).
  { apply (compute_payoff_memo_hit 3 2%nat
             (set_computed_payoff_estimate (VVec [pL]) c2) 1%Qc hC);
      [reflexivity | discriminate]. }
  assert (HmemoC1 : compute_payoff 4 1%nat 1%Qc hC = Ok (VVec [pR], hC)).
  { apply (compute_payoff_memo_hit 3 1%nat
             (set_computed_payoff_estimate (VVec [pR]) c1) 1%Qc hC);
      [reflexivity | discriminate]. }
  exists hC.
  rewrite (compute_payoff_schema 4 h0 0%nat
             {| root_node_index := 0; chance_nodes := [1%nat; 2%nat];
                leafs := [2%nat] |} d eq_refl).
  change (ActionSchema_root_node _) with (Ok (A := ref) 1%nat).
  assert (Hleaf' : compute_payoff 4 2%nat d h0 = Ok (VVec [pL], hB))
    by exact Hleaf.
  assert (Hroot' : compute_payoff 4 1%nat 1%Qc hB = Ok (VVec [pR], hC))
    by exact Hroot.
  clear Hleaf Hroot. clearbody h0 hA hB hC pL pR.
  cbn [leafs chance_nodes compute_payoff_each].
  rewrite Hleaf'. cbn [rbind]. rewrite Hroot'. cbn [rbind].
  rewrite HmemoC2. cbn [rbind].
  exact HmemoC1.
Qed.

(** The instance checked in the specification: discount one half. *)
Lemma ActionSchema_discount_isolation_witness :
  exists h',
    compute_payoff 5 0%nat half (chain_heap_of (q 1) (q 2) (q 8) 1%Qc 1%Qc 1 1)
    = Ok (VVec [(1 * (q 1 + 1 * (1 * (q 2 + half * q 8))))%Qc], h').
Proof.
  apply (ActionSchema_discount_isolation half (q 1) (q 2) (q 8) 1%Qc 1%Qc 1 1); lia.
Defined.

(** ** Construction and sampling of an ActionSchema *)

Lemma find_leaf_nodes_loop_childless self root all : forall todo done h,
  h !! self = Some (ActionSchemaObj {| root_node_index := root;
                                       chance_nodes := all; leafs := done |}) ->
  (forall cn, cn ∈ todo ->
              exists c, h !! cn = Some (ChanceNodeObj c) /\ children c = []) ->
  find_leaf_nodes_loop self all todo h
  = Ok (<[self := ActionSchemaObj {| root_node_index := root;
                                      chance_nodes := all;
                                      leafs := done ++ todo |}]> h).
Proof.
  induction todo as [|cn rest IH]; intros done h Hs Hall.
  - simpl. rewrite app_nil_r. by rewrite insert_id.
  - destruct (Hall cn) as (c & Hc & Hch); [left|].
    cbn [find_leaf_nodes_loop].
    pose proof Hc as Hg. apply get_chance_node_Ok in Hg. rewrite Hg. cbn [rbind].
    rewrite Hch. cbn [dict_values fmap list_fmap find_leaf_nodes_inner rbind].
    unfold leafs_append, get_action_schema. rewrite Hs. cbn [rbind].
    cbn [root_node_index chance_nodes leafs].
    rewrite (IH (done ++ [cn])).
    + rewrite insert_insert_eq. by rewrite <- app_assoc.
    + apply lookup_insert_eq.
    + intros cn' Hcn'. destruct (Hall cn') as (c' & Hc' & Hch'); [by right|].
      exists c'. split; [|done]. rewrite lookup_insert_ne; [done|].
      intros <-. rewrite Hs in Hc'. discriminate.
Qed.

Lemma find_leaf_nodes_loop_fails self root all : forall todo done h,
  h !! self = Some (ActionSchemaObj {| root_node_index := root;
                                       chance_nodes := all; leafs := done |}) ->
  (forall cn, cn ∈ todo -> exists c, h !! cn = Some (ChanceNodeObj c)) ->
  (exists cn c, cn ∈ todo /\ h !! cn = Some (ChanceNodeObj c) /\ children c <> []) ->
  find_leaf_nodes_loop self all todo h = Err ValueError.
Proof.
  induction todo as [|cn rest IH]; intros done h Hs Hall (bad & cb & Hin & Hb & Hch).
  - by apply elem_of_nil in Hin.
  - destruct (Hall cn) as (c & Hc); [left|].
    cbn [find_leaf_nodes_loop].
    pose proof Hc as Hg. apply get_chance_node_Ok in Hg. rewrite Hg. cbn [rbind].
    destruct (children c) as [|[k e] entries] eqn:Hchildren.
    + cbn [dict_values fmap list_fmap find_leaf_nodes_inner rbind].
      unfold leafs_append, get_action_schema. rewrite Hs. cbn [rbind].
      cbn [root_node_index chance_nodes leafs].
      apply (IH (done ++ [cn])).
      * apply lookup_insert_eq.
      * intros cn' Hcn'. destruct (Hall cn') as (c' & Hc'); [by right|].
        exists c'. rewrite lookup_insert_ne; [done|].
        intros <-. rewrite Hs in Hc'. discriminate.
      * apply elem_of_cons in Hin as [->|Hin].
        { rewrite Hc in Hb. injection Hb as <-. by rewrite Hchildren in Hch. }
        exists bad, cb. split; [done|]. split; [|done].
        rewrite lookup_insert_ne; [done|].
        intros <-. rewrite Hs in Hb. discriminate.
    + rewrite dict_values_cons. done.
Qed.

(** X17: What the constructor of an ActionSchema does on ChanceNodes: if no
    member has a child yet it returns, every member is a leaf and no node is
    flagged; if some member has a child it raises [ValueError], since the
    entries of [children] have five items and the loop unpacks three. *)
Theorem ActionSchema_init_on_members
  (self : ref) (members : list ref) (root : Z) (h : heap) :
  self ∉ members ->
  (forall cn, cn ∈ members -> exists c, h !! cn = Some (ChanceNodeObj c)) ->
  ((forall cn c, cn ∈ members -> h !! cn = Some (ChanceNodeObj c) ->
                 children c = []) ->
   ActionSchema__init__ self members root h
   = Ok (<[self := ActionSchemaObj {| root_node_index := root;
                                       chance_nodes := members;
                                       leafs := members |}]> h))
  /\ ((exists cn c, cn ∈ members /\ h !! cn = Some (ChanceNodeObj c)
                    /\ children c <> []) ->
      ActionSchema__init__ self members root h = Err ValueError).
Proof.
  intros Hself Hall.
  set (a0 := {| root_node_index := root; chance_nodes := members; leafs := [] |}).
  assert (Hs : <[self := ActionSchemaObj a0]> h !! self = Some (ActionSchemaObj a0))
    by apply lookup_insert_eq.
  assert (Hne : forall cn, cn ∈ members -> self <> cn) by (intros cn Hcn ->; done).
  unfold ActionSchema__init__, ActionSchema_find_leaf_nodes, get_action_schema.
  fold a0. rewrite Hs. cbn [rbind chance_nodes a0].
  split.
  - intros Hchildless.
    rewrite (find_leaf_nodes_loop_childless self root members members []).
    + by rewrite insert_insert_eq.
    + exact Hs.
    + intros cn Hcn. destruct (Hall cn Hcn) as (c & Hc).
      exists c. rewrite lookup_insert_ne by (by apply Hne). split; [done|].
      by apply (Hchildless cn).
  - intros (bad & cb & Hin & Hb & Hch).
    apply (find_leaf_nodes_loop_fails self root members members []).
    + exact Hs.
    + intros cn Hcn. destruct (Hall cn Hcn) as (c & Hc).
      exists c. by rewrite lookup_insert_ne by (by apply Hne).
    + exists bad, cb. split; [done|]. split; [|done].
      by rewrite lookup_insert_ne by (by apply Hne).
Qed.

Lemma ActionSchema_init_on_members_witness :
  ActionSchema__init__ 0%nat [1%nat] 0 fresh_heap
  = Ok (<[0%nat := ActionSchemaObj {| root_node_index := 0;
                                       chance_nodes := [1%nat];
                                       leafs := [1%nat] |}]> fresh_heap)
  /\ ActionSchema__init__ 0%nat [1%nat; 2%nat] 0
       (<[0%nat := LeafObj]> chain_heap) = Err ValueError.
Proof.
  split.
  - refine (proj1 (ActionSchema_init_on_members 0%nat [1%nat] 0 fresh_heap _ _) _).
    + rewrite list_elem_of_In. simpl. intuition discriminate.
    + intros cn Hcn. apply list_elem_of_singleton in Hcn as ->.
      eexists. reflexivity.
    + intros cn c Hcn Hc. apply list_elem_of_singleton in Hcn as ->.
      vm_compute in Hc. by injection Hc as <-.
  - refine (proj2 (ActionSchema_init_on_members 0%nat [1%nat; 2%nat] 0
                     (<[0%nat := LeafObj]> chain_heap) _ _) _).
    + rewrite list_elem_of_In. simpl. intuition discriminate.
    + intros cn Hcn. apply elem_of_cons in Hcn as [->|Hcn];
        [|apply list_elem_of_singleton in Hcn as ->]; eexists; reflexivity.
    + exists 1%nat. eexists. split; [left|]. split; [reflexivity|]. discriminate.
Defined.

Lemma clear_computed_payoff_estimates_Ok : forall cns h h',
  clear_computed_payoff_estimates cns h = Ok h' ->
  (forall r, r ∉ cns -> h' !! r = h !! r)
  /\ (forall r, r ∈ cns ->
                exists c, h !! r = Some (ChanceNodeObj c)
                          /\ h' !! r = Some (ChanceNodeObj
                                               (set_computed_payoff_estimate VNone c))).
Proof.
  induction cns as [|cn rest IH]; intros h h' Hrun.
  - simpl in Hrun. injection Hrun as <-. split; [done|].
    intros r Hr. by apply elem_of_nil in Hr.
  - simpl in Hrun. bind_inv Hrun as h1 Hupd.
    apply update_chance_node_Ok in Hupd as (c & Hc & ->).
    apply IH in Hrun as [Hout Hin]. split.
    + intros r Hr. apply not_elem_of_cons in Hr as [Hne Hr].
      rewrite Hout by done. by rewrite lookup_insert_ne.
    + intros r Hr. destruct (decide (r ∈ rest)) as [Hrest|Hrest].
      * destruct (Hin r Hrest) as (c1 & Hc1 & Hc1').
        destruct (decide (r = cn)) as [->|Hne].
        -- rewrite lookup_insert_eq in Hc1. injection Hc1 as <-.
           exists c. split; [done|].
           by rewrite Hc1', set_computed_payoff_estimate_twice.
        -- rewrite lookup_insert_ne in Hc1 by done. eauto.
      * apply elem_of_cons in Hr as [->|Hr]; [|done].
        exists c. split; [done|]. rewrite Hout by done. apply lookup_insert_eq.
Qed.

(** X18: [ActionSchema.sample] clears the memo of every member node and changes
    nothing else; until [compute_payoff] runs again, [optimize] on a member
    stops at its assertion. *)
Theorem ActionSchema_sample_clears
  (self : ref) (a : ActionSchema) (h h' : heap) :
  h !! self = Some (ActionSchemaObj a) ->
  ActionSchema_sample self h = Ok h' ->
  (forall cn, cn ∈ chance_nodes a ->
     exists c,
       h !! cn = Some (ChanceNodeObj c)
       /\ h' !! cn = Some (ChanceNodeObj (set_computed_payoff_estimate VNone c))
       /\ forall fuel current_player discount,
            ChanceNode_optimize (compute_payoff fuel) cn current_player discount h'
            = Err AssertionError)
  /\ (forall r, r ∉ chance_nodes a -> h' !! r = h !! r).
Proof.
  intros Ha Hrun. unfold ActionSchema_sample, get_action_schema in Hrun.
  rewrite Ha in Hrun. cbn [rbind] in Hrun.
  apply clear_computed_payoff_estimates_Ok in Hrun as [Hout Hin].
  split; [|done].
  intros cn Hcn. destruct (Hin cn Hcn) as (c & Hc & Hc').
  exists c. split; [done|]. split; [done|].
  intros fuel current_player discount. unfold ChanceNode_optimize.
  apply get_chance_node_Ok in Hc'. rewrite Hc'. done.
Qed.

Lemma ActionSchema_sample_clears_witness :
  exists h',
    ActionSchema_sample 0%nat chain_heap = Ok h'
    /\ ChanceNode_optimize (compute_payoff 5) 1%nat 0 half h' = Err AssertionError.
Proof.
  destruct (ActionSchema_sample 0%nat chain_heap) as [h'|e] eqn:Hrun;
    [|vm_compute in Hrun; discriminate Hrun].
  exists h'. split; [done|].
  destruct (ActionSchema_sample_clears 0%nat
              {| root_node_index := 0; chance_nodes := [1%nat; 2%nat];
                 leafs := [2%nat] |} chain_heap h' eq_refl Hrun) as [Hin _].
  destruct (Hin 1%nat) as (c & _ & _ & Hopt); [left|]. apply Hopt.
Defined.

(** ** Policy improvement keeps a policy *)

(** X19: After a successful [optimize] on a node with visited values whose keys
    are distinct indices of the on-policy support, the on-policy parameters
    have their old length, non-negative entries and sum one. *)
Theorem ChanceNode_optimize_keeps_distribution
  (fuel : nat) (h h' : heap) (self : ref) (c : ChanceNode)
  (current_player : Z) (discount : Qc) :
  h !! self = Some (ChanceNodeObj c) ->
  children c <> [] ->
  NoDup (dict_keys (children c)) ->
  Forall (fun v => 0 <= v < Z.of_nat (length (DiscreteDistribution.probs
                                                (on_policy_distribution c))))
         (dict_keys (children c)) ->
  ChanceNode_optimize (compute_payoff fuel) self current_player discount h = Ok h' ->
  exists c',
    h' !! self = Some (ChanceNodeObj c')
    /\ children c' = children c
    /\ length (DiscreteDistribution.probs (on_policy_distribution c'))
       = length (DiscreteDistribution.probs (on_policy_distribution c))
    /\ is_distribution (DiscreteDistribution.probs (on_policy_distribution c')).
Proof.
  intros Hc Hch Hnd Hrange Hrun. unfold ChanceNode_optimize in Hrun.
  bind_inv Hrun as c0 Hc0. apply get_chance_node_Ok in Hc0.
  rewrite Hc in Hc0. injection Hc0 as <-.
  destruct (is_none (computed_payoff_estimate c)); [discriminate|].
  bind_inv Hrun as baseline Hbase.
  bind_inv Hrun as [advantages h1] Hloop.
  rewrite ChanceNode_optimize_loop_action_values in Hloop.
  bind_inv Hloop as [values h1'] Hvals. injection Hloop as <- <-.
  destruct (action_values_ext _ _ _ _ _ _ _ Hvals) as [Hext Hlen].
  destruct (heap_ext_chance_node _ _ _ _ Hext Hc) as (m & Hc1 & _).
  assert (Hn : length values = length (children c)).
  { rewrite Hlen. unfold dict_values. by rewrite length_fmap. }
  assert (Hne : (fun a => (a - baseline)%Qc) <$> values <> []).
  { destruct values; [|done]. destruct (children c); done. }
  rewrite length_fmap in Hrun.
  destruct (0 <? length values)%nat eqn:Hpos.
  2:{ apply Nat.ltb_ge in Hpos. destruct values; [|simpl in Hpos; lia].
      destruct (children c); done. }
  bind_inv Hrun as c1 Hg1. apply get_chance_node_Ok in Hg1.
  rewrite Hc1 in Hg1. injection Hg1 as <-.
  bind_inv Hrun as dist Hopt. simpl in Hopt.
  apply update_chance_node_Ok in Hrun as (c2 & Hc2 & ->).
  rewrite Hc1 in Hc2. injection Hc2 as <-.
  destruct (target_policy_distribution _ Hne) as [Htl Htd].
  destruct (DiscreteDistribution_optimize_valid (on_policy_distribution c)
              (dict_keys (children c))
              (target_policy ((fun a => (a - baseline)%Qc) <$> values)))
    as (d' & Hopt' & Hlen' & Hdist').
  { split; [done|]. split; [done|]. split; [|done].
    simpl. rewrite Htl, length_fmap, Hn. unfold dict_keys. by rewrite length_fmap. }
  rewrite Hopt in Hopt'. injection Hopt' as <-.
  eexists. rewrite lookup_insert_eq. split; [done|]. simpl. done.
Qed.

Lemma ChanceNode_optimize_keeps_distribution_witness :
  exists h' c',
    ChanceNode_optimize (compute_payoff 1) 1%nat 0 half advantage_heap = Ok h'
    /\ h' !! 1%nat = Some (ChanceNodeObj c')
    /\ is_distribution (DiscreteDistribution.probs (on_policy_distribution c')).
Proof.
  destruct (ChanceNode_optimize (compute_payoff 1) 1%nat 0 half advantage_heap)
    as [h'|e] eqn:Hrun; [|vm_compute in Hrun; discriminate Hrun].
  destruct (ChanceNode_optimize_keeps_distribution 1 advantage_heap h' 1%nat
              advantage_node 0 half eq_refl) as (c' & Hc' & _ & _ & Hd);
    try done.
  - repeat constructor; rewrite list_elem_of_In; simpl; intuition discriminate.
  - repeat constructor; simpl; lia.
  - exists h', c'. done.
Defined.

(** * lbfgsOptimizer.py *)

Lemma index_loop_consistent shapes : forall i count idx part count' idx' part',
  length idx = i ->
  indices_consistent count idx part ->
  lbfgsOptimizer.index_loop i shapes count idx part = (count', idx', part') ->
  indices_consistent count' idx' part'
  /\ length idx' = (i + length shapes)%nat
  /\ count' = (count + sum_list (lbfgsOptimizer.product <$> shapes))%nat.
Proof.
  induction shapes as [|shape rest IH];
    intros i count idx part count' idx' part' Hi Hinv Hrun; simpl in Hrun.
  - injection Hrun as <- <- <-. simpl. split; [done|]. split; lia.
  - set (n := lbfgsOptimizer.product shape) in *.
    apply IH in Hrun as (Hinv' & Hlen' & Hcount').
    + split; [done|]. rewrite fmap_cons. simpl. fold n. split; lia.
    + rewrite length_app. simpl. lia.
    + destruct Hinv as (Hpart & Hcat & Hiff). split; [|split].
      * rewrite length_app, length_replicate. lia.
      * rewrite concat_app, Hcat. simpl. rewrite app_nil_r.
        by rewrite seq_app.
      * intros j m. split.
        -- intros Hj. destruct (decide (j < count)%nat) as [Hlt|Hge].
           ++ rewrite lookup_app_l in Hj by lia.
              apply Hiff in Hj as (js & Hjs & Hin). exists js.
              split; [|done]. rewrite lookup_app_l; [done|].
              by apply lookup_lt_Some in Hjs.
           ++ rewrite lookup_app_r in Hj by lia.
              apply lookup_replicate in Hj as [-> Hjn].
              exists (seq count n). rewrite lookup_app_r by lia.
              rewrite Hi, Nat.sub_diag. split; [done|].
              apply list_elem_of_In, in_seq. lia.
        -- intros (js & Hjs & Hin).
           destruct (decide (m < length idx)%nat) as [Hlt|Hge].
           ++ rewrite lookup_app_l in Hjs by done.
              assert (Hj : part !! j = Some m) by (apply Hiff; eauto).
              rewrite lookup_app_l; [done|]. by apply lookup_lt_Some in Hj.
           ++ rewrite lookup_app_r in Hjs by lia.
              destruct (m - length idx)%nat as [|k] eqn:Hk; [|done].
              simpl in Hjs. injection Hjs as <-.
              apply list_elem_of_In, in_seq in Hin.
              rewrite lookup_app_r by lia.
              apply lookup_replicate. split; [|lia]. lia.
Qed.

(** X20: The indices prepared by [function_factory] fit together: [part] has one
    entry per parameter, the entries of [idx], one after the other, are
    [0, 1, ..., count - 1], and position [j] belongs to partition [m] exactly
    when [j] is one of the indices of tensor [m].  So
    [tf.dynamic_partition] with [part] takes apart what [tf.dynamic_stitch]
    with [idx] put together. *)
Theorem function_factory_indices_consistent
  (shapes : list (list nat)) (count : nat) (idx : list (list nat))
  (part : list nat) :
  lbfgsOptimizer.function_factory_indices shapes = (count, idx, part) ->
  count = sum_list (lbfgsOptimizer.product <$> shapes)
  /\ length idx = length shapes
  /\ length part = count
  /\ concat idx = seq 0 count
  /\ forall j m, part !! j = Some m <-> exists js, idx !! m = Some js /\ j ∈ js.
Proof.
  intros Hrun. unfold lbfgsOptimizer.function_factory_indices in Hrun.
  apply index_loop_consistent in Hrun as ((Hp & Hc & Hiff) & Hlen & Hcount).
  - done.
  - done.
  - split; [done|]. split; [done|]. intros j m. split; [done|].
    intros (js & Hjs & _). done.
Qed.

Lemma function_factory_indices_consistent_witness :
  lbfgsOptimizer.function_factory_indices [[2%nat; 3%nat]; [3%nat]]
  = (9%nat, [seq 0 6; seq 6 3], replicate 6 0%nat ++ replicate 3 1%nat)
  /\ concat [seq 0 6; seq 6 3] = seq 0 9.
Proof.
  split; [reflexivity|].
  apply (function_factory_indices_consistent [[2%nat; 3%nat]; [3%nat]] 9
           [seq 0 6; seq 6 3] (replicate 6 0%nat ++ replicate 3 1%nat)).
  reflexivity.
Defined.

(** * Edge cases of [optimize] and of the schema *)

(** X21: On a node without visited values [optimize] leaves everything as it
    is: there is nothing to normalise, and the distribution is not
    touched. *)
Theorem ChanceNode_optimize_without_children
  (fuel : nat) (h : heap) (self : ref) (c : ChanceNode)
  (current_player : Z) (discount baseline : Qc) :
  h !! self = Some (ChanceNodeObj c) ->
  computed_payoff_estimate c <> VNone ->
  vindex (payoff_estimate c) current_player = Ok baseline ->
  children c = [] ->
  ChanceNode_optimize (compute_payoff fuel) self current_player discount h = Ok h.
Proof.
  intros Hc Hm Hbase Hch. unfold ChanceNode_optimize.
  apply get_chance_node_Ok in Hc. rewrite Hc. simpl.
  apply is_none_false in Hm. rewrite Hm, Hbase, Hch. done.
Qed.

Lemma ChanceNode_optimize_without_children_witness :
  exists v h1,
    compute_payoff 1 3%nat half chain_heap = Ok (v, h1)
    /\ ChanceNode_optimize (compute_payoff 1) 3%nat 0 half h1 = Ok h1.
Proof.
  eexists. eexists. split; [vm_compute; reflexivity|].
  eapply (ChanceNode_optimize_without_children 1 _ 3%nat _ 0 half (q 8));
    [reflexivity | discriminate | reflexivity | reflexivity].
Defined.

(** X22: An ActionSchema without member nodes has no root:
    [compute_payoff] raises [IndexError]. *)
Theorem ActionSchema_compute_payoff_without_members
  (fuel : nat) (h : heap) (self : ref) (a : ActionSchema) (d : Qc) :
  h !! self = Some (ActionSchemaObj a) ->
  chance_nodes a = [] ->
  leafs a = [] ->
  compute_payoff (S fuel) self d h = Err IndexError.
Proof.
  intros Ha Hcn Hl. rewrite (compute_payoff_schema fuel h self a d Ha).
  rewrite Hcn, Hl. simpl. unfold ActionSchema_root_node. rewrite Hcn.
  unfold py_index, py_pos. simpl.
  repeat match goal with
         | |- context [if ?b then _ else _] => destruct b
         end; done.
Qed.

Lemma ActionSchema_compute_payoff_without_members_witness :
  compute_payoff 3 0%nat half
    (<[0%nat := ActionSchemaObj {| root_node_index := 0; chance_nodes := [];
                                    leafs := [] |}]> ∅)
  = Err IndexError.
Proof.
  apply (ActionSchema_compute_payoff_without_members 2 _ 0%nat
           {| root_node_index := 0; chance_nodes := []; leafs := [] |} half);
    reflexivity.
Defined.

(** X23: [ActionSchema.optimize] cannot improve a policy unless someone outside
    [Game.py] assigns [payoff_estimate]: if the first member node has
    children and its [payoff_estimate] is [None], the payoffs are computed
    and then the member's [optimize] raises [TypeError]. *)
Theorem ActionSchema_optimize_needs_payoff_estimate
  (fuel : nat) (h h1 : heap) (self cn : ref) (rest : list ref)
  (a : ActionSchema) (c : ChanceNode) (current_player : Z) (discount : Qc)
  (v : val) :
  h !! self = Some (ActionSchemaObj a) ->
  chance_nodes a = cn :: rest ->
  h !! cn = Some (ChanceNodeObj c) ->
  children c <> [] ->
  payoff_estimate c = VNone ->
  compute_payoff fuel self discount h = Ok (v, h1) ->
  ActionSchema_optimize fuel self current_player discount h = Err TypeError.
Proof.
  intros Ha Hcn Hc Hch Hpe Hrun. unfold ActionSchema_optimize.
  rewrite Hrun. cbn [rbind].
  pose proof (compute_payoff_ext _ _ _ _ _ _ Hrun) as Hext.
  unfold get_action_schema.
  rewrite (heap_ext_other h h1 self (ActionSchemaObj a) Hext Ha)
    by (intros ? ?; discriminate).
  cbn [rbind]. rewrite Hcn. cbn [optimize_each].
  (* the member's memo is set by the second phase and kept *)
  destruct fuel as [|n]; [discriminate|].
  rewrite (compute_payoff_schema n h self a discount Ha) in Hrun.
  bind_inv Hrun as hp1 H1. bind_inv Hrun as hp2 H2. bind_inv Hrun as root Hroot.
  rewrite Hcn in H2. cbn [compute_payoff_each] in H2.
  bind_inv H2 as [p hx] Hp.
  assert (Hext1 : heap_ext h hp1)
    by (eapply compute_payoff_each_ext; [apply compute_payoff_ext | done]).
  destruct (heap_ext_chance_node _ _ _ _ Hext1 Hc) as (m1 & Hc1 & _).
  destruct (compute_payoff_sets_memo _ _ _ _ _ _ _ Hc1 Hp)
    as (cx & Hcx & Hmemo & Hnone).
  assert (Hextx : heap_ext h hx).
  { apply (heap_ext_trans h hp1 hx); [done|]. by apply compute_payoff_ext in Hp. }
  destruct (heap_ext_chance_node _ _ _ _ Hextx Hc) as (mx & Hcx' & _).
  rewrite Hcx in Hcx'. injection Hcx' as ->.
  assert (Hp_nn : p <> VNone).
  { intros ->. destruct Hnone as [Hch' _]; [done|]. simpl in Hch'. done. }
  assert (Hextf : heap_ext hx h1).
  { apply (heap_ext_trans hx hp2 h1).
    - eapply compute_payoff_each_ext; [apply compute_payoff_ext | done].
    - by apply compute_payoff_ext in Hrun. }
  destruct (heap_ext_chance_node _ _ _ _ Hextf Hcx) as (mf & Hcf & Hmf).
  simpl in Hmf. rewrite Hmf in Hcf by (by rewrite <- Hmemo in Hp_nn).
  unfold ChanceNode_optimize.
  apply get_chance_node_Ok in Hcf. rewrite Hcf. simpl.
  simpl in Hmemo. rewrite Hmemo.
  apply is_none_false in Hp_nn. rewrite Hp_nn. rewrite Hpe. done.
Qed.

Lemma ActionSchema_optimize_needs_payoff_estimate_witness :
  ActionSchema_optimize 5 0%nat 0 half chain_heap = Err TypeError.
Proof.
  eapply (ActionSchema_optimize_needs_payoff_estimate 5 chain_heap _ 0%nat 1%nat
            [2%nat] {| root_node_index := 0; chance_nodes := [1%nat; 2%nat];
                       leafs := [2%nat] |}
            (mk_chance [(0, mk_entry 1%Qc 1 [q 1] 2%nat)] VNone true) 0 half);
    try reflexivity; discriminate.
Defined.

(** * Recursion depth *)

Section Monotone.

Variables rec1 rec2 : ref -> Qc -> heap -> result (val * heap).
Hypothesis rec_mono :
  forall r d h res, rec1 r d h = Ok res -> rec2 r d h = Ok res.

Lemma ChanceNode_compute_payoff_loop_mono d entries : forall value sv h res,
  ChanceNode_compute_payoff_loop rec1 d entries value sv h = Ok res ->
  ChanceNode_compute_payoff_loop rec2 d entries value sv h = Ok res.
Proof.
  induction entries as [|e rest IH]; intros value sv h res Hrun; [done|].
  simpl in *. bind_inv Hrun as [p h1] Hp. rewrite (rec_mono _ _ _ _ Hp).
  cbn [rbind].
  destruct (vmul (VNum d) p) as [dp|]; [|done]. cbn [rbind] in *.
  destruct (vadd (direkt_reward e) dp) as [av|]; [|done]. cbn [rbind] in *.
  destruct (vmul (VNum (Qc_of_nat (visits e))) (importance e)) as [w|]; [|done].
  cbn [rbind] in *.
  destruct (vmul w av) as [wd|]; [|done]. cbn [rbind] in *.
  destruct (vadd value wd) as [v1|]; [|done]. cbn [rbind] in *.
  by apply IH.
Qed.

Lemma ChanceNode_compute_payoff_mono self d h res :
  ChanceNode_compute_payoff rec1 self d h = Ok res ->
  ChanceNode_compute_payoff rec2 self d h = Ok res.
Proof.
  unfold ChanceNode_compute_payoff. intros Hrun.
  destruct (get_chance_node h self) as [c|]; [|done]. cbn [rbind] in *.
  destruct (negb (is_none (computed_payoff_estimate c))); [done|].
  destruct (Nat.eqb (length (children c)) 0); [done|].
  bind_inv Hrun as [[value sv] h1] Hloop.
  by rewrite (ChanceNode_compute_payoff_loop_mono _ _ _ _ _ _ Hloop).
Qed.

Lemma compute_payoff_each_mono nodes d : forall h h',
  compute_payoff_each rec1 nodes d h = Ok h' ->
  compute_payoff_each rec2 nodes d h = Ok h'.
Proof.
  induction nodes as [|cn rest IH]; intros h h' Hrun; [done|].
  simpl in *. bind_inv Hrun as [p h1] Hp. rewrite (rec_mono _ _ _ _ Hp).
  cbn [rbind]. by apply IH.
Qed.

Lemma ActionSchema_compute_payoff_mono self d h res :
  ActionSchema_compute_payoff rec1 self d h = Ok res ->
  ActionSchema_compute_payoff rec2 self d h = Ok res.
Proof.
  unfold ActionSchema_compute_payoff. intros Hrun.
  destruct (get_action_schema h self) as [a|]; [|done]. cbn [rbind] in *.
  bind_inv Hrun as h1 H1. rewrite (compute_payoff_each_mono _ _ _ _ H1).
  cbn [rbind]. bind_inv Hrun as h2 H2.
  rewrite (compute_payoff_each_mono _ _ _ _ H2). cbn [rbind].
  destruct (ActionSchema_root_node a) as [root|]; [|done]. cbn [rbind] in *.
  by apply rec_mono.
Qed.

Lemma StateNode_compute_payoff_mono self d h res :
  StateNode_compute_payoff rec1 self d h = Ok res ->
  StateNode_compute_payoff rec2 self d h = Ok res.
Proof.
  unfold StateNode_compute_payoff.
  destruct (h !! self) as [[| | |s]|]; try done.
  destruct (action_schema s); [|done]. apply rec_mono.
Qed.

End Monotone.

Lemma compute_payoff_fuel_S fuel : forall self d h res,
  compute_payoff fuel self d h = Ok res ->
  compute_payoff (S fuel) self d h = Ok res.
Proof.
  induction fuel as [|n IH]; intros self d h res Hrun; [discriminate|].
  simpl in Hrun. change (compute_payoff (S (S n)) self d h) with
    (match h !! self with
     | None => Err AttributeError
     | Some LeafObj => Leaf_compute_payoff d h
     | Some (ChanceNodeObj _) =>
         ChanceNode_compute_payoff (compute_payoff (S n)) self d h
     | Some (ActionSchemaObj _) =>
         ActionSchema_compute_payoff (compute_payoff (S n)) self d h
     | Some (StateNodeObj _) =>
         StateNode_compute_payoff (compute_payoff (S n)) self d h
     end).
  destruct (h !! self) as [[|c|a|s]|]; try done.
  - by apply (ChanceNode_compute_payoff_mono (compute_payoff n)).
  - by apply (ActionSchema_compute_payoff_mono (compute_payoff n)).
  - by apply (StateNode_compute_payoff_mono (compute_payoff n)).
Qed.

(** X24: A payoff obtained within some recursion depth is obtained, with the
    same store, within every larger depth: the depth allowed only decides
    whether the call ends in [RecursionError]. *)
Theorem compute_payoff_fuel_monotone
  (fuel fuel' : nat) (self : ref) (d : Qc) (h h' : heap) (v : val) :
  (fuel <= fuel')%nat ->
  compute_payoff fuel self d h = Ok (v, h') ->
  compute_payoff fuel' self d h = Ok (v, h').
Proof.
  intros Hle Hrun. induction Hle as [|m Hle IH]; [done|].
  by apply compute_payoff_fuel_S.
Qed.

Lemma compute_payoff_fuel_monotone_witness :
  exists h', compute_payoff 5 0%nat half chain_heap = Ok (VVec [q 7], h')
             /\ compute_payoff 50 0%nat half chain_heap = Ok (VVec [q 7], h').
Proof.
  eexists. split; [vm_compute; reflexivity|].
  apply (compute_payoff_fuel_monotone 5 50); [lia | vm_compute; reflexivity].
Defined.

(** * Where the discount enters a schema *)

Lemma settled_run fuel h m c d :
  h !! m = Some (ChanceNodeObj c) ->
  settled c ->
  compute_payoff (S fuel) m d h = Ok (computed_payoff_estimate c, h).
Proof.
  intros Hc Hs. destruct (is_none (computed_payoff_estimate c)) eqn:Hm.
  - apply is_none_true in Hm. destruct Hs as [Hs|[Hch Hpe]]; [done|].
    rewrite (compute_payoff_no_children fuel h m c d Hc Hm Hch).
    rewrite Hpe, Hm. rewrite <- Hm at 2.
    rewrite set_computed_payoff_estimate_id. by rewrite insert_id.
  - apply is_none_false in Hm. by apply compute_payoff_memo_hit.
Qed.

Lemma discount_free_run fuel h m c d d' :
  h !! m = Some (ChanceNodeObj c) ->
  discount_free c ->
  compute_payoff fuel m d h = compute_payoff fuel m d' h.
Proof.
  intros Hc [Hs|Hflag].
  - destruct fuel as [|n]; [done|]. by rewrite !(settled_run n h m c).
  - by apply (intermediate_ignores_discount fuel h m c).
Qed.

Lemma settled_after_call fuel h h1 m c d v :
  h !! m = Some (ChanceNodeObj c) ->
  compute_payoff fuel m d h = Ok (v, h1) ->
  exists c1, h1 !! m = Some (ChanceNodeObj c1) /\ settled c1
             /\ computed_payoff_estimate c1 = v.
Proof.
  intros Hc Hrun.
  destruct (compute_payoff_sets_memo _ _ _ _ _ _ _ Hc Hrun) as (c1 & Hc1 & Hm & Hn).
  exists c1. split; [done|]. split; [|done].
  destruct (is_none v) eqn:Hv.
  - apply is_none_true in Hv. right. by apply Hn.
  - apply is_none_false in Hv. left. by rewrite Hm.
Qed.

Lemma settled_ext h h' m c :
  heap_ext h h' -> h !! m = Some (ChanceNodeObj c) -> settled c ->
  exists c', h' !! m = Some (ChanceNodeObj c') /\ settled c'.
Proof.
  intros Hext Hc Hs.
  destruct (heap_ext_chance_node _ _ _ _ Hext Hc) as (mm & Hc' & Hmm).
  eexists. split; [done|].
  destruct (is_none (computed_payoff_estimate c)) eqn:Hm.
  - apply is_none_true in Hm. destruct Hs as [Hs|Hs]; [done|]. by right.
  - apply is_none_false in Hm. left. simpl. by rewrite (Hmm Hm).
Qed.

Lemma discount_free_ext h h' m c :
  heap_ext h h' -> h !! m = Some (ChanceNodeObj c) -> discount_free c ->
  exists c', h' !! m = Some (ChanceNodeObj c') /\ discount_free c'.
Proof.
  intros Hext Hc [Hs|Hflag].
  - destruct (settled_ext _ _ _ _ Hext Hc Hs) as (c' & Hc' & Hs').
    exists c'. split; [done | by left].
  - destruct (heap_ext_chance_node _ _ _ _ Hext Hc) as (mm & Hc' & _).
    eexists. split; [done|]. by right.
Qed.

Lemma compute_payoff_each_discount_free fuel nodes : forall h d d',
  (forall m, m ∈ nodes ->
             exists c, h !! m = Some (ChanceNodeObj c) /\ discount_free c) ->
  compute_payoff_each (compute_payoff fuel) nodes d h
  = compute_payoff_each (compute_payoff fuel) nodes d' h.
Proof.
  induction nodes as [|cn rest IH]; intros h d d' Hall; [done|].
  cbn [compute_payoff_each].
  destruct (Hall cn) as (c & Hc & Hdf); [left|].
  rewrite (discount_free_run fuel h cn c d d' Hc Hdf).
  destruct (compute_payoff fuel cn d' h) as [[v hx]|] eqn:Hrun; [|done].
  cbn [rbind]. apply IH. intros m Hm.
  destruct (Hall m) as (cm & Hcm & Hdfm); [by right|].
  apply compute_payoff_ext in Hrun.
  by apply (discount_free_ext h hx m cm).
Qed.

Lemma compute_payoff_each_settles fuel nodes : forall h h1 d,
  (forall m, m ∈ nodes -> exists c, h !! m = Some (ChanceNodeObj c)) ->
  compute_payoff_each (compute_payoff fuel) nodes d h = Ok h1 ->
  forall m, m ∈ nodes ->
            exists c1, h1 !! m = Some (ChanceNodeObj c1) /\ settled c1.
Proof.
  induction nodes as [|cn rest IH]; intros h h1 d Hall Hrun m Hm.
  - by apply elem_of_nil in Hm.
  - cbn [compute_payoff_each] in Hrun. bind_inv Hrun as [v hx] Hcall.
    pose proof (compute_payoff_ext _ _ _ _ _ _ Hcall) as Hext.
    assert (Hall' : forall m', m' ∈ rest ->
                               exists c, hx !! m' = Some (ChanceNodeObj c)).
    { intros m' Hm'. destruct (Hall m') as (c' & Hc'); [by right|].
      destruct (heap_ext_chance_node _ _ _ _ Hext Hc') as (mm & Hx & _). eauto. }
    destruct (decide (m ∈ rest)) as [Hin|Hnin].
    + by apply (IH hx h1 d Hall' Hrun).
    + apply elem_of_cons in Hm as [->|Hm]; [|done].
      destruct (Hall cn) as (c & Hc); [left|].
      destruct (settled_after_call _ _ _ _ _ _ _ Hc Hcall) as (c1 & Hc1 & Hs1 & _).
      apply (settled_ext hx h1 cn c1); [|done|done].
      eapply compute_payoff_each_ext; [apply compute_payoff_ext | done].
Qed.

Lemma compute_payoff_each_settled_noop fuel nodes h d :
  (forall m, m ∈ nodes ->
             exists c, h !! m = Some (ChanceNodeObj c) /\ settled c) ->
  compute_payoff_each (compute_payoff (S fuel)) nodes d h = Ok h.
Proof.
  induction nodes as [|cn rest IH]; intros Hall; [done|].
  cbn [compute_payoff_each].
  destruct (Hall cn) as (c & Hc & Hs); [left|].
  rewrite (settled_run fuel h cn c d Hc Hs). cbn [rbind].
  apply IH. intros m Hm. apply Hall. by right.
Qed.

Lemma py_index_elem {A} (l : list A) i x : py_index l i = Ok x -> x ∈ l.
Proof.
  unfold py_index. destruct (py_pos l i) as [k|]; [|discriminate].
  destruct (l !! k) as [y|] eqn:Hk; [|discriminate].
  intros H. injection H as <-. apply list_elem_of_lookup. eauto.
Qed.

(** The leaf phase is the only one that sees the caller's discount. *)
Lemma ActionSchema_compute_payoff_leaf_phase fuel h self a d d' :
  h !! self = Some (ActionSchemaObj a) ->
  correctly_partitioned h a ->
  compute_payoff (S fuel) self d h
  = let* h1 := compute_payoff_each (compute_payoff fuel) (leafs a) d h in
    let* h2 := compute_payoff_each (compute_payoff fuel) (chance_nodes a) d' h1 in
    let* root := ActionSchema_root_node a in
    compute_payoff fuel root d' h2.
Proof.
  intros Ha [Hleafs Hmembers].
  rewrite (compute_payoff_schema fuel h self a d Ha).
  destruct (compute_payoff_each (compute_payoff fuel) (leafs a) d h)
    as [h1|] eqn:H1; [|done].
  cbn [rbind].
  assert (Hext1 : heap_ext h h1)
    by (eapply compute_payoff_each_ext; [apply compute_payoff_ext | done]).
  assert (Hdf1 : forall m, m ∈ chance_nodes a ->
                           exists c, h1 !! m = Some (ChanceNodeObj c)
                                     /\ discount_free c).
  { intros m Hm. destruct (Hmembers m Hm) as (c & Hc & Hleaf & Hflag).
    destruct (has_member_child (chance_nodes a) c) eqn:Hmc.
    - apply (discount_free_ext h h1 m c); [done | done | by right].
    - destruct (compute_payoff_each_settles fuel (leafs a) h h1 d) with (m := m)
        as (c1 & Hc1 & Hs1); [|done|by apply Hleaf|].
      + intros l Hl. destruct (Hmembers l (Hleafs l Hl)) as (cl & Hcl & _). eauto.
      + exists c1. split; [done | by left]. }
  rewrite (compute_payoff_each_discount_free fuel (chance_nodes a) h1 1%Qc d' Hdf1).
  destruct (compute_payoff_each (compute_payoff fuel) (chance_nodes a) d' h1)
    as [h2|] eqn:H2; [|done].
  cbn [rbind].
  destruct (ActionSchema_root_node a) as [root|] eqn:Hroot; [|done].
  cbn [rbind].
  assert (Hext2 : heap_ext h1 h2)
    by (eapply compute_payoff_each_ext; [apply compute_payoff_ext | done]).
  apply py_index_elem in Hroot.
  destruct (Hdf1 root Hroot) as (c & Hc & Hdf).
  destruct (discount_free_ext h1 h2 root c Hext2 Hc Hdf) as (c' & Hc' & Hdf').
  by apply (discount_free_run fuel h2 root c').
Qed.

(** The run on [mixed_heap_of], for all numbers. *)
Lemma mixed_schema_run (d r1 r2 r3 x y i1 i2 i3 : Qc) (n1 n2 n3 : nat) :
  (0 < n1)%nat -> (0 < n2)%nat ->
  exists h',
    compute_payoff 5 0%nat d (mixed_heap_of r1 r2 r3 x y i1 i2 i3 n1 n2 n3)
    = Ok (VVec [((Qc_of_nat n1 * i1 * (r1 + 1 * (i2 * (r2 + d * x)))
                  + Qc_of_nat n3 * i3 * (r3 + 1 * y))
                 / Qc_of_nat (n1 + n3))%Qc], h').
Proof.
  intros Hn1 Hn2.
  destruct n1 as [|n1]; [lia|]. destruct n2 as [|n2]; [lia|].
  set (h0 := mixed_heap_of r1 r2 r3 x y i1 i2 i3 (S n1) (S n2) n3).
  set (e1 := chain_entry i1 (S n1) r1 2%nat).
  set (e3 := chain_entry i3 n3 r3 4%nat).
  set (c1 := mk_chance [(0, e1); (1, e3)] VNone true).
  set (c2 := mk_chance [(0, chain_entry i2 (S n2) r2 3%nat)] VNone false).
  set (c3 := mk_chance [] (VVec [x]) false).
  set (c4 := mk_chance [] (VVec [y]) false).
  set (hA := <[3%nat := ChanceNodeObj
                          (set_computed_payoff_estimate (VVec [x]) c3)]> h0).
  assert (H3 : compute_payoff 3 3%nat d h0 = Ok (VVec [x], hA)).
  { apply (compute_payoff_no_children 2 h0 3%nat c3 d); reflexivity. }
  (* the leaf node, with the caller's discount *)
  destruct (lone_child_run 3 h0 hA 2%nat c2 d 0 (chain_entry i2 (S n2) r2 3%nat)
              n2 i2 [r2] [x] eq_refl eq_refl eq_refl eq_refl eq_refl eq_refl
              eq_refl H3) as (c2' & Hc2' & Hleaf).
  assert (Hl2 : Some (ChanceNodeObj c2') = Some (ChanceNodeObj c2))
    by (rewrite <- Hc2'; reflexivity).
  injection Hl2 as ->.
  simpl zip_with in Hleaf. change (effective_discount c2 d) with d in Hleaf.
  set (pL := (i2 * (r2 + d * x))%Qc) in *.
  set (hB := <[2%nat := ChanceNodeObj
                          (set_computed_payoff_estimate (VVec [pL]) c2)]> hA) in *.
  (* the root: the leaf's memo and the outside child's estimate, both with 1 *)
  assert (HmemoB : compute_payoff 3 2%nat 1%Qc hB = Ok (VVec [pL], hB)).
  { apply (compute_payoff_memo_hit 2 2%nat
             (set_computed_payoff_estimate (VVec [pL]) c2) 1%Qc hB);
      [reflexivity | discriminate]. }
  set (hC := <[4%nat := ChanceNodeObj
                          (set_computed_payoff_estimate (VVec [y]) c4)]> hB).
  assert (H4 : compute_payoff 3 4%nat 1%Qc hB = Ok (VVec [y], hC)).
  { apply (compute_payoff_no_children 2 hB 4%nat c4 1%Qc); reflexivity. }
  set (value := VVec [(0 + Qc_of_nat (S n1) * i1 * (r1 + 1 * pL)
                       + Qc_of_nat n3 * i3 * (r3 + 1 * y))%Qc]).
  destruct (ChanceNode_compute_payoff_run 3 hB 1%nat c1 1%Qc
              [VVec [pL]; VVec [y]] hC value)
    as (payoff & c1' & Hpay & Hc1' & Hroot); try reflexivity.
  { discriminate. }
  assert (Hl1 : Some (ChanceNodeObj c1') = Some (ChanceNodeObj c1))
    by (rewrite <- Hc1'; reflexivity).
  injection Hl1 as ->.
  set (pR := ((Qc_of_nat (S n1) * i1 * (r1 + 1 * pL)
               + Qc_of_nat n3 * i3 * (r3 + 1 * y))
              / Qc_of_nat (S n1 + n3))%Qc).
  assert (Hpayoff : payoff = VVec [pR]).
  { change (total_visits (dict_values (children c1)))
      with (S (n1 + (n3 + 0)))%nat in Hpay.
    cbn [Nat.eqb vdiv_int value] in Hpay. injection Hpay as <-.
    unfold pR. do 2 f_equal.
    replace (S (n1 + (n3 + 0)))%nat with (S n1 + n3)%nat by lia.
    change (Q2Qc 0) with 0%Qc.
    assert (Hnz : Qc_of_nat (S n1 + n3) <> 0%Qc)
      by (apply Qc_of_nat_neq_0; lia).
    by field. }
  subst payoff.
  set (hD := <[1%nat := ChanceNodeObj
                          (set_computed_payoff_estimate (VVec [pR]) c1)]> hC) in *.
  assert (HmemoD2 : compute_payoff 4 2%nat 1%Qc hD = Ok (VVec [pL], hD)).
  { apply (compute_payoff_memo_hit 3 2%nat
             (set_computed_payoff_estimate (VVec [pL]) c2) 1%Qc hD);
      [reflexivity | discriminate]. }
  assert (HmemoD1 : compute_payoff 4 1%nat 1%Qc hD = Ok (VVec [pR], hD)).
  { apply (compute_payoff_memo_hit 3 1%nat
             (set_computed_payoff_estimate (VVec [pR]) c1) 1%Qc hD);
      [reflexivity | discriminate]. }
  exists hD.
  rewrite (compute_payoff_schema 4 h0 0%nat chain_schema d eq_refl).
  change (ActionSchema_root_node chain_schema) with (Ok (A := ref) 1%nat).
  assert (Hleaf' : compute_payoff 4 2%nat d h0 = Ok (VVec [pL], hB))
    by exact Hleaf.
  assert (Hroot' : compute_payoff 4 1%nat 1%Qc hB = Ok (VVec [pR], hD))
    by exact Hroot.
  clear Hleaf Hroot. clearbody h0 hA hB hC hD pL pR.
  cbn [leafs chance_nodes chain_schema compute_payoff_each].
  rewrite Hleaf'. cbn [rbind]. rewrite Hroot'. cbn [rbind].
  rewrite HmemoD2. cbn [rbind].
  exact HmemoD1.
Qed.


Lemma correctly_partitioned_chain h c1 c2 :
  h !! 1%nat = Some (ChanceNodeObj c1) ->
  h !! 2%nat = Some (ChanceNodeObj c2) ->
  has_member_child [1%nat; 2%nat] c1 = true ->
  intermediate_action_schema_node c1 = true ->
  has_member_child [1%nat; 2%nat] c2 = false ->
  intermediate_action_schema_node c2 = false ->
  correctly_partitioned h chain_schema.
Proof.
  intros H1 H2 Hm1 Hf1 Hm2 Hf2. split.
  - intros l Hl. cbn [leafs chain_schema] in Hl.
    apply list_elem_of_singleton in Hl as ->.
    cbn [chance_nodes chain_schema]. right. left.
  - intros m Hm. cbn [chance_nodes leafs chain_schema] in *.
    apply elem_of_cons in Hm as [->|Hm].
    + exists c1. split; [done|]. rewrite Hm1, Hf1. split; [|done].
      split; [|done]. intros H. apply list_elem_of_singleton in H. discriminate.
    + apply list_elem_of_singleton in Hm as ->.
      exists c2. split; [done|]. rewrite Hm2, Hf2. split; [|done].
      split; [done|]. intros _. left.
Qed.

(** ** C2: the discount and the boundary of a schema *)

(** C2, as stated, fails: the schema of [mixed_example_heap] is correctly
    partitioned (node 2 is its only leaf, the root 1 is flagged
    intermediate), and the root has a second child (4) outside the schema,
    whose payoff is [8].  Line 132 gives a flagged node the discount 1.0
    for every child, so [compute_payoff(discount)] returns [4], the
    undiscounted average, for every discount: the payoff that crosses the
    boundary below the root is discounted not once but never. *)
Lemma ActionSchema_discount_counterexample :
  mixed_example_heap !! 0%nat = Some (ActionSchemaObj chain_schema)
  /\ correctly_partitioned mixed_example_heap chain_schema
  /\ (exists c, mixed_example_heap !! 4%nat = Some (ChanceNodeObj c)
                /\ children c = [] /\ payoff_estimate c = VVec [q 8])
  /\ (forall d, exists h',
        compute_payoff 5 0%nat d mixed_example_heap = Ok (VVec [q 4], h'))
  /\ (exists h', compute_payoff 5 0%nat half mixed_example_heap
                 = Ok (VVec [q 4], h'))
  /\ (exists h', compute_payoff 5 0%nat (Q2Qc (1 # 10)) mixed_example_heap
                 = Ok (VVec [q 4], h')).
Proof.
  split; [reflexivity|]. split.
  { eapply correctly_partitioned_chain; reflexivity. }
  split.
  { eexists. split; [reflexivity|]. split; reflexivity. }
  assert (Hall : forall d, exists h',
             compute_payoff 5 0%nat d mixed_example_heap = Ok (VVec [q 4], h')).
  { intros d.
    destruct (mixed_schema_run d 0%Qc 0%Qc 0%Qc 0%Qc (q 8) 1%Qc 1%Qc 1%Qc 1 1 1)
      as (h' & Hrun); [lia | lia |].
    exists h'. unfold mixed_example_heap. rewrite Hrun. do 4 f_equal.
    assert (E : (d * 0 = 0)%Qc) by ring. rewrite E.
    apply Qc_is_canon. vm_compute. reflexivity. }
  split; [exact Hall|]. split; apply Hall.
Qed.

(** C2, amended: for every ActionSchema whose member ChanceNodes are
    correctly partitioned, [compute_payoff(discount)] computes the leaf
    nodes' payoffs with the caller's discount, then the member nodes' and
    the root's with 1.0, and the two later phases give the same whatever
    discount they are handed: the caller's discount is used by the leaf
    nodes and by nothing else.  A leaf node multiplies its children's
    payoffs by the caller's discount, every other member by 1.0; a leaf's
    payoff, once computed, is answered from its memo; a member that is
    not a leaf computes the same for every discount, in every later store.
    A flagged node uses 1.0 for every child, also for one outside the
    schema: in the schema whose root reaches a leaf node (payoff [x] behind
    it) and a node outside the schema (payoff [y]), the discount multiplies
    [x] once and [y] not at all. *)
Theorem ActionSchema_compute_payoff_discount_at_leaves
  (fuel : nat) (h : heap) (self : ref) (a : ActionSchema) (d : Qc) :
  h !! self = Some (ActionSchemaObj a) ->
  correctly_partitioned h a ->
  (forall d',
     compute_payoff (S fuel) self d h
     = let* h1 := compute_payoff_each (compute_payoff fuel) (leafs a) d h in
       let* h2 := compute_payoff_each (compute_payoff fuel) (chance_nodes a) d' h1 in
       let* root := ActionSchema_root_node a in
       compute_payoff fuel root d' h2)
  /\ (forall m c,
        m ∈ chance_nodes a -> h !! m = Some (ChanceNodeObj c) ->
        (m ∈ leafs a -> effective_discount c d = d)
        /\ (m ∉ leafs a -> effective_discount c d = 1%Qc))
  /\ (forall h1,
        compute_payoff_each (compute_payoff fuel) (leafs a) d h = Ok h1 ->
        forall l, l ∈ leafs a ->
          exists c1, h1 !! l = Some (ChanceNodeObj c1)
                     /\ forall n d',
                          compute_payoff (S n) l d' h1
                          = Ok (computed_payoff_estimate c1, h1))
  /\ (forall m h' n d1 d2,
        m ∈ chance_nodes a -> m ∉ leafs a -> heap_ext h h' ->
        compute_payoff n m d1 h' = compute_payoff n m d2 h')
  /\ (forall (r1 r2 r3 x y i1 i2 i3 : Qc) (n1 n2 n3 : nat),
        (0 < n1)%nat -> (0 < n2)%nat ->
        exists h',
          compute_payoff 5 0%nat d (mixed_heap_of r1 r2 r3 x y i1 i2 i3 n1 n2 n3)
          = Ok (VVec [((Qc_of_nat n1 * i1 * (r1 + 1 * (i2 * (r2 + d * x)))
                        + Qc_of_nat n3 * i3 * (r3 + 1 * y))
                       / Qc_of_nat (n1 + n3))%Qc], h')).
Proof.
  intros Ha Hpart.
  split; [intros d'; by apply ActionSchema_compute_payoff_leaf_phase|].
  destruct Hpart as [Hleafs Hmembers].
  assert (Hflag : forall m c,
             m ∈ chance_nodes a -> h !! m = Some (ChanceNodeObj c) ->
             (m ∈ leafs a -> intermediate_action_schema_node c = false)
             /\ (m ∉ leafs a -> intermediate_action_schema_node c = true)).
  { intros m c Hm Hc. destruct (Hmembers m Hm) as (c' & Hc' & Hleaf & Hfl).
    rewrite Hc in Hc'. injection Hc' as <-. rewrite Hfl. split.
    - intros Hin. by apply Hleaf.
    - intros Hnin. destruct (has_member_child (chance_nodes a) c); [done|].
      destruct Hnin. by apply Hleaf. }
  split.
  { intros m c Hm Hc. destruct (Hflag m c Hm Hc) as [Hl Hi].
    unfold effective_discount. split; intros Hin.
    - by rewrite (Hl Hin).
    - by rewrite (Hi Hin). }
  split.
  { intros h1 Hrun l Hl.
    destruct (compute_payoff_each_settles fuel (leafs a) h h1 d) with (m := l)
      as (c1 & Hc1 & Hs1); [|done|done|].
    - intros l' Hl'. destruct (Hmembers l' (Hleafs l' Hl')) as (cl & Hcl & _).
      eauto.
    - exists c1. split; [done|]. intros n d'. by apply settled_run. }
  split.
  { intros m h' n d1 d2 Hm Hnin Hext.
    destruct (Hmembers m Hm) as (c & Hc & _).
    destruct (Hflag m c Hm Hc) as [_ Hi].
    destruct (heap_ext_chance_node _ _ _ _ Hext Hc) as (mm & Hc' & _).
    apply (intermediate_ignores_discount n h' m _ d1 d2 Hc').
    destruct c. simpl in *. by apply Hi. }
  intros r1 r2 r3 x y i1 i2 i3 n1 n2 n3 Hn1 Hn2.
  by apply mixed_schema_run.
Qed.

Lemma ActionSchema_compute_payoff_discount_at_leaves_witness :
  chain_heap !! 0%nat = Some (ActionSchemaObj chain_schema)
  /\ correctly_partitioned chain_heap chain_schema
  /\ forall d',
       compute_payoff 5 0%nat half chain_heap
       = let* h1 := compute_payoff_each (compute_payoff 4) [2%nat] half
                      chain_heap in
         let* h2 := compute_payoff_each (compute_payoff 4) [1%nat; 2%nat] d'
                      h1 in
         compute_payoff 4 1%nat d' h2.
Proof.
  assert (Hpart : correctly_partitioned chain_heap chain_schema)
    by (eapply correctly_partitioned_chain; reflexivity).
  split; [reflexivity|]. split; [exact Hpart|].
  exact (proj1 (ActionSchema_compute_payoff_discount_at_leaves
                  4 chain_heap 0%nat chain_schema half eq_refl Hpart)).
Defined.

(** ** A StateNode asked twice *)

Lemma compute_payoff_state fuel h self s sa d :
  h !! self = Some (StateNodeObj s) ->
  action_schema s = Some sa ->
  compute_payoff (S fuel) self d h = compute_payoff fuel sa d h.
Proof.
  intros Hs Hsa. simpl. rewrite Hs. unfold StateNode_compute_payoff.
  by rewrite Hs, Hsa.
Qed.

(** X14: A StateNode keeps no payoff of its own, yet asking it twice gives
    the same: once [compute_payoff] has returned on a StateNode whose schema
    lists ChanceNodes, every later call on it, with whatever discount and
    three levels of call stack, returns the same payoff and leaves the
    store as it is.  The answer comes from the memos of the schema's nodes,
    so a different discount in the second call has no effect. *)
Theorem StateNode_compute_payoff_idempotent
  (fuel fuel' : nat) (h h1 : heap) (self sa : ref) (s : StateNode)
  (a : ActionSchema) (d d' : Qc) (v : val) :
  h !! self = Some (StateNodeObj s) ->
  action_schema s = Some sa ->
  h !! sa = Some (ActionSchemaObj a) ->
  (forall m, m ∈ leafs a ++ chance_nodes a ->
             exists c, h !! m = Some (ChanceNodeObj c)) ->
  compute_payoff fuel self d h = Ok (v, h1) ->
  compute_payoff (S (S (S fuel'))) self d' h1 = Ok (v, h1).
Proof.
  intros Hs Hsa Ha Hall Hrun.
  assert (Hext : heap_ext h h1) by (by apply compute_payoff_ext in Hrun).
  destruct fuel as [|fuel]; [discriminate|].
  rewrite (compute_payoff_state fuel h self s sa d Hs Hsa) in Hrun.
  destruct fuel as [|fuel]; [discriminate|].
  rewrite (compute_payoff_schema fuel h sa a d Ha) in Hrun.
  bind_inv Hrun as hA HA. bind_inv Hrun as hB HB. bind_inv Hrun as root Hroot.
  destruct fuel as [|fuel]; [discriminate|].
  assert (HextA : heap_ext h hA)
    by (eapply compute_payoff_each_ext; [apply compute_payoff_ext | done]).
  assert (HextB : heap_ext hA hB)
    by (eapply compute_payoff_each_ext; [apply compute_payoff_ext | done]).
  assert (HallA : forall m, m ∈ chance_nodes a ->
                            exists c, hA !! m = Some (ChanceNodeObj c)).
  { intros m Hm. destruct (Hall m) as (c & Hc); [apply elem_of_app; by right|].
    destruct (heap_ext_chance_node _ _ _ _ HextA Hc) as (mm & Hc' & _). eauto. }
  assert (HleafB : forall l, l ∈ leafs a ->
                             exists c, hB !! l = Some (ChanceNodeObj c)
                                       /\ settled c).
  { intros l Hl.
    destruct (compute_payoff_each_settles (S fuel) (leafs a) h hA d)
      with (m := l) as (c1 & Hc1 & Hs1); [|done|done|].
    - intros l' Hl'. apply Hall. apply elem_of_app. by left.
    - by apply (settled_ext hA hB l c1). }
  pose proof (compute_payoff_each_settles (S fuel) (chance_nodes a) hA hB 1%Qc
                HallA HB) as HmemB.
  destruct (HmemB root (py_index_elem _ _ _ Hroot)) as (cR & HcR & HsR).
  rewrite (settled_run fuel hB root cR 1%Qc HcR HsR) in Hrun.
  injection Hrun as <- <-.
  assert (HsB : hB !! self = Some (StateNodeObj s)).
  { apply (heap_ext_other h hB self _ Hext Hs). discriminate. }
  assert (HaB : hB !! sa = Some (ActionSchemaObj a)).
  { apply (heap_ext_other h hB sa _ Hext Ha). discriminate. }
  rewrite (compute_payoff_state _ hB self s sa d' HsB Hsa).
  rewrite (compute_payoff_schema _ hB sa a d' HaB).
  rewrite (compute_payoff_each_settled_noop fuel' (leafs a) hB d' HleafB).
  cbn [rbind].
  rewrite (compute_payoff_each_settled_noop fuel' (chance_nodes a) hB 1%Qc HmemB).
  cbn [rbind]. rewrite Hroot. cbn [rbind].
  by apply settled_run.
Qed.

Lemma StateNode_compute_payoff_idempotent_witness :
  exists h1,
    compute_payoff 6 5%nat half state_heap = Ok (VVec [q 7], h1)
    /\ compute_payoff 3 5%nat 1%Qc h1 = Ok (VVec [q 7], h1).
Proof.
  eexists. split; [vm_compute; reflexivity|].
  apply (StateNode_compute_payoff_idempotent 6 0 state_heap _ 5%nat 0%nat
           {| action_schema := Some 0%nat |} chain_schema half 1%Qc
           (VVec [q 7]));
    try reflexivity.
  intros m Hm. cbn [leafs chance_nodes chain_schema app] in Hm.
  apply elem_of_cons in Hm as [->|Hm]; [eexists; reflexivity|].
  apply elem_of_cons in Hm as [->|Hm]; [eexists; reflexivity|].
  apply list_elem_of_singleton in Hm as ->. eexists; reflexivity.
Defined.
